(** * Ren-C value cells, contexts, GOBs and the crypt / PNG natives

    A shallow embedding of the parts of the Ren-C sources that the
    specification's testable properties talk about:

    - [Quoted]  : %sys-quoted.h  (quote levels folded in the kind byte, or
                  kept in a singular array once deeper than three);
    - [Context] : %t-object.c    (Equal_Context, CT_Context and the APPEND
                  case of REBTYPE(Context));
    - [Gob]     : %mod-gob.c, %reb-gob.h (Map_Gob_Inner, map-gob-offset,
                  map-event, the GOB flags);
    - [Crypt]   : %mod-crypt.c   (checksum, aes-key, aes-stream);
    - [Png]     : %mod-lodepng.c (identify-png?, decode-png, encode-png);
    - [Image]   : %sys-image.h   (Init_Image_Black_Opaque);
    - [Append], [Copy], [Meta] : %t-object.c (Append_To_Context,
                  Copy_Context_Core_Managed, META-OF and SET-META).

    Machine integers are [Z] with the wrap-around written out, pointers are
    addresses into an explicit store, [fail (...)] is an error value, and
    the 32-bit floats of the GOB coordinates are a class of operations
    with IEEE 754 binary32 as an instance. *)

From Stdlib Require Import ZArith Lia Bool List.
From Stdlib Require SpecFloat.
From Stdlib.Strings Require Import Byte.
From stdpp Require Import base option list gmap.

Local Open Scope Z_scope.

(** ** Machine arithmetic shared by the modules *)

(** [REBCNT] / [REBLEN] is a 32-bit unsigned integer. *)
Definition to_REBCNT (z : Z) : Z := z mod 2 ^ 32.

(** [REBYTE] is an 8-bit unsigned integer. *)
Definition to_REBYTE (z : Z) : Z := z mod 256.

(** [REBINT] is a 32-bit signed integer (two's complement wrap). *)
Definition to_REBINT (z : Z) : Z := (z + 2 ^ 31) mod 2 ^ 32 - 2 ^ 31.

(** ** [fail (...)]: results that may be an error *)

Inductive Result (E A : Type) : Type :=
| Return (a : A)
| Fail (e : E).

Arguments Return {E A} a.
Arguments Fail {E A} e.

#[export] Instance Result_bind {E} : MBind (Result E) :=
  fun A B (f : A -> Result E B) (m : Result E A) =>
    match m with
    | Return a => f a
    | Fail e => Fail e
    end.

(** *** Values in range are not wrapped *)

Lemma to_REBCNT_small z : 0 <= z < 2 ^ 32 -> to_REBCNT z = z.
Proof. intros H. unfold to_REBCNT. now apply Z.mod_small. Qed.

Lemma to_REBYTE_small z : 0 <= z < 256 -> to_REBYTE z = z.
Proof. intros H. unfold to_REBYTE. now apply Z.mod_small. Qed.

Lemma to_REBINT_small z : - 2 ^ 31 <= z < 2 ^ 31 -> to_REBINT z = z.
Proof. intros H. unfold to_REBINT. rewrite Z.mod_small; lia. Qed.

(** ** %sys-quoted.h *)

Module Quoted.

(** A value cell: header, "extra" and a two-word payload (%sys-rebval.h).
    The header is split in the kind byte, which the quoting code computes
    with, and the remaining header bits. *)
Record Cell := mkCell {
  KIND_BYTE : Z;        (* second byte of header.bits *)
  header_flags : Z;     (* the other bits of header.bits *)
  extra : Z;            (* union Reb_Value_Extra, one platform word *)
  payload_first : Z;    (* PAYLOAD(Quoted, v).cell when REB_QUOTED *)
  payload_second : Z    (* PAYLOAD(Quoted, v).depth when REB_QUOTED *)
}.

Definition set_KIND_BYTE (v : Cell) (k : Z) : Cell :=
  mkCell k (header_flags v) (extra v) (payload_first v) (payload_second v).

Definition set_header_flags (v : Cell) (f : Z) : Cell :=
  mkCell (KIND_BYTE v) f (extra v) (payload_first v) (payload_second v).

Definition set_extra (v : Cell) (e : Z) : Cell :=
  mkCell (KIND_BYTE v) (header_flags v) e (payload_first v) (payload_second v).

Definition set_payload (v : Cell) (p1 p2 : Z) : Cell :=
  mkCell (KIND_BYTE v) (header_flags v) (extra v) p1 p2.

Definition set_depth (v : Cell) (d : Z) : Cell :=
  set_payload v (payload_first v) d.

(** The singular arrays made by [Alloc_Singular]: the array at address [a]
    holds the one cell [h !! a]. *)
Abbreviation Heap := (list Cell).

Definition REB_0 : Z := 0.
Definition REB_64 : Z := 64.
Definition CELL_MASK_NONE : Z := 0.
Definition nullptr : Z := 0.

(** What the quoting code takes from headers that are generated or not
    part of this development: the numbering of the kinds (%tmp-kinds.h),
    [Is_Bindable] (%sys-bind.h), the layout of the header bits
    (%sys-rebnod.h), the build flavour, and the bits of the cell of a
    freshly made singular array. *)
Class Build := {
  REB_QUOTED : Z;
  REB_MAX : Z;
  Is_Bindable : Cell -> bool;
  (* release build ([true]) or debug build ([false]): in the debug build
     [assert] aborts and the code under [#if !defined(NDEBUG)] runs *)
  NDEBUG : bool;
  FLAG_LEFT_BIT : Z -> Z;
  NODE_FLAG_NODE : Z;
  NODE_FLAG_MANAGED : Z;
  NODE_FLAG_MARKED : Z;
  NODE_FLAG_TRANSIENT : Z;
  NODE_FLAG_ROOT : Z;
  NODE_FLAG_STACK : Z;
  NODE_FLAG_CELL : Z;
  prep_cell : Cell
}.

Section Definitions.

Context {build : Build}.

(** %sys-rebval.h: the general cell bits and the two masks. *)
Definition CELL_FLAG_TRANSIENT : Z := NODE_FLAG_TRANSIENT.
Definition CELL_FLAG_STACK_LIFETIME : Z := NODE_FLAG_STACK.
Definition CELL_FLAG_PROTECTED : Z := FLAG_LEFT_BIT 16.
Definition CELL_FLAG_UNEVALUATED : Z := FLAG_LEFT_BIT 19.
Definition CELL_FLAG_ENFIXED : Z := FLAG_LEFT_BIT 20.
Definition CELL_FLAG_EVAL_FLIP : Z := FLAG_LEFT_BIT 21.

Definition CELL_MASK_PERSIST : Z :=
  Z.lor NODE_FLAG_NODE (Z.lor NODE_FLAG_CELL (Z.lor NODE_FLAG_MANAGED
    (Z.lor NODE_FLAG_ROOT
       (Z.lor CELL_FLAG_TRANSIENT CELL_FLAG_STACK_LIFETIME)))).

(** The kind byte is kept apart from [header_flags]: it is among the bits
    of [CELL_MASK_COPY] and not among those of [CELL_MASK_PERSIST]. *)
Definition CELL_MASK_COPY : Z :=
  Z.lnot (Z.lor CELL_MASK_PERSIST (Z.lor NODE_FLAG_MARKED
    (Z.lor CELL_FLAG_PROTECTED (Z.lor CELL_FLAG_ENFIXED
       (Z.lor CELL_FLAG_UNEVALUATED CELL_FLAG_EVAL_FLIP))))).

(** [None] is an aborted run: a failed [assert] in the debug build, or a
    read through a pointer that is not the address of a singular array. *)
Definition assert (b : bool) : option unit :=
  if NDEBUG || b then Some tt else None.

(** Modelled from the spec: [Move_Value_Header] of %sys-value.h, "copies
    header (masked to the copyable bit set)", "dest's own
    lifetime/ownership bits are preserved rather than overwritten". *)
Definition Move_Value_Header (out v : Cell) : Cell :=
  set_header_flags (set_KIND_BYTE out (KIND_BYTE v))
    (Z.lor (Z.land (header_flags out) CELL_MASK_PERSIST)
           (Z.land (header_flags v) CELL_MASK_COPY)).

(** Modelled from the spec: [RESET_VAL_HEADER] of %sys-value.h,
    "overwrite the header with a fresh kind and explicit flags". *)
Definition RESET_VAL_HEADER (v : Cell) (kind flags : Z) : Cell :=
  set_header_flags (set_KIND_BYTE v kind)
    (Z.lor (Z.land (header_flags v) CELL_MASK_PERSIST) flags).

Definition SET_CELL_FLAG (v : Cell) (flag : Z) : Cell :=
  set_header_flags v (Z.lor (header_flags v) flag).

(** [Alloc_Singular]: a new array of one cell, at a fresh address.  The
    flags of the array (managed, nulleds legal) play no part in what the
    quoting code does with it. *)
Definition Alloc_Singular (h : Heap) : Z * Heap :=
  (Z.of_nat (length h), h ++ [prep_cell]).

Definition ARR_SINGLE (h : Heap) (a : Z) : option Cell :=
  if a <? 0 then None else h !! Z.to_nat a.

Definition write_single (h : Heap) (a : Z) (c : Cell) : Heap :=
  <[Z.to_nat a := c]> h.

Definition VAL_QUOTED_DEPTH (v : Cell) : option Z :=
  if REB_64 <=? KIND_BYTE v then Some (KIND_BYTE v / REB_64)
  else
    _ ← assert (KIND_BYTE v =? REB_QUOTED);
    Some (payload_second v).

(** Modelled from the spec: [VAL_TYPE] and [IS_QUOTED] of %sys-value.h,
    "tags >= a fixed threshold reinterpreted as base kind at quote-depth
    tag / 64": every kind byte from [REB_64] on reads as REB_QUOTED. *)
Definition VAL_TYPE (v : Cell) : Z :=
  if REB_64 <=? KIND_BYTE v then REB_QUOTED else KIND_BYTE v.

Definition IS_QUOTED (v : Cell) : bool := VAL_TYPE v =? REB_QUOTED.

Definition VAL_NUM_QUOTES (v : Cell) : option Z :=
  if negb (IS_QUOTED v) then Some 0 else VAL_QUOTED_DEPTH v.

Definition Quotify_Core (v : Cell) (depth : Z) (h : Heap)
  : option (Cell * Heap) :=
  if KIND_BYTE v =? REB_QUOTED then
    (* reuse payload, bump count *)
    _ ← assert (3 <? payload_second v);
    Some (set_depth v (to_REBCNT (payload_second v + depth)), h)
  else
    let kind := KIND_BYTE v mod REB_64 in
    let depth := to_REBCNT (depth + KIND_BYTE v / REB_64) in
    if depth <=? 3 then
      Some (set_KIND_BYTE v (to_REBYTE (kind + REB_64 * depth)), h)
    else
      let '(a, h1) := Alloc_Singular h in
      cell ← ARR_SINGLE h1 a;
      let cell := Move_Value_Header cell v in
      let cell := set_KIND_BYTE cell kind in
      let cell := set_extra cell (extra v) in
      let cell := set_payload cell (payload_first v) (payload_second v) in
      let cell :=
        if NDEBUG then cell else SET_CELL_FLAG cell CELL_FLAG_PROTECTED in
      let h2 := write_single h1 a cell in
      let v := RESET_VAL_HEADER v REB_QUOTED CELL_MASK_NONE in
      let v :=
        if Is_Bindable cell then set_extra v (extra cell)
        else set_extra v nullptr in
      Some (set_payload v a depth, h2).

Definition kind_in_range (k : Z) : bool :=
  negb (k =? REB_0) && negb (k =? REB_QUOTED) && (k <? REB_MAX).

Definition Unquotify_In_Situ (v : Cell) (unquotes : Z) : option Cell :=
  _ ← assert (REB_64 <=? KIND_BYTE v);
  _ ← assert (unquotes <=? KIND_BYTE v / REB_64);
  let v :=
    set_KIND_BYTE v
      (to_REBYTE (KIND_BYTE v - to_REBCNT (REB_64 * unquotes))) in
  _ ← assert (kind_in_range (KIND_BYTE v mod 64));
  Some v.

Definition Unquotify_Core (v : Cell) (unquotes : Z) (h : Heap)
  : option Cell :=
  if unquotes =? 0 then Some v
  else if negb (KIND_BYTE v =? REB_QUOTED) then
    Unquotify_In_Situ v unquotes
  else
    let depth := payload_second v in
    _ ← assert ((3 <? depth) && (unquotes <=? depth));
    let depth := to_REBCNT (depth - unquotes) in
    _ ← (if NDEBUG then Some tt
         else cell ← ARR_SINGLE h (payload_first v);
              assert (kind_in_range (KIND_BYTE cell)));
    if 3 <? depth then
      Some (set_depth v depth)
    else
      cell ← ARR_SINGLE h (payload_first v);
      let v := Move_Value_Header v cell in
      let v := set_KIND_BYTE v (to_REBYTE (KIND_BYTE v + REB_64 * depth)) in
      _ ← assert (negb (Is_Bindable cell) || (extra v =? extra cell));
      Some (set_payload v (payload_first cell) (payload_second cell)).

Definition Dequotify (v : Cell) (h : Heap) : option (Z * Cell) :=
  if negb (KIND_BYTE v =? REB_QUOTED) then
    let depth := KIND_BYTE v / REB_64 in
    Some (depth, set_KIND_BYTE v (KIND_BYTE v mod REB_64))
  else
    let depth := payload_second v in
    cell ← ARR_SINGLE h (payload_first v);
    _ ← assert (negb (KIND_BYTE cell =? REB_QUOTED)
                && (KIND_BYTE cell <? REB_64));
    let v := Move_Value_Header v cell in
    _ ← assert (if Is_Bindable cell then extra v =? extra cell
                else extra v =? nullptr);
    let v := set_extra v (extra cell) in
    Some (depth, set_payload v (payload_first cell) (payload_second cell)).

(** [VAL_UNESCAPED]: the cell itself (its kind byte may be above 64), or
    the cell of the singular array of a REB_QUOTED. *)
Definition VAL_UNESCAPED (v : Cell) (h : Heap) : option Cell :=
  if negb (KIND_BYTE v =? REB_QUOTED) then Some v
  else ARR_SINGLE h (payload_first v).

(** Quote by [d], then unquote by [d]. *)
Definition quote_unquote (v : Cell) (d : Z) (h : Heap) : option Cell :=
  '(v1, h1) ← Quotify_Core v d h;
  Unquotify_Core v1 d h1.

(** The cell that [Quotify_Core] stores in the singular array. *)
Definition escaped_cell (v : Cell) : Cell :=
  let cell := Move_Value_Header prep_cell v in
  let cell := set_KIND_BYTE cell (KIND_BYTE v mod REB_64) in
  let cell := set_extra cell (extra v) in
  let cell := set_payload cell (payload_first v) (payload_second v) in
  if NDEBUG then cell else SET_CELL_FLAG cell CELL_FLAG_PROTECTED.

(** The header bits that come back from a round trip through the array. *)
Definition deep_roundtrip_flags (v : Cell) : Z :=
  Z.lor
    (Z.land (header_flags (RESET_VAL_HEADER v REB_QUOTED CELL_MASK_NONE))
            CELL_MASK_PERSIST)
    (Z.land (header_flags (escaped_cell v)) CELL_MASK_COPY).

End Definitions.

(** *** A sample numbering of the kinds, to run the code

    %tmp-kinds.h is generated; the theorems hold for every numbering.  The
    sample has the bindable kinds first, as [Is_Bindable] expects. *)

Definition sample_REB_LOGIC : Z := 20.
Definition sample_REB_DATE : Z := 30.

(** The debug build of the sample: assertions on. *)
Definition sample : Build := {|
  REB_QUOTED := 50;
  REB_MAX := 52;
  Is_Bindable := fun c => KIND_BYTE c <? sample_REB_LOGIC;
  NDEBUG := false;
  FLAG_LEFT_BIT := fun n => 2 ^ (31 - n);
  NODE_FLAG_NODE := 2 ^ 31;
  NODE_FLAG_MANAGED := 2 ^ 29;
  NODE_FLAG_MARKED := 2 ^ 28;
  NODE_FLAG_TRANSIENT := 2 ^ 27;
  NODE_FLAG_ROOT := 2 ^ 26;
  NODE_FLAG_STACK := 2 ^ 25;
  NODE_FLAG_CELL := 2 ^ 24;
  prep_cell := mkCell 0 (2 ^ 31 + 2 ^ 24) 0 0 0
|}.

(** A WORD! cell: bindable, its extra holds the binding; the payload holds
    the spelling and the index. *)
Definition word_cell : Cell := mkCell 10 (2 ^ 31 + 2 ^ 24) 7001 7002 3.

(** A DATE! cell: not bindable, its extra holds the packed year, month,
    day and zone; the payload holds the time. *)
Definition date_cell : Cell :=
  mkCell sample_REB_DATE (2 ^ 31 + 2 ^ 24) 20190704 43200 0.

(** A REB_QUOTED cell of depth 5 around the cell of the array at 0. *)
Definition deep_cell : Cell :=
  mkCell (@REB_QUOTED sample) (2 ^ 31 + 2 ^ 24) 0 0 5.

Section Facts.

Context {build : Build}.

(** *** Arithmetic of the kind byte *)

Lemma kind_byte_split kb :
  0 <= kb < 256 -> 0 <= kb mod REB_64 < 64 /\ 0 <= kb / REB_64 <= 3.
Proof.
  unfold REB_64. intros H. split.
  - apply Z.mod_pos_bound. lia.
  - split; [apply Z.div_pos; lia|].
    assert (kb / 64 < 4) by (apply Z.div_lt_upper_bound; lia). lia.
Qed.

Lemma kind_byte_join kb :
  kb mod REB_64 + REB_64 * (kb / REB_64) = kb.
Proof. unfold REB_64. pose proof (Z.div_mod kb 64). lia. Qed.

Lemma lookup_fresh (h : Heap) (c : Cell) :
  ARR_SINGLE (h ++ [c]) (Z.of_nat (length h)) = Some c.
Proof.
  unfold ARR_SINGLE.
  destruct (Z.ltb_spec (Z.of_nat (length h)) 0) as [Hlt|_]; [lia|].
  rewrite Nat2Z.id. rewrite lookup_app_r by lia.
  now rewrite Nat.sub_diag.
Qed.

Lemma write_fresh (h : Heap) (c c' : Cell) :
  write_single (h ++ [c]) (Z.of_nat (length h)) c' = h ++ [c'].
Proof.
  unfold write_single. rewrite Nat2Z.id.
  rewrite insert_app_r_alt by lia. now rewrite Nat.sub_diag.
Qed.


Lemma escaped_cell_fields v :
  KIND_BYTE (escaped_cell v) = KIND_BYTE v mod REB_64
  /\ extra (escaped_cell v) = extra v
  /\ payload_first (escaped_cell v) = payload_first v
  /\ payload_second (escaped_cell v) = payload_second v.
Proof. unfold escaped_cell. destruct NDEBUG; repeat split. Qed.

(** *** What [Quotify_Core] does, branch by branch *)

Lemma Quotify_Core_shared v d h :
  KIND_BYTE v = REB_QUOTED ->
  3 < payload_second v ->
  Quotify_Core v d h
  = Some (set_depth v (to_REBCNT (payload_second v + d)), h).
Proof.
  intros Hk Hd. unfold Quotify_Core, assert.
  rewrite (proj2 (Z.eqb_eq _ _) Hk).
  rewrite (proj2 (Z.ltb_lt _ _) Hd), orb_true_r. reflexivity.
Qed.

Lemma Quotify_Core_in_tag v d h :
  KIND_BYTE v <> REB_QUOTED ->
  0 <= KIND_BYTE v < 256 ->
  to_REBCNT (d + KIND_BYTE v / REB_64) <= 3 ->
  Quotify_Core v d h
  = Some (set_KIND_BYTE v
            (KIND_BYTE v mod REB_64
             + REB_64 * to_REBCNT (d + KIND_BYTE v / REB_64)), h).
Proof.
  intros Hk Hb Ht. unfold Quotify_Core.
  rewrite (proj2 (Z.eqb_neq _ _) Hk).
  rewrite (proj2 (Z.leb_le _ _) Ht).
  rewrite to_REBYTE_small; [reflexivity|].
  pose proof (kind_byte_split _ Hb) as [Hm _].
  assert (0 <= to_REBCNT (d + KIND_BYTE v / REB_64))
    by (apply Z.mod_pos_bound; lia).
  unfold REB_64 in *. lia.
Qed.

Lemma Quotify_Core_deep v d h :
  KIND_BYTE v <> REB_QUOTED ->
  3 < to_REBCNT (d + KIND_BYTE v / REB_64) ->
  Quotify_Core v d h
  = Some (set_payload
            (set_extra (RESET_VAL_HEADER v REB_QUOTED CELL_MASK_NONE)
               (if Is_Bindable (escaped_cell v) then extra v else nullptr))
            (Z.of_nat (length h))
            (to_REBCNT (d + KIND_BYTE v / REB_64)),
          h ++ [escaped_cell v]).
Proof.
  intros Hk Ht. unfold Quotify_Core.
  rewrite (proj2 (Z.eqb_neq _ _) Hk).
  rewrite (proj2 (Z.leb_gt _ _) Ht).
  unfold Alloc_Singular. rewrite lookup_fresh. cbn [mbind option_bind].
  rewrite write_fresh. fold (escaped_cell v).
  destruct (escaped_cell_fields v) as (_ & He & _).
  rewrite He. now destruct (Is_Bindable (escaped_cell v)).
Qed.


(** *** Quote by [d], unquote by [d] *)

(** Rewrites the comparisons of the goal whose outcome [lia] can tell. *)
Ltac decide_cmp :=
  repeat match goal with
  | |- context [?a =? ?b] =>
      first [ rewrite (proj2 (Z.eqb_eq a b)) by lia
            | rewrite (proj2 (Z.eqb_neq a b)) by lia ]
  | |- context [?a <? ?b] =>
      first [ rewrite (proj2 (Z.ltb_lt a b)) by lia
            | rewrite (proj2 (Z.ltb_ge a b)) by lia ]
  | |- context [?a <=? ?b] =>
      first [ rewrite (proj2 (Z.leb_le a b)) by lia
            | rewrite (proj2 (Z.leb_gt a b)) by lia ]
  end.

Lemma set_KIND_BYTE_same v : set_KIND_BYTE v (KIND_BYTE v) = v.
Proof. now destruct v. Qed.

Lemma set_depth_same v : set_depth v (payload_second v) = v.
Proof. now destruct v. Qed.

Lemma assert_true : assert true = Some tt.
Proof. unfold assert. now rewrite orb_true_r. Qed.

(** X1. The round trip in the kind byte.  Quoting a cell by [d] and
    unquoting it by [d] gives the very same cell back, header, extra and
    payload, as long as the total depth stays at three or below, for
    bindable and unbindable kinds alike; no singular array is involved. *)
Lemma quote_unquote_in_tag v d h :
  0 < REB_QUOTED < REB_64 ->
  KIND_BYTE v <> REB_QUOTED ->
  0 <= KIND_BYTE v < 256 ->
  kind_in_range (KIND_BYTE v mod 64) = true ->
  0 <= d -> d + KIND_BYTE v / REB_64 <= 3 ->
  quote_unquote v d h = Some v.
Proof.
  intros HQ Hk Hb Hr Hd Ht.
  destruct (kind_byte_split _ Hb) as [Hm Hq].
  pose proof (kind_byte_join (KIND_BYTE v)) as Hj.
  unfold quote_unquote.
  rewrite Quotify_Core_in_tag; [|assumption..|rewrite to_REBCNT_small; lia].
  rewrite to_REBCNT_small by lia. cbn [mbind option_bind].
  unfold Unquotify_Core.
  destruct (Z.eqb_spec d 0) as [->|Hd0].
  - f_equal. rewrite Z.add_0_l, Hj. apply set_KIND_BYTE_same.
  - cbn [KIND_BYTE set_KIND_BYTE]. unfold REB_64 in *.
    replace (KIND_BYTE v mod 64 + 64 * (d + KIND_BYTE v / 64))
      with (KIND_BYTE v + 64 * d) by lia.
    assert (Hdiv : (KIND_BYTE v + 64 * d) / 64 = KIND_BYTE v / 64 + d).
    { rewrite (Z.mul_comm 64 d). apply Z.div_add. lia. }
    decide_cmp. cbn [negb]. unfold Unquotify_In_Situ.
    cbn [KIND_BYTE set_KIND_BYTE]. unfold REB_64. rewrite Hdiv.
    decide_cmp. rewrite !assert_true. cbn [mbind option_bind].
    rewrite (to_REBCNT_small (64 * d)) by lia.
    replace (KIND_BYTE v + 64 * d - 64 * d) with (KIND_BYTE v) by lia.
    rewrite to_REBYTE_small by lia. rewrite Hr, assert_true.
    cbn [mbind option_bind]. f_equal. now destruct v.
Qed.

(** X2. The round trip of a cell that already is a REB_QUOTED.  Quoting
    it by [d] only adds to its count and unquoting by [d] takes that off
    again: the very same cell comes back, still pointing at the same
    singular array. *)
Lemma quote_unquote_shared v d h cell :
  KIND_BYTE v = REB_QUOTED ->
  3 < payload_second v ->
  0 <= d -> payload_second v + d < 2 ^ 32 ->
  ARR_SINGLE h (payload_first v) = Some cell ->
  kind_in_range (KIND_BYTE cell) = true ->
  quote_unquote v d h = Some v.
Proof.
  intros Hk HD Hd Hsum Hcell Hr.
  unfold quote_unquote. rewrite Quotify_Core_shared by assumption.
  rewrite to_REBCNT_small by lia. cbn [mbind option_bind].
  unfold Unquotify_Core.
  destruct (Z.eqb_spec d 0) as [->|Hd0].
  - f_equal. rewrite Z.add_0_r. apply set_depth_same.
  - cbn [KIND_BYTE set_depth set_payload payload_first payload_second].
    rewrite (proj2 (Z.eqb_eq _ _) Hk). cbn [negb].
    decide_cmp. cbn [andb]. rewrite assert_true. cbn [mbind option_bind].
    replace (payload_second v + d - d) with (payload_second v) by lia.
    rewrite to_REBCNT_small by lia.
    rewrite Hcell. cbn [mbind option_bind]. rewrite Hr, assert_true.
    destruct NDEBUG; cbn [mbind option_bind]; decide_cmp;
      f_equal; now destruct v.
Qed.

(** Depths that need the singular array: the kind byte and the payload
    come back, and so does the extra of a bindable cell; the extra of a
    cell that is not bindable comes back as the null binding that
    [Quotify_Core] put there, because [Unquotify_Core] copies the payload
    of the escaped cell but not its extra. *)

Lemma quote_unquote_deep v d h :
  0 < REB_QUOTED < REB_64 ->
  KIND_BYTE v <> REB_QUOTED ->
  0 <= KIND_BYTE v < 256 ->
  kind_in_range (KIND_BYTE v mod REB_64) = true ->
  0 <= d -> d + KIND_BYTE v / REB_64 < 2 ^ 32 ->
  3 < d + KIND_BYTE v / REB_64 ->
  quote_unquote v d h
  = Some (mkCell (KIND_BYTE v) (deep_roundtrip_flags v)
            (if Is_Bindable (escaped_cell v) then extra v else nullptr)
            (payload_first v) (payload_second v)).
Proof.
  intros HQ Hk Hb Hr Hd Hsum Ht.
  destruct (kind_byte_split _ Hb) as [Hm Hq].
  pose proof (kind_byte_join (KIND_BYTE v)) as Hj.
  destruct (escaped_cell_fields v) as (Ek & Ee & Ep1 & Ep2).
  unfold quote_unquote.
  rewrite Quotify_Core_deep; [|assumption|rewrite to_REBCNT_small; lia].
  rewrite to_REBCNT_small by lia. cbn [mbind option_bind].
  unfold Unquotify_Core.
  cbn [KIND_BYTE set_payload set_extra RESET_VAL_HEADER set_header_flags
       set_KIND_BYTE payload_first payload_second].
  rewrite lookup_fresh.
  rewrite (Z.eqb_refl REB_QUOTED). cbn [negb].
  decide_cmp. cbn [andb]. rewrite assert_true.
  replace (d + KIND_BYTE v / REB_64 - d) with (KIND_BYTE v / REB_64) by lia.
  rewrite to_REBCNT_small by lia. decide_cmp.
  cbn [mbind option_bind]. rewrite Ek, Hr, assert_true.
  replace (if NDEBUG then Some () else Some ()) with (Some ())
    by now destruct NDEBUG.
  unfold Move_Value_Header, deep_roundtrip_flags.
  cbn [KIND_BYTE set_payload set_extra RESET_VAL_HEADER set_header_flags
       set_KIND_BYTE payload_first payload_second header_flags extra].
  rewrite Ek, Hj, Ee, Ep1, Ep2. rewrite to_REBYTE_small by lia.
  destruct (Is_Bindable (escaped_cell v)); cbn [extra negb orb];
    rewrite ?Z.eqb_refl, assert_true; reflexivity.
Qed.


(** [Dequotify], the sibling of [Unquotify_Core], does copy the extra of
    the escaped cell back: quoting into a singular array and then
    removing every level gives the extra back for every kind of cell. *)
Lemma quote_Dequotify_deep v d h :
  0 < REB_QUOTED < REB_64 ->
  KIND_BYTE v <> REB_QUOTED ->
  0 <= KIND_BYTE v < REB_64 ->
  0 <= d < 2 ^ 32 -> 3 < d ->
  exists r,
    ('(v1, h1) ← Quotify_Core v d h; Dequotify v1 h1) = Some (d, r)
    /\ KIND_BYTE r = KIND_BYTE v
    /\ extra r = extra v
    /\ payload_first r = payload_first v
    /\ payload_second r = payload_second v.
Proof.
  intros HQ Hk Hb Hd Ht.
  assert (Hq : KIND_BYTE v / REB_64 = 0)
    by (unfold REB_64 in *; apply Z.div_small; lia).
  assert (Hm : KIND_BYTE v mod REB_64 = KIND_BYTE v)
    by (unfold REB_64 in *; apply Z.mod_small; lia).
  destruct (escaped_cell_fields v) as (Ek & Ee & Ep1 & Ep2).
  rewrite Quotify_Core_deep;
    [|assumption|rewrite Hq, Z.add_0_r, to_REBCNT_small; lia].
  rewrite Hq, Z.add_0_r, to_REBCNT_small by lia.
  cbn [mbind option_bind]. unfold Dequotify.
  cbn [KIND_BYTE set_payload set_extra RESET_VAL_HEADER set_header_flags
       set_KIND_BYTE payload_first payload_second].
  rewrite lookup_fresh, (Z.eqb_refl REB_QUOTED).
  cbn [negb mbind option_bind]. rewrite Ek, Hm. decide_cmp.
  cbn [negb andb]. rewrite assert_true. cbn [mbind option_bind].
  unfold Move_Value_Header.
  cbn [KIND_BYTE set_payload set_extra set_header_flags set_KIND_BYTE
       extra payload_first payload_second].
  rewrite Ek, Ee, Ep1, Ep2, Hm.
  destruct (Is_Bindable (escaped_cell v));
    rewrite Z.eqb_refl, assert_true; cbn [mbind option_bind];
    eexists; (split; [reflexivity|]); repeat split.
Qed.

(** X5. Quote levels add.  [Quotify_Core] succeeds on every well-formed
    cell, and the depth that [VAL_NUM_QUOTES] reads off its result is the
    depth of the cell plus the levels added (as a 32-bit sum), in each of
    the three forms: unquoted, quoted in the kind byte, and REB_QUOTED. *)
Lemma Quotify_Core_adds_depth v d h n :
  0 < REB_QUOTED < REB_64 ->
  0 <= KIND_BYTE v < 256 ->
  KIND_BYTE v mod REB_64 <> REB_QUOTED \/ KIND_BYTE v = REB_QUOTED ->
  (KIND_BYTE v = REB_QUOTED -> 3 < payload_second v) ->
  VAL_NUM_QUOTES v = Some n ->
  exists v' h',
    Quotify_Core v d h = Some (v', h')
    /\ VAL_NUM_QUOTES v' = Some (to_REBCNT (n + d)).
Proof.
  intros HQ Hb Hwf Hdeep Hn.
  destruct (kind_byte_split _ Hb) as [Hm Hq].
  pose proof (kind_byte_join (KIND_BYTE v)) as Hj.
  destruct (Z.eq_dec (KIND_BYTE v) REB_QUOTED) as [E|N].
  - (* already in the singular-array form *)
    specialize (Hdeep E).
    rewrite Quotify_Core_shared by assumption.
    do 2 eexists. split; [reflexivity|].
    unfold VAL_NUM_QUOTES, IS_QUOTED, VAL_TYPE, VAL_QUOTED_DEPTH in *.
    cbn [KIND_BYTE set_depth set_payload payload_second].
    rewrite E in *. unfold REB_64 in *.
    rewrite (proj2 (Z.leb_gt 64 REB_QUOTED)) in * by lia.
    rewrite Z.eqb_refl in *. cbn [negb] in *.
    rewrite assert_true in *. cbn [mbind option_bind] in *.
    congruence.
  - assert (Hn0 : n = KIND_BYTE v / REB_64).
    { unfold VAL_NUM_QUOTES, IS_QUOTED, VAL_TYPE, VAL_QUOTED_DEPTH in Hn.
      unfold REB_64 in *.
      destruct (Z.leb_spec 64 (KIND_BYTE v)) as [Hge|Hlt].
      - rewrite Z.eqb_refl in Hn. cbn [negb] in Hn. congruence.
      - rewrite (proj2 (Z.eqb_neq _ _) N) in Hn. cbn [negb] in Hn.
        rewrite Z.div_small by lia. congruence. }
    subst n. rewrite (Z.add_comm (KIND_BYTE v / REB_64) d).
    set (total := to_REBCNT (d + KIND_BYTE v / REB_64)).
    assert (Ht0 : 0 <= total) by (apply Z.mod_pos_bound; lia).
    destruct (Z.le_gt_cases total 3) as [Hle|Hgt].
    + rewrite Quotify_Core_in_tag by assumption. fold total.
      do 2 eexists. split; [reflexivity|].
      unfold VAL_NUM_QUOTES, IS_QUOTED, VAL_TYPE, VAL_QUOTED_DEPTH.
      cbn [KIND_BYTE set_KIND_BYTE]. unfold REB_64 in *.
      destruct Hwf as [Hwf|Hwf]; [|contradiction].
      destruct (Z.eq_dec total 0) as [->|Hne].
      * rewrite Z.mul_0_r, Z.add_0_r.
        rewrite (proj2 (Z.leb_gt 64 _)) by lia.
        now rewrite (proj2 (Z.eqb_neq _ _) Hwf).
      * rewrite (proj2 (Z.leb_le 64 _)) by lia.
        rewrite Z.eqb_refl. cbn [negb]. f_equal.
        rewrite (Z.mul_comm 64 total), Z.div_add by lia.
        rewrite Z.div_small by lia. lia.
    + rewrite Quotify_Core_deep by (assumption || lia). fold total.
      do 2 eexists. split; [reflexivity|].
      unfold VAL_NUM_QUOTES, IS_QUOTED, VAL_TYPE, VAL_QUOTED_DEPTH.
      cbn [KIND_BYTE set_payload set_extra RESET_VAL_HEADER set_header_flags
           set_KIND_BYTE payload_second].
      unfold REB_64 in *.
      rewrite (proj2 (Z.leb_gt 64 REB_QUOTED)) by lia.
      rewrite Z.eqb_refl. cbn [negb]. rewrite assert_true. reflexivity.
Qed.

(** C2. Quote allocation boundary.  For every cell whose kind byte is not
    REB_QUOTED, quoting to a total depth of at most three writes the
    depth in the kind byte (base kind + 64 * depth), leaves the other
    fields of the cell and the heap of singular arrays as they are;
    quoting to a total depth above three allocates one new singular
    array, holding the cell with its base kind, extra and payload, and
    makes the cell a REB_QUOTED pointing at it with the total depth; and
    quoting a cell that is already a REB_QUOTED only adds to its depth
    field: the cell that comes back has the same array pointer, header and
    extra and the sum in the depth field, and nothing is allocated.  The
    total is the 32-bit sum that the code computes, the true sum whenever
    that fits. *)
Theorem Quotify_allocation_boundary v d h :
  0 <= KIND_BYTE v < 256 ->
  let total := to_REBCNT (d + KIND_BYTE v / REB_64) in
  (KIND_BYTE v <> REB_QUOTED -> total <= 3 ->
     Quotify_Core v d h
     = Some (mkCell (KIND_BYTE v mod REB_64 + REB_64 * total)
               (header_flags v) (extra v)
               (payload_first v) (payload_second v), h))
  /\ (KIND_BYTE v <> REB_QUOTED -> 3 < total ->
      exists v',
        Quotify_Core v d h = Some (v', h ++ [escaped_cell v])
        /\ KIND_BYTE v' = REB_QUOTED
        /\ payload_first v' = Z.of_nat (length h)
        /\ payload_second v' = total
        /\ KIND_BYTE (escaped_cell v) = KIND_BYTE v mod REB_64
        /\ extra (escaped_cell v) = extra v
        /\ payload_first (escaped_cell v) = payload_first v
        /\ payload_second (escaped_cell v) = payload_second v)
  /\ (KIND_BYTE v = REB_QUOTED -> 3 < payload_second v ->
      Quotify_Core v d h
      = Some (mkCell REB_QUOTED (header_flags v) (extra v)
                (payload_first v) (to_REBCNT (payload_second v + d)), h))
  /\ (0 <= d -> d + KIND_BYTE v / REB_64 < 2 ^ 32 ->
      total = d + KIND_BYTE v / REB_64).
Proof.
  intros Hb total. split; [|split; [|split]].
  - intros Hk Ht. now rewrite Quotify_Core_in_tag.
  - intros Hk Ht. eexists.
    split; [now apply Quotify_Core_deep|].
    split; [reflexivity|]. split; [reflexivity|]. split; [reflexivity|].
    apply escaped_cell_fields.
  - intros Hk HD. rewrite Quotify_Core_shared by assumption.
    unfold set_depth, set_payload. now rewrite Hk.
  - intros Hd Hs. apply to_REBCNT_small.
    destruct (kind_byte_split _ Hb). lia.
Qed.

(** C1. Quote/unquote round trip, on the code.  Quoting a cell by [d] and
    unquoting it by [d] gives the kind byte and the payload back; but when
    the total depth needs the singular array and the cell is of a kind
    that is not bindable, the extra comes back as the null binding, so a
    cell of such a kind whose extra is in use does not come back as it
    was. *)
Theorem quote_unquote_unbindable_loses_extra v d h :
  0 < REB_QUOTED < REB_64 ->
  KIND_BYTE v <> REB_QUOTED ->
  0 <= KIND_BYTE v < 256 ->
  kind_in_range (KIND_BYTE v mod REB_64) = true ->
  0 <= d -> d + KIND_BYTE v / REB_64 < 2 ^ 32 ->
  3 < d + KIND_BYTE v / REB_64 ->
  Is_Bindable (escaped_cell v) = false ->
  exists r,
    quote_unquote v d h = Some r
    /\ KIND_BYTE r = KIND_BYTE v
    /\ payload_first r = payload_first v
    /\ payload_second r = payload_second v
    /\ extra r = nullptr
    /\ (extra v <> nullptr -> r <> v).
Proof.
  intros HQ Hk Hb Hr Hd Hsum Ht Hu.
  rewrite quote_unquote_deep by assumption. rewrite Hu.
  eexists. split; [reflexivity|]. repeat split.
  intros He Heq. apply He. rewrite <- Heq. reflexivity.
Qed.

(** *** What else the quoting code guarantees *)

(** Decides a Boolean identity on the bits at [n] of the numbers in it. *)
Ltac decide_bits n :=
  repeat match goal with
  | |- context [Z.testbit ?a n] => destruct (Z.testbit a n)
  end;
  reflexivity.

(** The header bits that a trip through the singular array gives back are
    those of the two masks: the bits of [CELL_MASK_PERSIST] stay with the
    cell, the bits of [CELL_MASK_COPY] travel with the escaped cell, and
    the protection that the debug build puts on the escaped cell does not
    come back with them. *)
Lemma deep_roundtrip_flags_mask v :
  deep_roundtrip_flags v
  = Z.land (header_flags v) (Z.lor CELL_MASK_PERSIST CELL_MASK_COPY).
Proof.
  unfold deep_roundtrip_flags, escaped_cell, RESET_VAL_HEADER,
    Move_Value_Header, SET_CELL_FLAG, CELL_MASK_COPY, CELL_MASK_NONE.
  generalize CELL_MASK_PERSIST as P. intros P.
  destruct NDEBUG;
    cbn [header_flags set_header_flags set_KIND_BYTE set_extra set_payload];
    apply Z.bits_inj'; intros n Hn;
    repeat first [ rewrite Z.lor_spec | rewrite Z.land_spec
                 | rewrite Z.lnot_spec by assumption
                 | rewrite Z.testbit_0_l ];
    decide_bits n.
Qed.

(** X3. The round trip of a bindable cell through the singular array.
    Quoting a cell of a bindable kind to a total depth above three and
    unquoting it by as much gives the kind byte, the extra and the payload
    back, and of the header the bits of the two masks; so a cell whose
    header has no other bits comes back as it was. *)
Theorem quote_unquote_bindable_restores v d h :
  0 < REB_QUOTED < REB_64 ->
  KIND_BYTE v <> REB_QUOTED ->
  0 <= KIND_BYTE v < 256 ->
  kind_in_range (KIND_BYTE v mod REB_64) = true ->
  0 <= d -> d + KIND_BYTE v / REB_64 < 2 ^ 32 ->
  3 < d + KIND_BYTE v / REB_64 ->
  Is_Bindable (escaped_cell v) = true ->
  quote_unquote v d h
  = Some (set_header_flags v
            (Z.land (header_flags v)
               (Z.lor CELL_MASK_PERSIST CELL_MASK_COPY)))
  /\ (Z.land (header_flags v) (Z.lor CELL_MASK_PERSIST CELL_MASK_COPY)
      = header_flags v ->
      quote_unquote v d h = Some v).
Proof.
  intros HQ Hk Hb Hr Hd Hsum Ht Hbind.
  rewrite quote_unquote_deep by assumption.
  rewrite Hbind, deep_roundtrip_flags_mask.
  split; [reflexivity|].
  intros ->. now destruct v.
Qed.

(** X4. [Dequotify] undoes [Quotify_Core] at every depth.  Quoting a cell
    by [d] and then removing all the quote levels reports the depth the
    cell had plus [d], and leaves the base kind, the extra and the payload
    of the cell, whether the levels were in the kind byte or in a singular
    array and whether the kind is bindable or not. *)
Theorem Quotify_Dequotify v d h :
  0 < REB_QUOTED < REB_64 ->
  0 <= KIND_BYTE v < 256 ->
  KIND_BYTE v mod REB_64 <> REB_QUOTED ->
  0 <= d -> d + KIND_BYTE v / REB_64 < 2 ^ 32 ->
  exists r,
    ('(v1, h1) ← Quotify_Core v d h; Dequotify v1 h1)
    = Some (d + KIND_BYTE v / REB_64, r)
    /\ KIND_BYTE r = KIND_BYTE v mod REB_64
    /\ extra r = extra v
    /\ payload_first r = payload_first v
    /\ payload_second r = payload_second v.
Proof.
  intros HQ Hb Hbase Hd Hsum.
  destruct (kind_byte_split _ Hb) as [Hm Hq].
  pose proof (kind_byte_join (KIND_BYTE v)) as Hj.
  assert (Hk : KIND_BYTE v <> REB_QUOTED).
  { intros E. apply Hbase. rewrite E. unfold REB_64 in *.
    apply Z.mod_small. lia. }
  destruct (escaped_cell_fields v) as (Ek & Ee & Ep1 & Ep2).
  set (total := d + KIND_BYTE v / REB_64) in *.
  assert (Ht : to_REBCNT total = total) by (apply to_REBCNT_small; lia).
  destruct (Z.le_gt_cases total 3) as [Hle|Hgt].
  - rewrite Quotify_Core_in_tag; [|assumption..|fold total; lia].
    fold total. rewrite Ht. cbn [mbind option_bind]. unfold Dequotify.
    cbn [KIND_BYTE set_KIND_BYTE]. unfold REB_64 in *.
    assert (Hne : KIND_BYTE v mod 64 + 64 * total <> REB_QUOTED) by lia.
    rewrite (proj2 (Z.eqb_neq _ _) Hne). cbn [negb].
    rewrite (Z.mul_comm 64 total), Z.div_add, Z.mod_add by lia.
    rewrite Z.div_small, Z.mod_mod by lia. cbn [Z.add].
    eexists. split; [reflexivity|]. repeat split.
  - rewrite Quotify_Core_deep; [|assumption|fold total; lia].
    fold total. rewrite Ht. cbn [mbind option_bind]. unfold Dequotify.
    cbn [KIND_BYTE set_payload set_extra RESET_VAL_HEADER set_header_flags
         set_KIND_BYTE payload_first payload_second].
    rewrite lookup_fresh, (Z.eqb_refl REB_QUOTED).
    cbn [negb mbind option_bind]. rewrite Ek.
    unfold REB_64 in *. decide_cmp.
    cbn [negb andb]. rewrite assert_true. cbn [mbind option_bind].
    unfold Move_Value_Header.
    cbn [KIND_BYTE set_payload set_extra set_header_flags set_KIND_BYTE
         extra payload_first payload_second].
    rewrite Ek, Ee, Ep1, Ep2.
    destruct (Is_Bindable (escaped_cell v));
      rewrite Z.eqb_refl, assert_true; cbn [mbind option_bind];
      eexists; (split; [reflexivity|]); repeat split.
Qed.

Lemma escaped_cell_set_KIND_BYTE v k :
  k mod REB_64 = KIND_BYTE v mod REB_64 ->
  escaped_cell (set_KIND_BYTE v k) = escaped_cell v.
Proof.
  intros E. unfold escaped_cell, Move_Value_Header.
  cbn [KIND_BYTE set_KIND_BYTE header_flags extra payload_first
       payload_second set_header_flags set_extra set_payload].
  now rewrite E.
Qed.

(** X6. Quoting in two steps is quoting once by the sum.  For a cell that
    is not yet a REB_QUOTED, [Quotify_Core] by [d1] and then by [d2] leaves
    the same cell and the same heap as [Quotify_Core] by [d1 + d2]: the
    levels add, and at most one singular array is allocated, whichever
    step crosses the depth of three. *)
Theorem Quotify_Core_twice v d1 d2 h :
  0 < REB_QUOTED < REB_64 ->
  KIND_BYTE v <> REB_QUOTED ->
  0 <= KIND_BYTE v < 256 ->
  0 <= d1 -> 0 <= d2 -> d1 + d2 + KIND_BYTE v / REB_64 < 2 ^ 32 ->
  ('(v1, h1) ← Quotify_Core v d1 h; Quotify_Core v1 d2 h1)
  = Quotify_Core v (d1 + d2) h.
Proof.
  intros HQ Hk Hb Hd1 Hd2 Hsum.
  destruct (kind_byte_split _ Hb) as [Hm Hq].
  pose proof (kind_byte_join (KIND_BYTE v)) as Hj.
  set (q := KIND_BYTE v / REB_64) in *.
  set (kind := KIND_BYTE v mod REB_64) in *.
  assert (Ht1 : to_REBCNT (d1 + q) = d1 + q)
    by (apply to_REBCNT_small; lia).
  assert (Ht : to_REBCNT (d1 + d2 + q) = d1 + d2 + q)
    by (apply to_REBCNT_small; lia).
  destruct (Z.le_gt_cases (d1 + q) 3) as [Hle1|Hgt1].
  - (* the first step stays in the kind byte *)
    rewrite (Quotify_Core_in_tag v d1);
      [|assumption..|fold q; lia].
    fold q kind. rewrite Ht1. cbn [mbind option_bind].
    set (v1 := set_KIND_BYTE v (kind + REB_64 * (d1 + q))).
    assert (Hk1 : KIND_BYTE v1 = kind + REB_64 * (d1 + q)) by reflexivity.
    assert (Hb1 : 0 <= KIND_BYTE v1 < 256)
      by (rewrite Hk1; unfold REB_64 in *; lia).
    assert (Hq1 : KIND_BYTE v1 / REB_64 = d1 + q).
    { rewrite Hk1. unfold REB_64 in *.
      rewrite (Z.mul_comm 64), Z.div_add, Z.div_small by lia. lia. }
    assert (Hm1 : KIND_BYTE v1 mod REB_64 = kind).
    { rewrite Hk1. unfold REB_64 in *.
      rewrite (Z.mul_comm 64), Z.mod_add by lia. apply Z.mod_small. lia. }
    assert (Hne1 : KIND_BYTE v1 <> REB_QUOTED).
    { rewrite Hk1. unfold REB_64 in *.
      destruct (Z.eq_dec (d1 + q) 0) as [E0|N0]; [|lia].
      rewrite E0, Z.mul_0_r, Z.add_0_r. unfold kind.
      assert (q = 0) by lia. subst q.
      intros E. apply Hk. lia. }
    assert (Ht2 : to_REBCNT (d2 + KIND_BYTE v1 / REB_64) = d1 + d2 + q).
    { rewrite Hq1. rewrite <- Ht. f_equal. lia. }
    destruct (Z.le_gt_cases (d1 + d2 + q) 3) as [Hle|Hgt].
    + rewrite (Quotify_Core_in_tag v1 d2); [|assumption..|lia].
      rewrite (Quotify_Core_in_tag v (d1 + d2));
        [|assumption..|fold q; lia].
      fold q kind. rewrite Ht2, Hm1, Ht. reflexivity.
    + rewrite (Quotify_Core_deep v1 d2); [|assumption|lia].
      rewrite (Quotify_Core_deep v (d1 + d2)); [|assumption|fold q; lia].
      fold q. rewrite Ht2, Ht.
      assert (He : escaped_cell v1 = escaped_cell v)
        by (apply escaped_cell_set_KIND_BYTE; exact Hm1).
      rewrite He. reflexivity.
  - (* the first step allocates, the second adds to the count *)
    assert (Hgt : 3 < d1 + d2 + q) by lia.
    rewrite (Quotify_Core_deep v d1); [|assumption|fold q; lia].
    rewrite (Quotify_Core_deep v (d1 + d2)); [|assumption|fold q; lia].
    fold q. rewrite Ht1, Ht. cbn [mbind option_bind].
    rewrite Quotify_Core_shared; [|reflexivity|cbn; lia].
    cbn [set_depth set_payload set_extra payload_first payload_second
         KIND_BYTE header_flags extra].
    replace (d1 + q + d2) with (d1 + d2 + q) by lia.
    now rewrite Ht.
Qed.

(** X7. The unescaped cell of a quoted value.  After [Quotify_Core], at
    any depth, [VAL_UNESCAPED] finds a cell with the base kind of the
    original (its kind byte modulo 64), its extra and its payload: the
    cell itself while the levels are in the kind byte, the cell of the
    singular array above three. *)
Theorem VAL_UNESCAPED_after_Quotify v d h :
  0 < REB_QUOTED < REB_64 ->
  0 <= KIND_BYTE v < 256 ->
  KIND_BYTE v mod REB_64 <> REB_QUOTED ->
  0 <= d -> d + KIND_BYTE v / REB_64 < 2 ^ 32 ->
  exists v1 h1 c,
    Quotify_Core v d h = Some (v1, h1)
    /\ VAL_UNESCAPED v1 h1 = Some c
    /\ (c = v1 <-> d + KIND_BYTE v / REB_64 <= 3)
    /\ KIND_BYTE c mod REB_64 = KIND_BYTE v mod REB_64
    /\ extra c = extra v
    /\ payload_first c = payload_first v
    /\ payload_second c = payload_second v.
Proof.
  intros HQ Hb Hbase Hd Hsum.
  destruct (kind_byte_split _ Hb) as [Hm Hq].
  assert (Hk : KIND_BYTE v <> REB_QUOTED).
  { intros E. apply Hbase. rewrite E. unfold REB_64 in *.
    apply Z.mod_small. lia. }
  destruct (escaped_cell_fields v) as (Ek & Ee & Ep1 & Ep2).
  set (total := d + KIND_BYTE v / REB_64) in *.
  assert (Ht : to_REBCNT total = total) by (apply to_REBCNT_small; lia).
  destruct (Z.le_gt_cases total 3) as [Hle|Hgt].
  - rewrite Quotify_Core_in_tag; [|assumption..|fold total; lia].
    fold total. rewrite Ht.
    do 3 eexists. split; [reflexivity|].
    unfold VAL_UNESCAPED. cbn [KIND_BYTE set_KIND_BYTE].
    unfold REB_64 in *.
    assert (Hne : KIND_BYTE v mod 64 + 64 * total <> REB_QUOTED) by lia.
    rewrite (proj2 (Z.eqb_neq _ _) Hne). cbn [negb].
    split; [reflexivity|]. split; [tauto|].
    cbn [KIND_BYTE set_KIND_BYTE extra payload_first payload_second].
    rewrite (Z.mul_comm 64 total), Z.mod_add, Z.mod_mod by lia.
    repeat split.
  - rewrite Quotify_Core_deep; [|assumption|fold total; lia].
    fold total. rewrite Ht.
    do 3 eexists. split; [reflexivity|].
    unfold VAL_UNESCAPED.
    cbn [KIND_BYTE set_payload set_extra RESET_VAL_HEADER set_header_flags
         set_KIND_BYTE payload_first payload_second].
    rewrite (Z.eqb_refl REB_QUOTED). cbn [negb]. rewrite lookup_fresh.
    split; [reflexivity|]. split.
    + split; [|lia]. intros E. exfalso.
      apply (f_equal KIND_BYTE) in E. rewrite Ek in E. cbn in E.
      now apply Hbase.
    + rewrite Ek, Ee, Ep1, Ep2. unfold REB_64. rewrite Z.mod_mod by lia.
      repeat split.
Qed.

(** X8. Unquoting by more levels than a cell has.  In the debug build
    [Unquotify_Core] by a count above the number of quotes of the cell
    stops on an assertion, whether the levels are in the kind byte or in
    a singular array, and also for a cell that is not quoted at all. *)
Theorem Unquotify_Core_too_many v unquotes h n :
  NDEBUG = false ->
  0 < REB_QUOTED < REB_64 ->
  VAL_NUM_QUOTES v = Some n ->
  0 < unquotes -> n < unquotes ->
  Unquotify_Core v unquotes h = None.
Proof.
  intros Hdebug HQ Hn Hpos Hlt.
  unfold Unquotify_Core.
  rewrite (proj2 (Z.eqb_neq unquotes 0)) by lia.
  unfold VAL_NUM_QUOTES, IS_QUOTED, VAL_TYPE, VAL_QUOTED_DEPTH in Hn.
  unfold Unquotify_In_Situ, assert in *. rewrite Hdebug in *.
  unfold REB_64 in *. cbn [orb] in *.
  destruct (Z.eqb_spec (KIND_BYTE v) REB_QUOTED) as [E|N]; cbn [negb].
  - rewrite E in Hn.
    rewrite (proj2 (Z.leb_gt 64 REB_QUOTED)) in Hn by lia.
    rewrite Z.eqb_refl in Hn. cbn in Hn. injection Hn as <-.
    rewrite (proj2 (Z.leb_gt unquotes (payload_second v))) by lia.
    now rewrite andb_false_r.
  - destruct (Z.leb_spec 64 (KIND_BYTE v)) as [Hge|Hsmall];
      [|reflexivity].
    rewrite Z.eqb_refl in Hn. cbn in Hn. injection Hn as <-.
    cbn [mbind option_bind].
    now rewrite (proj2 (Z.leb_gt unquotes (KIND_BYTE v / 64))) by lia.
Qed.

End Facts.

(** *** The sample, run *)

Section Sample.

#[local] Existing Instance sample.

(** Four quote levels on the date and four off again: the date is gone. *)
Example date_cell_quote_unquote_4 :
  quote_unquote date_cell 4 []
  = Some (mkCell sample_REB_DATE (2 ^ 31 + 2 ^ 24) 0 43200 0).
Proof. reflexivity. Qed.

Example date_cell_quote_unquote_100 :
  quote_unquote date_cell 100 []
  = Some (mkCell sample_REB_DATE (2 ^ 31 + 2 ^ 24) 0 43200 0).
Proof. reflexivity. Qed.

(** Three levels stay in the kind byte and come back exactly. *)
Example date_cell_quote_unquote_3 :
  quote_unquote date_cell 3 [] = Some date_cell.
Proof. reflexivity. Qed.

Lemma quote_unquote_unbindable_loses_extra_witness :
  exists r,
    quote_unquote date_cell 4 [] = Some r
    /\ KIND_BYTE r = KIND_BYTE date_cell
    /\ payload_first r = payload_first date_cell
    /\ payload_second r = payload_second date_cell
    /\ extra r = nullptr
    /\ (extra date_cell <> nullptr -> r <> date_cell).
Proof.
  apply quote_unquote_unbindable_loses_extra.
  - cbn. unfold REB_64. lia.
  - cbn. discriminate.
  - cbn. unfold sample_REB_DATE. lia.
  - reflexivity.
  - lia.
  - reflexivity.
  - reflexivity.
  - reflexivity.
Defined.

Lemma Quotify_allocation_boundary_witness :
  Quotify_Core date_cell 3 []
  = Some (mkCell (sample_REB_DATE + 64 * 3) (2 ^ 31 + 2 ^ 24) 20190704
            43200 0, [])
  /\ (exists v',
        Quotify_Core date_cell 4 []
        = Some (v', [mkCell 30 (2 ^ 31 + 2 ^ 24 + 2 ^ 15) 20190704 43200 0])
        /\ KIND_BYTE v' = REB_QUOTED
        /\ payload_first v' = 0
        /\ payload_second v' = 4)
  /\ Quotify_Core deep_cell 7 [date_cell]
     = Some (mkCell REB_QUOTED (2 ^ 31 + 2 ^ 24) 0 0 12, [date_cell]).
Proof.
  assert (Hd : 0 <= KIND_BYTE date_cell < 256)
    by (cbn; unfold sample_REB_DATE; lia).
  assert (Hq : 0 <= KIND_BYTE deep_cell < 256) by (cbn; lia).
  split; [|split].
  - apply (Quotify_allocation_boundary date_cell 3 [] Hd).
    + cbn. discriminate.
    + vm_compute. discriminate.
  - destruct (Quotify_allocation_boundary date_cell 4 [] Hd)
      as (_ & H & _).
    destruct H as (v' & E & K & P1 & P2 & _).
    + cbn. discriminate.
    + reflexivity.
    + exists v'. repeat split; assumption.
  - apply (Quotify_allocation_boundary deep_cell 7 [date_cell] Hq).
    + reflexivity.
    + reflexivity.
Defined.

(** The sample satisfies what the theorems ask of the numbering. *)
Lemma sample_REB_QUOTED_range : 0 < REB_QUOTED < REB_64.
Proof. cbn. unfold REB_64. lia. Defined.

Lemma date_cell_byte : 0 <= KIND_BYTE date_cell < 256.
Proof. cbn. unfold sample_REB_DATE. lia. Defined.

Lemma word_cell_byte : 0 <= KIND_BYTE word_cell < 256.
Proof. cbn. lia. Defined.

Lemma quote_unquote_in_tag_witness :
  quote_unquote date_cell 3 [] = Some date_cell.
Proof.
  apply quote_unquote_in_tag.
  - exact sample_REB_QUOTED_range.
  - cbn. discriminate.
  - exact date_cell_byte.
  - reflexivity.
  - lia.
  - vm_compute. discriminate.
Defined.

Lemma quote_unquote_shared_witness :
  quote_unquote deep_cell 7 [date_cell] = Some deep_cell.
Proof.
  apply (quote_unquote_shared deep_cell 7 [date_cell] date_cell).
  - reflexivity.
  - reflexivity.
  - lia.
  - reflexivity.
  - reflexivity.
  - reflexivity.
Defined.

(** Five levels on the word and five off again: the word is back, with
    its binding. *)
Lemma quote_unquote_bindable_restores_witness :
  quote_unquote word_cell 5 [] = Some word_cell.
Proof.
  destruct (quote_unquote_bindable_restores word_cell 5 []) as [_ H].
  - exact sample_REB_QUOTED_range.
  - cbn. discriminate.
  - exact word_cell_byte.
  - reflexivity.
  - lia.
  - reflexivity.
  - reflexivity.
  - reflexivity.
  - apply H. reflexivity.
Defined.

(** Four levels on the date, then [Dequotify]: the date is still there. *)
Lemma Quotify_Dequotify_witness :
  exists r,
    ('(v1, h1) ← Quotify_Core date_cell 4 []; Dequotify v1 h1)
    = Some (4, r)
    /\ KIND_BYTE r = sample_REB_DATE
    /\ extra r = 20190704
    /\ payload_first r = 43200
    /\ payload_second r = 0.
Proof.
  apply (Quotify_Dequotify date_cell 4 []).
  - exact sample_REB_QUOTED_range.
  - exact date_cell_byte.
  - cbn. discriminate.
  - lia.
  - reflexivity.
Defined.

Lemma Quotify_Core_adds_depth_witness :
  exists v' h',
    Quotify_Core date_cell 2 [] = Some (v', h')
    /\ VAL_NUM_QUOTES v' = Some 2.
Proof.
  apply (Quotify_Core_adds_depth date_cell 2 [] 0).
  - exact sample_REB_QUOTED_range.
  - exact date_cell_byte.
  - left. cbn. discriminate.
  - cbn. discriminate.
  - reflexivity.
Defined.

Lemma Quotify_Core_twice_witness :
  ('(v1, h1) ← Quotify_Core date_cell 2 []; Quotify_Core v1 3 h1)
  = Quotify_Core date_cell 5 [].
Proof.
  apply (Quotify_Core_twice date_cell 2 3 []).
  - exact sample_REB_QUOTED_range.
  - cbn. discriminate.
  - exact date_cell_byte.
  - lia.
  - lia.
  - reflexivity.
Defined.

Lemma VAL_UNESCAPED_after_Quotify_witness :
  exists v1 h1 c,
    Quotify_Core date_cell 4 [] = Some (v1, h1)
    /\ VAL_UNESCAPED v1 h1 = Some c
    /\ (c = v1 <-> 4 + KIND_BYTE date_cell / REB_64 <= 3)
    /\ KIND_BYTE c mod REB_64 = KIND_BYTE date_cell mod REB_64
    /\ extra c = 20190704
    /\ payload_first c = 43200
    /\ payload_second c = 0.
Proof.
  apply (VAL_UNESCAPED_after_Quotify date_cell 4 []).
  - exact sample_REB_QUOTED_range.
  - exact date_cell_byte.
  - cbn. discriminate.
  - lia.
  - reflexivity.
Defined.

(** The date has no quote level to take off. *)
Lemma Unquotify_Core_too_many_witness :
  Unquotify_Core date_cell 1 [] = None.
Proof.
  apply (Unquotify_Core_too_many date_cell 1 [] 0).
  - reflexivity.
  - exact sample_REB_QUOTED_range.
  - reflexivity.
  - lia.
  - lia.
Defined.

End Sample.

End Quoted.

(** ** %t-object.c *)

Module Context.

(** The kinds of ANY-CONTEXT!. *)
Inductive Reb_Kind :=
| REB_OBJECT | REB_MODULE | REB_ERROR | REB_FRAME | REB_PORT.

Definition Reb_Kind_eqb (a b : Reb_Kind) : bool :=
  match a, b with
  | REB_OBJECT, REB_OBJECT | REB_MODULE, REB_MODULE | REB_ERROR, REB_ERROR
  | REB_FRAME, REB_FRAME | REB_PORT, REB_PORT => true
  | _, _ => false
  end.

(** The cells that the code looks into: a few kinds, and context values
    (kind and the address of the varlist, which is the [REBCTX*]). *)
Inductive REBVAL :=
| Nulled
| Blank
| Integer (i : Z)
| Word (canon : nat)
| Block (array : nat)
| Any_Context (kind : Reb_Kind) (varlist : nat).

(** A key of a keylist: [VAL_KEY_CANON] is the address of the canon form of
    its spelling (spellings that differ by case only share it), and
    [Is_Param_Hidden] its hidden bit. *)
Record Key := mkKey {
  VAL_KEY_CANON : nat;
  Is_Param_Hidden : bool
}.

(** A context behind a [REBCTX*]: keylist and varlist are arrays of equal
    length that the code walks in step ([key1++, var1++]), here from
    [CTX_KEYS_HEAD] / [CTX_VARS_HEAD] on as one list of slots; and whether
    the varlist is read-only. *)
Record Ctx := mkCtx {
  CTX_SLOTS : list (Key * REBVAL);
  ctx_read_only : bool
}.

(** The contexts whose data is accessible, by address. *)
Abbreviation Store := (gmap nat Ctx).

Inductive Verb :=
| SYM_REFLECT | SYM_APPEND | SYM_COPY | SYM_SELECT | SYM_FIND | SYM_OTHER.

Inductive Error :=
| Error_Series_Data_Freed
| Error_Read_Only
| Error_Illegal_Action (kind : Reb_Kind) (verb : Verb)
| Error_Other (code : nat).

(** What a type dispatcher hands back. *)
Inductive REB_R :=
| R_UNHANDLED
| R_OUT (out : REBVAL)
| R_NULL.

Definition IS_NULLED_OR_BLANK (v : REBVAL) : bool :=
  match v with
  | Nulled | Blank => true
  | _ => false
  end.

Definition IS_OBJECT (k : Reb_Kind) : bool := Reb_Kind_eqb k REB_OBJECT.
Definition IS_MODULE (k : Reb_Kind) : bool := Reb_Kind_eqb k REB_MODULE.

(** Modelled from the spec: [VAL_CONTEXT] of %sys-context.h, "dereferencing
    an action or context whose backing series has been marked inaccessible
    fails with StaleReference". *)
Definition VAL_CONTEXT (st : Store) (varlist : nat) : Result Error nat :=
  match st !! varlist with
  | Some _ => Return varlist
  | None => Fail Error_Series_Data_Freed
  end.

Definition slots_of (st : Store) (c : nat) : list (Key * REBVAL) :=
  match st !! c with
  | Some x => CTX_SLOTS x
  | None => []
  end.

(** Modelled from the spec: [FAIL_IF_READ_ONLY_CONTEXT], a macro of
    %sys-series.h, "fails on a read-only context". *)
Definition FAIL_IF_READ_ONLY_CONTEXT (st : Store) (c : nat)
  : Result Error unit :=
  match st !! c with
  | Some x => if ctx_read_only x then Fail Error_Read_Only else Return tt
  | None => Return tt
  end.

Section Definitions.

(** [Cmp_Value] of %f-series.c, the generic comparison. *)
Variable Cmp_Value : REBVAL -> REBVAL -> bool -> Z.

(** The two loops that follow the main loop of [Equal_Context]: whatever
    is left on either side has to be hidden. *)
Definition trailing_hidden (l1 l2 : list (Key * REBVAL)) : bool :=
  forallb (fun s => Is_Param_Hidden (fst s)) l1
  && forallb (fun s => Is_Param_Hidden (fst s)) l2.

(** The main loop of [Equal_Context], from the label [no_advance]; [l1] and
    [l2] are what [key1]/[var1] and [key2]/[var2] have ahead of them.  A
    hidden key is stepped over on its own side ([goto no_advance], or
    [break] at the end of that side); two visible keys are compared and
    both sides step. *)
Fixpoint Equal_walk (l1 l2 : list (Key * REBVAL)) {struct l1} : bool :=
  match l1 with
  | [] => trailing_hidden [] l2
  | (key1, var1) :: r1 =>
      (fix on_key2 (l2 : list (Key * REBVAL)) : bool :=
         match l2 with
         | [] => trailing_hidden l1 []
         | (key2, var2) :: r2 =>
             if Is_Param_Hidden key1 then Equal_walk r1 l2
             else if Is_Param_Hidden key2 then on_key2 r2
             else if negb (VAL_KEY_CANON key1 =? VAL_KEY_CANON key2)%nat
                  then false
             else if negb (Cmp_Value var1 var2 false =? 0) then false
             else Equal_walk r1 r2
         end) l2
  end.

(** [Equal_Context] on the cells [v1 = Any_Context k1 varlist1] and
    [v2 = Any_Context k2 varlist2]. *)
Definition Equal_Context (st : Store) (k1 : Reb_Kind) (varlist1 : nat)
    (k2 : Reb_Kind) (varlist2 : nat) : Result Error bool :=
  if negb (Reb_Kind_eqb k1 k2) then Return false
  else
    c1 ← VAL_CONTEXT st varlist1;
    c2 ← VAL_CONTEXT st varlist2;
    if (c1 =? c2)%nat then Return true
    else Return (Equal_walk (slots_of st c1) (slots_of st c2)).

(** [CT_Context], the comparison hook of the context kinds. *)
Definition CT_Context (st : Store) (ka : Reb_Kind) (a : nat)
    (kb : Reb_Kind) (b : nat) (mode : Z) : Result Error Z :=
  if mode <? 0 then Return (-1)
  else
    eq ← Equal_Context st ka a kb b;
    Return (if eq : bool then 1 else 0).

(** The equality that the specification words: the visible slots of the
    two contexts, in order, agree pairwise on the canon of the key and
    compare equal without regard to case. *)
Definition visible (l : list (Key * REBVAL)) : list (Key * REBVAL) :=
  List.filter (fun s => negb (Is_Param_Hidden (fst s))) l.

Definition same_slot (s1 s2 : Key * REBVAL) : bool :=
  (VAL_KEY_CANON (fst s1) =? VAL_KEY_CANON (fst s2))%nat
  && (Cmp_Value (snd s1) (snd s2) false =? 0).

Fixpoint pairwise (l1 l2 : list (Key * REBVAL)) : bool :=
  match l1, l2 with
  | [], [] => true
  | s1 :: r1, s2 :: r2 => same_slot s1 s2 && pairwise r1 r2
  | _, _ => false
  end.

Definition visible_slots_match (l1 l2 : list (Key * REBVAL)) : bool :=
  pairwise (visible l1) (visible l2).

(** [Append_To_Context], whose collector and binder (%c-bind.c) are not
    part of this development: what it leaves in the store, and whether it
    failed. *)
Variable Append_To_Context : Store -> nat -> REBVAL -> Store * Result Error unit.

(** The property switch of [Context_Common_Action_Maybe_Unhandled] and the
    cases of [REBTYPE(Context)] other than APPEND, which build their
    results with routines of the core. *)
Variable Common_Reflect : Store -> nat -> REBVAL -> Result Error REB_R.
Variable Other_Verb :
  Verb -> Store -> Reb_Kind -> nat -> REBVAL -> Store * Result Error REB_R.

Definition Context_Common_Action_Maybe_Unhandled (st : Store)
    (varlist : nat) (arg : REBVAL) (verb : Verb) : Result Error REB_R :=
  c ← VAL_CONTEXT st varlist;
  match verb with
  | SYM_REFLECT => Common_Reflect st c arg
  | _ => Return R_UNHANDLED
  end.

(** [REBTYPE(Context)] on [value = Any_Context kind varlist]. *)
Definition T_Context (st : Store) (kind : Reb_Kind) (varlist : nat)
    (arg : REBVAL) (verb : Verb) : Store * Result Error REB_R :=
  match Context_Common_Action_Maybe_Unhandled st varlist arg verb with
  | Fail e => (st, Fail e)
  | Return (R_OUT out) => (st, Return (R_OUT out))
  | Return R_NULL => (st, Return R_NULL)
  | Return R_UNHANDLED =>
      match VAL_CONTEXT st varlist with
      | Fail e => (st, Fail e)
      | Return c =>
          match verb with
          | SYM_APPEND =>
              if IS_NULLED_OR_BLANK arg then
                (* don't fail on read only if it would be a no-op *)
                (st, Return (R_OUT (Any_Context kind varlist)))
              else
                match FAIL_IF_READ_ONLY_CONTEXT st c with
                | Fail e => (st, Fail e)
                | Return _ =>
                    if negb (IS_OBJECT kind) && negb (IS_MODULE kind) then
                      (st, Fail (Error_Illegal_Action kind verb))
                    else
                      match Append_To_Context st c arg with
                      | (st', Fail e) => (st', Fail e)
                      | (st', Return _) =>
                          (st', Return (R_OUT (Any_Context kind varlist)))
                      end
                end
          | _ => Other_Verb verb st kind c arg
          end
      end
  end.

End Definitions.

(** *** Sample contexts, to run the code *)

(** Integers are compared by value; the sample needs no other kind. *)
Definition sample_Cmp_Value (a b : REBVAL) (is_case : bool) : Z :=
  match a, b with
  | Integer x, Integer y =>
      match x ?= y with Lt => -1 | Eq => 0 | Gt => 1 end
  | _, _ => 1
  end.

Definition key_self : Key := mkKey 0 true.
Definition key_a : Key := mkKey 10 false.
Definition key_b : Key := mkKey 11 false.

(** [make object! [a: 1 b: 2]], [make object! [b: 1 a: 2]], a copy of the
    first (other varlist, same keys, moved values), a protected object and
    an error; the objects with the hidden SELF in front. *)
Definition obj_ab : Ctx :=
  mkCtx [(key_self, Any_Context REB_OBJECT 1);
         (key_a, Integer 1); (key_b, Integer 2)] false.

Definition obj_ba : Ctx :=
  mkCtx [(key_self, Any_Context REB_OBJECT 2);
         (key_b, Integer 1); (key_a, Integer 2)] false.

Definition obj_locked : Ctx :=
  mkCtx [(key_self, Any_Context REB_OBJECT 4); (key_a, Integer 1)] true.

Definition err_ctx : Ctx := mkCtx [(key_a, Integer 1)] false.

Definition sample_store : Store :=
  <[1%nat := obj_ab]> (<[2%nat := obj_ba]> (<[3%nat := obj_ab]>
    (<[4%nat := obj_locked]> (<[5%nat := err_ctx]> ∅)))).

(** The sample store with one more copy of the first object. *)
Definition copies_store : Store := <[6%nat := obj_ab]> sample_store.

Definition sample_Append_To_Context (st : Store) (c : nat) (arg : REBVAL)
  : Store * Result Error unit :=
  (st, Return tt).

Definition sample_Common_Reflect (st : Store) (c : nat) (arg : REBVAL)
  : Result Error REB_R :=
  Return R_UNHANDLED.

Definition sample_Other_Verb (verb : Verb) (st : Store) (kind : Reb_Kind)
    (c : nat) (arg : REBVAL) : Store * Result Error REB_R :=
  (st, Fail (Error_Illegal_Action kind verb)).

Section Facts.

Variable Cmp_Value : REBVAL -> REBVAL -> bool -> Z.
Variable Append_To_Context : Store -> nat -> REBVAL -> Store * Result Error unit.
Variable Common_Reflect : Store -> nat -> REBVAL -> Result Error REB_R.
Variable Other_Verb :
  Verb -> Store -> Reb_Kind -> nat -> REBVAL -> Store * Result Error REB_R.

Lemma Reb_Kind_eqb_eq a b : Reb_Kind_eqb a b = true <-> a = b.
Proof. destruct a, b; cbn; split; intros E; congruence. Qed.

Lemma Reb_Kind_eqb_refl a : Reb_Kind_eqb a a = true.
Proof. now apply Reb_Kind_eqb_eq. Qed.

Lemma Reb_Kind_eqb_neq a b : a <> b -> Reb_Kind_eqb a b = false.
Proof.
  intros N. destruct (Reb_Kind_eqb a b) eqn:E; [|reflexivity].
  now apply Reb_Kind_eqb_eq in E.
Qed.

(** All hidden: no visible slot. *)
Lemma all_hidden_visible l :
  forallb (fun s => Is_Param_Hidden (fst s)) l
  = match visible l with [] => true | _ :: _ => false end.
Proof.
  induction l as [|[k v] r IH]; cbn; [reflexivity|].
  destruct (Is_Param_Hidden k); cbn; [exact IH|reflexivity].
Qed.

Lemma pairwise_nil_r l :
  pairwise Cmp_Value l []
  = match l with [] => true | _ :: _ => false end.
Proof. now destruct l. Qed.

Lemma Equal_walk_cons_l key1 var1 r1 l2 :
  Equal_walk Cmp_Value ((key1, var1) :: r1) l2
  = match l2 with
    | [] => trailing_hidden ((key1, var1) :: r1) []
    | (key2, var2) :: r2 =>
        if Is_Param_Hidden key1 then Equal_walk Cmp_Value r1 l2
        else if Is_Param_Hidden key2
             then Equal_walk Cmp_Value ((key1, var1) :: r1) r2
        else if negb (VAL_KEY_CANON key1 =? VAL_KEY_CANON key2)%nat
             then false
        else if negb (Cmp_Value var1 var2 false =? 0) then false
        else Equal_walk Cmp_Value r1 r2
    end.
Proof. destruct l2 as [|[key2 var2] r2]; reflexivity. Qed.

(** The walk of the code decides the equality of the visible slots. *)
Lemma Equal_walk_visible l1 :
  forall l2,
    Equal_walk Cmp_Value l1 l2 = visible_slots_match Cmp_Value l1 l2.
Proof.
  unfold visible_slots_match.
  induction l1 as [|[key1 var1] r1 IH1]; intros l2.
  - cbn [Equal_walk visible List.filter trailing_hidden forallb andb].
    rewrite all_hidden_visible. now destruct (visible l2).
  - induction l2 as [|[key2 var2] r2 IH2].
    + rewrite Equal_walk_cons_l. unfold trailing_hidden.
      rewrite all_hidden_visible. cbn [forallb]. rewrite andb_true_r.
      cbn [visible List.filter]. now rewrite pairwise_nil_r.
    + rewrite Equal_walk_cons_l.
      destruct (Is_Param_Hidden key1) eqn:H1.
      { rewrite IH1. cbn [visible List.filter fst]. rewrite H1. reflexivity. }
      destruct (Is_Param_Hidden key2) eqn:H2.
      { rewrite IH2. cbn [visible List.filter fst]. rewrite H1, H2.
        reflexivity. }
      cbn [visible List.filter fst]. rewrite H1, H2.
      cbn [negb pairwise]. unfold same_slot. cbn [fst snd].
      destruct (VAL_KEY_CANON key1 =? VAL_KEY_CANON key2)%nat; cbn;
        [|reflexivity].
      destruct (Cmp_Value var1 var2 false =? 0); cbn; [|reflexivity].
      apply IH1.
Qed.

Lemma pairwise_refl l :
  (forall s, In s l -> Cmp_Value (snd s) (snd s) false = 0) ->
  pairwise Cmp_Value l l = true.
Proof.
  induction l as [|s r IH]; intros Hc; [reflexivity|].
  cbn [pairwise]. unfold same_slot.
  rewrite Nat.eqb_refl, (Hc s (or_introl eq_refl)). cbn.
  apply IH. intros s' Hs'. apply Hc. now right.
Qed.

Lemma VAL_CONTEXT_live (st : Store) p c :
  st !! p = Some c -> VAL_CONTEXT st p = Return p.
Proof. intros E. unfold VAL_CONTEXT. now rewrite E. Qed.

(** C3. Context equality is positional and skips hidden keys.  Contexts of
    different kinds are not equal; a context is equal to itself (same
    varlist); two contexts behind different varlists are equal exactly when
    their visible slots, taken in order, agree pairwise on the canon of the
    key and compare equal without regard to case, so that a visible
    mismatch, or a visible slot left over on either side, makes them
    unequal.  In particular an object with visible slots a, b is not equal
    to one with visible slots b, a, and an object is equal to a copy of it
    (same slots behind another varlist) whose values compare equal to
    themselves.  [CT_Context] gives 1 or 0 accordingly, and -1 for a
    negative mode. *)
Theorem Equal_Context_positional (st : Store) k1 p1 k2 p2 :
  (k1 <> k2 -> Equal_Context Cmp_Value st k1 p1 k2 p2 = Return false)
  /\ (forall c1 c2,
        k1 = k2 -> st !! p1 = Some c1 -> st !! p2 = Some c2 ->
        (p1 = p2 -> Equal_Context Cmp_Value st k1 p1 k2 p2 = Return true)
        /\ (p1 <> p2 ->
            Equal_Context Cmp_Value st k1 p1 k2 p2
            = Return (visible_slots_match Cmp_Value
                        (CTX_SLOTS c1) (CTX_SLOTS c2)))
        /\ (forall ka kb x1 x2 y1 y2,
              visible (CTX_SLOTS c1) = [(ka, x1); (kb, x2)] ->
              visible (CTX_SLOTS c2) = [(kb, y1); (ka, y2)] ->
              VAL_KEY_CANON ka <> VAL_KEY_CANON kb ->
              Equal_Context Cmp_Value st k1 p1 k2 p2 = Return false)
        /\ (CTX_SLOTS c2 = CTX_SLOTS c1 ->
            (forall s, In s (visible (CTX_SLOTS c1)) ->
                       Cmp_Value (snd s) (snd s) false = 0) ->
            Equal_Context Cmp_Value st k1 p1 k2 p2 = Return true))
  /\ (forall mode,
        CT_Context Cmp_Value st k1 p1 k2 p2 mode
        = if mode <? 0 then Return (-1)
          else match Equal_Context Cmp_Value st k1 p1 k2 p2 with
               | Return true => Return 1
               | Return false => Return 0
               | Fail e => Fail e
               end).
Proof.
  split; [|split].
  - intros Hk. unfold Equal_Context.
    now rewrite (Reb_Kind_eqb_neq _ _ Hk).
  - intros c1 c2 -> E1 E2.
    assert (Hsame : p1 = p2 ->
                    Equal_Context Cmp_Value st k2 p1 k2 p2 = Return true).
    { intros ->. unfold Equal_Context.
      rewrite Reb_Kind_eqb_refl, (VAL_CONTEXT_live _ _ _ E2).
      cbn. now rewrite Nat.eqb_refl. }
    assert (Hdiff : p1 <> p2 ->
                    Equal_Context Cmp_Value st k2 p1 k2 p2
                    = Return (visible_slots_match Cmp_Value
                                (CTX_SLOTS c1) (CTX_SLOTS c2))).
    { intros N. unfold Equal_Context.
      rewrite Reb_Kind_eqb_refl, (VAL_CONTEXT_live _ _ _ E1),
        (VAL_CONTEXT_live _ _ _ E2).
      cbn. rewrite (proj2 (Nat.eqb_neq p1 p2) N).
      unfold slots_of. rewrite E1, E2. now rewrite Equal_walk_visible. }
    repeat split; [exact Hsame|exact Hdiff| |].
    + intros ka kb x1 x2 y1 y2 V1 V2 Hc.
      destruct (Nat.eq_dec p1 p2) as [->|N].
      { rewrite E1 in E2. injection E2 as ->. rewrite V1 in V2.
        injection V2 as -> _ _ _. now contradiction Hc. }
      rewrite (Hdiff N). unfold visible_slots_match. rewrite V1, V2.
      cbn [pairwise]. unfold same_slot at 1. cbn [fst snd].
      now rewrite (proj2 (Nat.eqb_neq _ _) Hc).
    + intros Es Hc.
      destruct (Nat.eq_dec p1 p2) as [E|N]; [now apply Hsame|].
      rewrite (Hdiff N). unfold visible_slots_match. rewrite Es.
      now rewrite pairwise_refl.
  - intros mode. unfold CT_Context.
    destruct (mode <? 0); [reflexivity|].
    now destruct (Equal_Context Cmp_Value st k1 p1 k2 p2) as [[|]|e].
Qed.

(** C7. APPEND to a context.  With a null or blank argument APPEND hands
    the context back and leaves the store as it is, read-only or not; with
    any other argument it fails on a read-only context; past that check a
    context that is neither an object nor a module fails as an illegal
    action; and only an object or module that is not read-only reaches
    [Append_To_Context]. *)
Theorem Context_append_read_only (st : Store) kind p arg c :
  st !! p = Some c ->
  let APPEND :=
    T_Context Append_To_Context Common_Reflect Other_Verb
      st kind p arg SYM_APPEND in
  (IS_NULLED_OR_BLANK arg = true ->
     APPEND = (st, Return (R_OUT (Any_Context kind p))))
  /\ (IS_NULLED_OR_BLANK arg = false -> ctx_read_only c = true ->
      APPEND = (st, Fail Error_Read_Only))
  /\ (IS_NULLED_OR_BLANK arg = false -> ctx_read_only c = false ->
      kind <> REB_OBJECT -> kind <> REB_MODULE ->
      APPEND = (st, Fail (Error_Illegal_Action kind SYM_APPEND)))
  /\ (IS_NULLED_OR_BLANK arg = false -> ctx_read_only c = false ->
      kind = REB_OBJECT \/ kind = REB_MODULE ->
      APPEND
      = match Append_To_Context st p arg with
        | (st', Fail e) => (st', Fail e)
        | (st', Return _) => (st', Return (R_OUT (Any_Context kind p)))
        end).
Proof.
  intros E APPEND. subst APPEND.
  unfold T_Context, Context_Common_Action_Maybe_Unhandled.
  rewrite (VAL_CONTEXT_live _ _ _ E). cbn [mbind Result_bind].
  unfold FAIL_IF_READ_ONLY_CONTEXT. rewrite E.
  repeat split.
  - intros ->. reflexivity.
  - intros -> ->. reflexivity.
  - intros -> -> N1 N2. unfold IS_OBJECT, IS_MODULE.
    now rewrite (Reb_Kind_eqb_neq _ _ N1), (Reb_Kind_eqb_neq _ _ N2).
  - intros -> -> [-> | ->]; reflexivity.
Qed.

(** *** Equality of contexts as a relation *)

Lemma pairwise_sym l1 :
  (forall a b, Cmp_Value a b false = 0 <-> Cmp_Value b a false = 0) ->
  forall l2, pairwise Cmp_Value l1 l2 = pairwise Cmp_Value l2 l1.
Proof.
  intros Hs. induction l1 as [|s1 r1 IH]; intros [|s2 r2];
    cbn [pairwise]; try reflexivity.
  rewrite IH. f_equal. unfold same_slot.
  rewrite (Nat.eqb_sym (VAL_KEY_CANON (fst s1))). f_equal.
  destruct (Z.eqb_spec (Cmp_Value (snd s1) (snd s2) false) 0) as [E|N],
    (Z.eqb_spec (Cmp_Value (snd s2) (snd s1) false) 0) as [E'|N'];
    try reflexivity.
  - now apply Hs in E.
  - now apply Hs in E'.
Qed.

Lemma pairwise_trans l1 :
  (forall a b c, Cmp_Value a b false = 0 -> Cmp_Value b c false = 0 ->
                 Cmp_Value a c false = 0) ->
  forall l2 l3,
    pairwise Cmp_Value l1 l2 = true -> pairwise Cmp_Value l2 l3 = true ->
    pairwise Cmp_Value l1 l3 = true.
Proof.
  intros Ht. induction l1 as [|s1 r1 IH]; intros [|s2 r2] [|s3 r3];
    cbn [pairwise]; try discriminate; try reflexivity.
  intros H12 H23.
  apply andb_true_iff in H12 as [S12 R12].
  apply andb_true_iff in H23 as [S23 R23].
  apply andb_true_iff. split; [|now apply (IH r2)].
  unfold same_slot in *.
  apply andb_true_iff in S12 as [K12 C12].
  apply andb_true_iff in S23 as [K23 C23].
  apply Nat.eqb_eq in K12, K23. apply Z.eqb_eq in C12, C23.
  apply andb_true_iff. split.
  - apply Nat.eqb_eq. congruence.
  - apply Z.eqb_eq. now apply (Ht _ (snd s2)).
Qed.

Lemma Reb_Kind_eqb_sym a b : Reb_Kind_eqb a b = Reb_Kind_eqb b a.
Proof. now destruct a, b. Qed.

(** What [Equal_Context] returns when it says equal. *)
Lemma Equal_Context_true (st : Store) k1 p1 k2 p2 :
  Equal_Context Cmp_Value st k1 p1 k2 p2 = Return true ->
  k1 = k2
  /\ exists c1 c2,
       st !! p1 = Some c1 /\ st !! p2 = Some c2
       /\ (p1 = p2
           \/ visible_slots_match Cmp_Value (CTX_SLOTS c1) (CTX_SLOTS c2)
              = true).
Proof.
  unfold Equal_Context, VAL_CONTEXT, slots_of.
  destruct (Reb_Kind_eqb k1 k2) eqn:Ek; cbn [negb]; [|discriminate].
  apply Reb_Kind_eqb_eq in Ek.
  destruct (st !! p1) as [c1|] eqn:E1; cbn [mbind Result_bind];
    [|discriminate].
  destruct (st !! p2) as [c2|] eqn:E2; cbn [mbind Result_bind];
    [|discriminate].
  intros H. split; [exact Ek|]. exists c1, c2. repeat split.
  destruct (Nat.eqb_spec p1 p2) as [E|N]; [now left|right].
  rewrite E1, E2, Equal_walk_visible in H. congruence.
Qed.

(** X9. Equality of contexts is symmetric.  If the generic comparison says
    equal in one direction exactly when it says so in the other, then
    [Equal_Context], and with it [CT_Context], gives the same answer on
    [v1], [v2] as on [v2], [v1]: the same truth value, or the same
    failure on a context whose data is gone. *)
Theorem Equal_Context_symmetric (st : Store) k1 p1 k2 p2 :
  (forall a b, Cmp_Value a b false = 0 <-> Cmp_Value b a false = 0) ->
  Equal_Context Cmp_Value st k1 p1 k2 p2
  = Equal_Context Cmp_Value st k2 p2 k1 p1
  /\ forall mode,
       CT_Context Cmp_Value st k1 p1 k2 p2 mode
       = CT_Context Cmp_Value st k2 p2 k1 p1 mode.
Proof.
  intros Hs.
  assert (E : Equal_Context Cmp_Value st k1 p1 k2 p2
              = Equal_Context Cmp_Value st k2 p2 k1 p1).
  { unfold Equal_Context, VAL_CONTEXT, slots_of.
    rewrite (Reb_Kind_eqb_sym k2 k1).
    destruct (Reb_Kind_eqb k1 k2); cbn [negb]; [|reflexivity].
    destruct (st !! p1) as [c1|] eqn:E1, (st !! p2) as [c2|] eqn:E2;
      cbn [mbind Result_bind]; try reflexivity.
    rewrite (Nat.eqb_sym p2 p1).
    destruct (p1 =? p2)%nat; [reflexivity|].
    rewrite E1, E2, !Equal_walk_visible. unfold visible_slots_match.
    now rewrite (pairwise_sym _ Hs). }
  split; [exact E|].
  intros mode. unfold CT_Context. now rewrite E.
Qed.

(** X10. Equality of contexts is transitive.  If the generic comparison is
    transitive on the values that compare equal, then two contexts that
    [Equal_Context] finds equal to a third are found equal to each
    other. *)
Theorem Equal_Context_transitive (st : Store) k1 p1 k2 p2 k3 p3 :
  (forall a b c, Cmp_Value a b false = 0 -> Cmp_Value b c false = 0 ->
                 Cmp_Value a c false = 0) ->
  Equal_Context Cmp_Value st k1 p1 k2 p2 = Return true ->
  Equal_Context Cmp_Value st k2 p2 k3 p3 = Return true ->
  Equal_Context Cmp_Value st k1 p1 k3 p3 = Return true.
Proof.
  intros Ht H12 H23.
  pose proof H12 as H12'. pose proof H23 as H23'.
  apply Equal_Context_true in H12' as (-> & c1 & c2 & E1 & E2 & M12).
  apply Equal_Context_true in H23' as (-> & c2' & c3 & E2' & E3 & M23).
  rewrite E2 in E2'. injection E2' as <-.
  destruct M12 as [->|M12]; [exact H23|].
  destruct M23 as [<-|M23]; [exact H12|].
  unfold Equal_Context, VAL_CONTEXT, slots_of.
  rewrite Reb_Kind_eqb_refl, E1, E3. cbn [negb mbind Result_bind].
  destruct (p1 =? p3)%nat; [reflexivity|].
  rewrite E1, E3, Equal_walk_visible. f_equal.
  unfold visible_slots_match in *.
  eapply pairwise_trans; eassumption.
Qed.

End Facts.

(** *** The sample, run *)

Example obj_ab_not_equal_obj_ba :
  Equal_Context sample_Cmp_Value sample_store REB_OBJECT 1 REB_OBJECT 2
  = Return false.
Proof. reflexivity. Qed.

Example obj_ab_equal_its_copy :
  Equal_Context sample_Cmp_Value sample_store REB_OBJECT 1 REB_OBJECT 3
  = Return true.
Proof. reflexivity. Qed.

Example object_not_equal_error :
  Equal_Context sample_Cmp_Value sample_store REB_OBJECT 1 REB_ERROR 5
  = Return false.
Proof. reflexivity. Qed.

Lemma Equal_Context_positional_witness :
  Equal_Context sample_Cmp_Value sample_store REB_OBJECT 1 REB_OBJECT 2
  = Return false
  /\ Equal_Context sample_Cmp_Value sample_store REB_OBJECT 1 REB_OBJECT 3
     = Return true
  /\ Equal_Context sample_Cmp_Value sample_store REB_OBJECT 1 REB_ERROR 5
     = Return false.
Proof.
  split; [|split].
  - destruct (Equal_Context_positional sample_Cmp_Value sample_store
                REB_OBJECT 1 REB_OBJECT 2) as (_ & H & _).
    destruct (H obj_ab obj_ba eq_refl eq_refl eq_refl) as (_ & _ & Hord & _).
    apply (Hord key_a key_b (Integer 1) (Integer 2) (Integer 1) (Integer 2));
      [reflexivity|reflexivity|cbn; lia].
  - destruct (Equal_Context_positional sample_Cmp_Value sample_store
                REB_OBJECT 1 REB_OBJECT 3) as (_ & H & _).
    destruct (H obj_ab obj_ab eq_refl eq_refl eq_refl) as (_ & _ & _ & Hcopy).
    apply Hcopy; [reflexivity|].
    intros s [<-|[<-|[]]]; reflexivity.
  - destruct (Equal_Context_positional sample_Cmp_Value sample_store
                REB_OBJECT 1 REB_ERROR 5) as (H & _).
    apply H. discriminate.
Defined.

(** The sample comparison is symmetric and transitive on equal values. *)
Lemma sample_Cmp_Value_zero a b :
  sample_Cmp_Value a b false = 0 <-> exists x, a = Integer x /\ b = Integer x.
Proof.
  split.
  - destruct a, b; cbn; try discriminate.
    destruct (Z.compare_spec i i0) as [->| |]; try discriminate.
    intros _. now exists i0.
  - intros (x & -> & ->). cbn. now rewrite Z.compare_refl.
Defined.

Lemma Equal_Context_symmetric_witness :
  Equal_Context sample_Cmp_Value sample_store REB_OBJECT 1 REB_OBJECT 3
  = Equal_Context sample_Cmp_Value sample_store REB_OBJECT 3 REB_OBJECT 1
  /\ forall mode,
       CT_Context sample_Cmp_Value sample_store REB_OBJECT 1 REB_OBJECT 3
         mode
       = CT_Context sample_Cmp_Value sample_store REB_OBJECT 3 REB_OBJECT 1
           mode.
Proof.
  apply Equal_Context_symmetric.
  intros a b. rewrite !sample_Cmp_Value_zero.
  split; intros (x & -> & ->); now exists x.
Defined.

Lemma Equal_Context_transitive_witness :
  Equal_Context sample_Cmp_Value copies_store REB_OBJECT 1 REB_OBJECT 6
  = Return true.
Proof.
  apply (Equal_Context_transitive sample_Cmp_Value copies_store
           REB_OBJECT 1 REB_OBJECT 3 REB_OBJECT 6).
  - intros a b c. rewrite !sample_Cmp_Value_zero.
    intros (x & -> & ->) (y & E & ->). injection E as <-. now exists x.
  - reflexivity.
  - reflexivity.
Defined.

Lemma Context_append_read_only_witness :
  T_Context sample_Append_To_Context sample_Common_Reflect sample_Other_Verb
    sample_store REB_OBJECT 4 Blank SYM_APPEND
  = (sample_store, Return (R_OUT (Any_Context REB_OBJECT 4)))
  /\ T_Context sample_Append_To_Context sample_Common_Reflect
       sample_Other_Verb sample_store REB_OBJECT 4 (Word 12) SYM_APPEND
     = (sample_store, Fail Error_Read_Only)
  /\ T_Context sample_Append_To_Context sample_Common_Reflect
       sample_Other_Verb sample_store REB_ERROR 5 (Word 12) SYM_APPEND
     = (sample_store, Fail (Error_Illegal_Action REB_ERROR SYM_APPEND)).
Proof.
  split; [|split].
  - destruct (Context_append_read_only sample_Append_To_Context
                sample_Common_Reflect sample_Other_Verb
                sample_store REB_OBJECT 4 Blank obj_locked eq_refl)
      as (H & _).
    apply H. reflexivity.
  - destruct (Context_append_read_only sample_Append_To_Context
                sample_Common_Reflect sample_Other_Verb
                sample_store REB_OBJECT 4 (Word 12) obj_locked eq_refl)
      as (_ & H & _).
    apply H; reflexivity.
  - destruct (Context_append_read_only sample_Append_To_Context
                sample_Common_Reflect sample_Other_Verb
                sample_store REB_ERROR 5 (Word 12) err_ctx eq_refl)
      as (_ & _ & H & _).
    apply H; [reflexivity|reflexivity|discriminate|discriminate].
Defined.

End Context.

(** ** %reb-gob.h and %mod-gob.c *)

Module Gob.

(** [REBD32], the 32-bit float of the GOB coordinates, with the operations
    the code uses on it; [ROUND_TO_INT] and [EVF_HAS_XY] come from headers
    that are not part of this development (%reb-c.h, %reb-event.h). *)
Class Decimal32 := {
  REBD32 : Type;
  d32_zero : REBD32;
  d32_add : REBD32 -> REBD32 -> REBD32;
  d32_sub : REBD32 -> REBD32 -> REBD32;
  d32_ge : REBD32 -> REBD32 -> bool;
  d32_lt : REBD32 -> REBD32 -> bool;
  d32_of_int : Z -> REBD32;
  ROUND_TO_INT : REBD32 -> Z;
  EVF_HAS_XY : Z
}.

(** A [REBGOB*]. *)
Abbreviation REBGOB := nat.

Definition GOBF_WINDOW : Z := Z.shiftl 1 4.

(** The other members of [enum Reb_Gob_Flags]. *)
Definition GOBS_OPEN : Z := Z.shiftl 1 0.
Definition GOBS_ACTIVE : Z := Z.shiftl 1 1.
Definition GOBS_NEW : Z := Z.shiftl 1 2.
Definition GOBF_TOP : Z := Z.shiftl 1 3.
Definition GOBF_OPAQUE : Z := Z.shiftl 1 5.
Definition GOBF_STATIC : Z := Z.shiftl 1 6.
Definition GOBF_HIDDEN : Z := Z.shiftl 1 7.
Definition GOBF_RESIZE : Z := Z.shiftl 1 8.
Definition GOBF_NO_TITLE : Z := Z.shiftl 1 9.
Definition GOBF_NO_BORDER : Z := Z.shiftl 1 10.
Definition GOBF_DROPABLE : Z := Z.shiftl 1 11.
Definition GOBF_TRANSPARENT : Z := Z.shiftl 1 12.
Definition GOBF_POPUP : Z := Z.shiftl 1 13.
Definition GOBF_MODAL : Z := Z.shiftl 1 14.
Definition GOBF_ON_TOP : Z := Z.shiftl 1 15.
Definition GOBF_ACTIVE : Z := Z.shiftl 1 16.
Definition GOBF_MINIMIZE : Z := Z.shiftl 1 17.
Definition GOBF_MAXIMIZE : Z := Z.shiftl 1 18.
Definition GOBF_RESTORE : Z := Z.shiftl 1 19.
Definition GOBF_FULLSCREEN : Z := Z.shiftl 1 20.

Definition Reb_Gob_Flags : list Z :=
  [ GOBS_OPEN; GOBS_ACTIVE; GOBS_NEW; GOBF_TOP; GOBF_WINDOW; GOBF_OPAQUE;
    GOBF_STATIC; GOBF_HIDDEN; GOBF_RESIZE; GOBF_NO_TITLE; GOBF_NO_BORDER;
    GOBF_DROPABLE; GOBF_TRANSPARENT; GOBF_POPUP; GOBF_MODAL; GOBF_ON_TOP;
    GOBF_ACTIVE; GOBF_MINIMIZE; GOBF_MAXIMIZE; GOBF_RESTORE;
    GOBF_FULLSCREEN ].

Section Definitions.

Context {dec : Decimal32}.

(** The fields of a GOB that the mapping reads: the pane ([None] when the
    pane cell is blank, else the [VAL_GOB] of the cells of the pane array
    from [GOB_HEAD] on), offset, size, parent and flags. *)
Record Gob_Node := mkGob {
  GOB_PANE : option (list REBGOB);
  GOB_X : REBD32;
  GOB_Y : REBD32;
  GOB_W : REBD32;
  GOB_H : REBD32;
  GOB_PARENT : option REBGOB;
  GOB_FLAGS : Z
}.

(** The GOBs in memory, by address. *)
Variable gobs : REBGOB -> Gob_Node.

Definition GET_GOB_FLAG (g : REBGOB) (f : Z) : bool :=
  negb (Z.land (GOB_FLAGS (gobs g)) f =? 0).

(** [GOB_FLAGS(g) = flags]: the GOBs in memory after the assignment. *)
Definition set_GOB_FLAGS (g : REBGOB) (flags : Z) : REBGOB -> Gob_Node :=
  fun g' =>
    if (g' =? g)%nat then
      mkGob (GOB_PANE (gobs g)) (GOB_X (gobs g)) (GOB_Y (gobs g))
        (GOB_W (gobs g)) (GOB_H (gobs g)) (GOB_PARENT (gobs g)) flags
    else gobs g'.

Definition SET_GOB_FLAG (g : REBGOB) (f : Z) : REBGOB -> Gob_Node :=
  set_GOB_FLAGS g (Z.lor (GOB_FLAGS (gobs g)) f).

Definition CLR_GOB_FLAG (g : REBGOB) (f : Z) : REBGOB -> Gob_Node :=
  set_GOB_FLAGS g (Z.land (GOB_FLAGS (gobs g)) (Z.lnot f)).

(** The test of the inner [for] of [Map_Gob_Inner] on one child. *)
Definition child_hit (x y xo yo : REBD32) (child : REBGOB) : bool :=
  d32_ge xo (d32_add x (GOB_X (gobs child)))
  && d32_lt xo (d32_add (d32_add x (GOB_X (gobs child))) (GOB_W (gobs child)))
  && d32_ge yo (d32_add y (GOB_Y (gobs child)))
  && d32_lt yo (d32_add (d32_add y (GOB_Y (gobs child))) (GOB_H (gobs child))).

(** The [while] of [Map_Gob_Inner]; [max_depth] counts down from 1000.  The
    inner [for] goes from the last cell of the pane to the first and stops
    at the first child that is hit. *)
Fixpoint Map_Gob_loop (max_depth : nat) (gob : REBGOB) (x y xo yo : REBD32)
  : REBGOB * REBD32 * REBD32 :=
  match GOB_PANE (gobs gob) with
  | None => (gob, x, y)
  | Some pane =>
      match max_depth with
      | O => (gob, x, y)
      | S max_depth' =>
          match List.find (child_hit x y xo yo) (rev pane) with
          | Some child =>
              Map_Gob_loop max_depth' child
                (d32_add x (GOB_X (gobs child)))
                (d32_add y (GOB_Y (gobs child))) xo yo
          | None => (gob, x, y) (* not found *)
          end
      end
  end.

Definition Map_Gob_Inner (gob : REBGOB) (xo yo : REBD32)
  : REBGOB * REBD32 * REBD32 :=
  let '(gob', x, y) := Map_Gob_loop 1000 gob d32_zero d32_zero xo yo in
  (gob', d32_sub xo x, d32_sub yo y).

(** The [while] of the /REVERSE branch of map-gob-offset. *)
Fixpoint reverse_loop (max_depth : nat) (gob : REBGOB) (xo yo : REBD32)
  : REBGOB * REBD32 * REBD32 :=
  match GOB_PARENT (gobs gob) with
  | None => (gob, xo, yo)
  | Some parent =>
      match max_depth with
      | O => (gob, xo, yo)
      | S max_depth' =>
          if GET_GOB_FLAG gob GOBF_WINDOW then (gob, xo, yo)
          else
            reverse_loop max_depth' parent
              (d32_add xo (GOB_X (gobs gob)))
              (d32_add yo (GOB_Y (gobs gob)))
      end
  end.


(** map-gob-offset: the GOB! and the PAIR! of the block it returns. *)
Definition map_gob_offset (gob : REBGOB) (xy : REBD32 * REBD32)
    (reverse : bool) : REBGOB * (REBD32 * REBD32) :=
  let xo := fst xy in
  let yo := snd xy in
  let '(gob', xo', yo') :=
    if reverse then reverse_loop 1000 gob xo yo
    else Map_Gob_Inner gob xo yo in
  (gob', (xo', yo')).

(** An EVENT! cell: the series it carries (a GOB, or null), its flags, its
    position, and the fields that map-event does not look at. *)
Record Event := mkEvent {
  VAL_EVENT_SER : option REBGOB;
  VAL_EVENT_FLAGS : Z;
  VAL_EVENT_X : Z;
  VAL_EVENT_Y : Z;
  VAL_EVENT_REST : Z
}.

Definition set_VAL_EVENT_SER (val : Event) (ser : option REBGOB) : Event :=
  mkEvent ser (VAL_EVENT_FLAGS val) (VAL_EVENT_X val) (VAL_EVENT_Y val)
    (VAL_EVENT_REST val).

(** Modelled from the spec: [SET_EVENT_XY] of %reb-event.h, which
    "overwrites the event's position fields". *)
Definition SET_EVENT_XY (val : Event) (x y : Z) : Event :=
  mkEvent (VAL_EVENT_SER val) (VAL_EVENT_FLAGS val) x y (VAL_EVENT_REST val).

Definition map_event (val : Event) : Event :=
  match VAL_EVENT_SER val with
  | Some gob =>
      if negb (Z.land (VAL_EVENT_FLAGS val) EVF_HAS_XY =? 0) then
        let x := d32_of_int (VAL_EVENT_X val) in
        let y := d32_of_int (VAL_EVENT_Y val) in
        let '(gob', x, y) := Map_Gob_Inner gob x y in
        let val := set_VAL_EVENT_SER val (Some gob') in
        SET_EVENT_XY val (ROUND_TO_INT x) (ROUND_TO_INT x)
      else val
  | None => val
  end.

(** The hit-testing that the specification words: look among the children
    of the pane, last first, for the first whose box, from its offset to
    offset plus size, holds the point; take its offset off the point and go
    down into it; stop without a pane, without a child that holds the
    point, or when the steps run out. *)
Definition box_holds (px py : REBD32) (child : REBGOB) : bool :=
  d32_ge px (GOB_X (gobs child))
  && d32_lt px (d32_add (GOB_X (gobs child)) (GOB_W (gobs child)))
  && d32_ge py (GOB_Y (gobs child))
  && d32_lt py (d32_add (GOB_Y (gobs child)) (GOB_H (gobs child))).

Fixpoint hit_test (steps : nat) (gob : REBGOB) (px py : REBD32)
  : REBGOB * REBD32 * REBD32 :=
  match GOB_PANE (gobs gob) with
  | None => (gob, px, py)
  | Some pane =>
      match steps with
      | O => (gob, px, py)
      | S steps' =>
          match List.find (box_holds px py) (rev pane) with
          | Some child =>
              hit_test steps' child
                (d32_sub px (GOB_X (gobs child)))
                (d32_sub py (GOB_Y (gobs child)))
          | None => (gob, px, py)
          end
      end
  end.

(** The hit-testing as the code has it, worded like the one above but for
    this: the point stays what it was, and the box of a child, from its
    offset to offset plus size, is set off by the offsets [(ax, ay)] of
    the GOBs that the walk went down into, added up one by one. *)
Definition offset_box_holds (ax ay px py : REBD32) (child : REBGOB) : bool :=
  d32_ge px (d32_add ax (GOB_X (gobs child)))
  && d32_lt px
       (d32_add (d32_add ax (GOB_X (gobs child))) (GOB_W (gobs child)))
  && d32_ge py (d32_add ay (GOB_Y (gobs child)))
  && d32_lt py
       (d32_add (d32_add ay (GOB_Y (gobs child))) (GOB_H (gobs child))).

(** [child] is the first GOB of the pane of [gob], from the last to the
    first, whose box holds the point. *)
Definition top_most_hit (gob : REBGOB) (ax ay px py : REBD32)
    (child : REBGOB) : Prop :=
  exists below above,
    GOB_PANE (gobs gob) = Some (below ++ child :: above)
    /\ offset_box_holds ax ay px py child = true
    /\ forall c, In c above -> offset_box_holds ax ay px py c = false.

(** No pane, or no child whose box holds the point. *)
Definition at_rest (gob : REBGOB) (ax ay px py : REBD32) : Prop :=
  match GOB_PANE (gobs gob) with
  | None => True
  | Some pane =>
      forall c, In c pane -> offset_box_holds ax ay px py c = false
  end.

(** [walks_down px py n gob ax ay gob' ax' ay']: [n] steps down lead from
    [gob], with the offsets [(ax, ay)] added up so far, to [gob'] with
    [(ax', ay')]; each step goes to the top-most child that holds the
    point and adds its offset. *)
Inductive walks_down (px py : REBD32)
  : nat -> REBGOB -> REBD32 -> REBD32 -> REBGOB -> REBD32 -> REBD32 -> Prop :=
| walk_end gob ax ay : walks_down px py 0 gob ax ay gob ax ay
| walk_step n gob ax ay child gob' ax' ay' :
    top_most_hit gob ax ay px py child ->
    walks_down px py n child
      (d32_add ax (GOB_X (gobs child))) (d32_add ay (GOB_Y (gobs child)))
      gob' ax' ay' ->
    walks_down px py (S n) gob ax ay gob' ax' ay'.

(** A scene that nests no deeper than [depth] says: every GOB of a pane
    lies less deep than the owner of the pane. *)
Definition nests_within (depth : REBGOB -> nat) : Prop :=
  forall g pane c,
    GOB_PANE (gobs g) = Some pane -> In c pane -> (depth c < depth g)%nat.

End Definitions.

(** *** A sample scene on integer coordinates *)

Definition Z_Decimal32 : Decimal32 := {|
  REBD32 := Z;
  d32_zero := 0;
  d32_add := Z.add;
  d32_sub := Z.sub;
  d32_ge := Z.geb;
  d32_lt := Z.ltb;
  d32_of_int := fun z => z;
  ROUND_TO_INT := fun z => z;
  EVF_HAS_XY := 2
|}.

(** GOB 0 is a parent with the children 1 and 2, both 10 by 10, at (0, 0)
    and (20, 5); GOB 3 is malformed: it is its own child, one to the
    right of itself. *)
Definition sample_gobs (g : REBGOB) : @Gob_Node Z_Decimal32 :=
  let gob := @mkGob Z_Decimal32 in
  match g with
  | 0%nat => gob (Some [1%nat; 2%nat]) 0 0 100 100 None 0
  | 1%nat => gob None 0 0 10 10 (Some 0%nat) 0
  | 2%nat => gob None 20 5 10 10 (Some 0%nat) 0
  | _ => gob (Some [3%nat]) 1 0 5000 10 (Some 3%nat) 0
  end.

(** A scene that nests and overlaps: GOB 0 holds 1 and, above it, 3; GOB
    1, at (10, 10), holds 2 at (5, 5); GOB 3, at (40, 40), lies over a
    corner of 1. *)
Definition nested_gobs (g : REBGOB) : @Gob_Node Z_Decimal32 :=
  let gob := @mkGob Z_Decimal32 in
  match g with
  | 0%nat => gob (Some [1%nat; 3%nat]) 0 0 100 100 None 0
  | 1%nat => gob (Some [2%nat]) 10 10 50 50 (Some 0%nat) 0
  | 2%nat => gob None 5 5 10 10 (Some 1%nat) 0
  | 3%nat => gob None 40 40 30 30 (Some 0%nat) 0
  | _ => gob None 0 0 0 0 None 0
  end.

(** An event on GOB 0 at (25, 7), with the position flag. *)
Definition sample_event : Event := mkEvent (Some 0%nat) 2 25 7 0.

(** *** A scene on IEEE 754 binary32 coordinates *)

(** [REBD32] is "typically just float": the binary32 format, with the
    arithmetic of the Standard Library's specification of floats, each
    operation rounded to nearest even.  A comparison with a NaN is false,
    as in C. *)
Definition binary32 : Type := SpecFloat.spec_float.
Definition binary32_add : binary32 -> binary32 -> binary32 :=
  SpecFloat.SFadd 24 128.
Definition binary32_sub : binary32 -> binary32 -> binary32 :=
  SpecFloat.SFsub 24 128.
Definition binary32_of_Z (z : Z) : binary32 :=
  SpecFloat.binary_normalize 24 128 z 0 false.

(** A stand-in for [ROUND_TO_INT] of %reb-c.h: to the nearest integer,
    halves upwards. *)
Definition binary32_round (f : binary32) : Z :=
  match f with
  | SpecFloat.S754_finite s m e =>
      let m := if s then Z.neg m else Z.pos m in
      if 0 <=? e then m * 2 ^ e
      else (2 * m + 2 ^ (- e)) / 2 ^ (1 - e)
  | _ => 0
  end.

Definition binary32_Decimal32 : Decimal32 := {|
  REBD32 := binary32;
  d32_zero := SpecFloat.S754_zero false;
  d32_add := binary32_add;
  d32_sub := binary32_sub;
  d32_ge := fun a b => SpecFloat.SFleb b a;
  d32_lt := SpecFloat.SFltb;
  d32_of_int := binary32_of_Z;
  ROUND_TO_INT := binary32_round;
  EVF_HAS_XY := 2
|}.

(** The floats nearest to 0.1, 0.5, 0.7, 1.1 and 3.3. *)
Definition f0_1 : binary32 := SpecFloat.S754_finite false 13421773 (-27).
Definition f0_5 : binary32 := SpecFloat.S754_finite false 8388608 (-24).
Definition f0_7 : binary32 := SpecFloat.S754_finite false 11744051 (-24).
Definition f1_1 : binary32 := SpecFloat.S754_finite false 9227469 (-23).
Definition f3_3 : binary32 := SpecFloat.S754_finite false 13841203 (-22).

(** GOB 0 holds GOB 3, at x = 1.1 and 100 wide, and above it GOB 1, at
    x = 0.1 and 1 wide; GOB 1 holds GOB 2, at x = 0.1 and 0.5 wide.  All
    are at y = 0 and 100 high. *)
Definition float_gobs (g : REBGOB) : @Gob_Node binary32_Decimal32 :=
  let gob := @mkGob binary32_Decimal32 in
  let zero := binary32_of_Z 0 in
  let hundred := binary32_of_Z 100 in
  match g with
  | 0%nat => gob (Some [3%nat; 1%nat]) zero zero hundred hundred None 0
  | 1%nat =>
      gob (Some [2%nat]) f0_1 zero (binary32_of_Z 1) hundred (Some 0%nat) 0
  | 2%nat => gob None f0_1 zero f0_5 hundred (Some 1%nat) 0
  | 3%nat => gob None f1_1 zero hundred hundred (Some 0%nat) 0
  | _ => gob None zero zero zero zero None 0
  end.

(** How deep below it the scene goes, GOB by GOB. *)
Definition float_depth (g : REBGOB) : nat :=
  match g with
  | 0%nat => 2%nat
  | 1%nat => 1%nat
  | _ => 0%nat
  end.

Section Facts.

Context {dec : Decimal32}.
Variable gobs : REBGOB -> Gob_Node.

Lemma find_pointwise {A} (f g : A -> bool) (l : list A) :
  (forall a, f a = g a) -> List.find f l = List.find g l.
Proof.
  intros E. induction l as [|a r IH]; cbn; [reflexivity|].
  now rewrite E, IH.
Qed.

(** The test of the code is the box test of the offset box. *)
Lemma child_hit_offset_box x y xo yo child :
  child_hit gobs x y xo yo child = offset_box_holds gobs x y xo yo child.
Proof. reflexivity. Qed.

Lemma find_split {A} (f : A -> bool) (l : list A) a :
  List.find f l = Some a ->
  exists l1 l2,
    l = l1 ++ a :: l2 /\ f a = true /\ forall c, In c l1 -> f c = false.
Proof.
  induction l as [|b r IH]; cbn [List.find]; [discriminate|].
  destruct (f b) eqn:Eb.
  - intros H. injection H as <-. exists [], r.
    split; [reflexivity|]. split; [exact Eb|]. intros c [].
  - intros H. destruct (IH H) as (l1 & l2 & -> & Ha & Hl1).
    exists (b :: l1), l2. split; [reflexivity|]. split; [exact Ha|].
    intros c [<-|Hc]; [exact Eb|now apply Hl1].
Qed.

Lemma find_all_false {A} (f : A -> bool) (l : list A) :
  (forall c, In c l -> f c = false) -> List.find f l = None.
Proof.
  induction l as [|b r IH]; intros H; [reflexivity|].
  cbn [List.find]. rewrite (H b (or_introl eq_refl)).
  apply IH. intros c Hc. apply H. now right.
Qed.

Lemma find_app_skip {A} (f : A -> bool) (l1 l2 : list A) :
  (forall a, In a l1 -> f a = false) ->
  List.find f (l1 ++ l2) = List.find f l2.
Proof.
  induction l1 as [|a r IH]; intros H; [reflexivity|].
  cbn. rewrite (H a (or_introl eq_refl)). apply IH.
  intros b Hb. apply H. now right.
Qed.

(** The scan of a pane from its last cell finds the top-most hit, and
    conversely. *)
Lemma find_rev_top_most gob pane x y xo yo child :
  GOB_PANE (gobs gob) = Some pane ->
  List.find (child_hit gobs x y xo yo) (rev pane) = Some child ->
  top_most_hit gobs gob x y xo yo child.
Proof.
  intros Hp Hf. apply find_split in Hf as (l1 & l2 & Hl & Hc & Hl1).
  exists (rev l2), (rev l1). split; [|split].
  - rewrite Hp. f_equal. rewrite <- (rev_involutive pane), Hl.
    rewrite rev_app_distr. cbn [rev]. now rewrite <- app_assoc.
  - exact Hc.
  - intros c Hin. apply Hl1. now apply in_rev.
Qed.

Lemma top_most_find_rev gob x y xo yo child :
  top_most_hit gobs gob x y xo yo child ->
  exists pane,
    GOB_PANE (gobs gob) = Some pane
    /\ List.find (child_hit gobs x y xo yo) (rev pane) = Some child.
Proof.
  intros (below & above & Hp & Hc & Ha). eexists. split; [exact Hp|].
  rewrite rev_app_distr. cbn [rev]. rewrite <- app_assoc.
  rewrite find_app_skip.
  - cbn [app List.find]. rewrite child_hit_offset_box. now rewrite Hc.
  - intros c Hin. rewrite child_hit_offset_box. apply Ha. now apply in_rev.
Qed.

Lemma at_rest_stops gob x y xo yo n :
  at_rest gobs gob x y xo yo ->
  Map_Gob_loop gobs n gob x y xo yo = (gob, x, y).
Proof.
  unfold at_rest. intros H. destruct n; cbn [Map_Gob_loop];
    destruct (GOB_PANE (gobs gob)) as [pane|]; try reflexivity.
  rewrite find_all_false; [reflexivity|].
  intros c Hc. rewrite child_hit_offset_box. apply H. now apply in_rev.
Qed.

(** What the loop returns is the end of a walk down, which either used
    all the steps or came to rest. *)
Lemma Map_Gob_loop_walks xo yo n :
  forall gob x y gob' x' y',
    Map_Gob_loop gobs n gob x y xo yo = (gob', x', y') ->
    exists k,
      (k <= n)%nat
      /\ walks_down gobs xo yo k gob x y gob' x' y'
      /\ (k = n \/ at_rest gobs gob' x' y' xo yo).
Proof.
  induction n as [|n IH]; intros gob x y gob' x' y' H.
  - exists 0%nat. cbn [Map_Gob_loop] in H.
    destruct (GOB_PANE (gobs gob)); injection H as <- <- <-;
      (split; [lia|]; split; [constructor|now left]).
  - cbn [Map_Gob_loop] in H.
    destruct (GOB_PANE (gobs gob)) as [pane|] eqn:Hp.
    2: { injection H as <- <- <-. exists 0%nat. split; [lia|].
         split; [constructor|]. right. unfold at_rest. now rewrite Hp. }
    destruct (List.find _ (rev pane)) as [child|] eqn:Hf.
    2: { injection H as <- <- <-. exists 0%nat. split; [lia|].
         split; [constructor|]. right. unfold at_rest. rewrite Hp.
         intros c Hc. rewrite <- child_hit_offset_box.
         apply (List.find_none _ _ Hf). apply (proj1 (in_rev _ _) Hc). }
    apply IH in H as (k & Hk & Hw & Hend).
    exists (S k). split; [lia|]. split.
    + econstructor; [|exact Hw]. now apply (find_rev_top_most gob pane).
    + destruct Hend as [->|Hr]; [now left|now right].
Qed.

(** A walk down that used all the steps, or came to rest within them, is
    the one that the loop takes. *)
Lemma walks_Map_Gob_loop xo yo k gob x y gob' x' y' :
  walks_down gobs xo yo k gob x y gob' x' y' ->
  forall n,
    k = n \/ ((k <= n)%nat /\ at_rest gobs gob' x' y' xo yo) ->
    Map_Gob_loop gobs n gob x y xo yo = (gob', x', y').
Proof.
  induction 1 as [gob x y|k gob x y child gob' x' y' Hhit Hw IH];
    intros n Hn.
  - destruct Hn as [<-|[_ Hr]]; [|now apply at_rest_stops].
    cbn [Map_Gob_loop]. now destruct (GOB_PANE (gobs gob)).
  - destruct n as [|n]; [destruct Hn as [Hn|[Hn _]]; [discriminate|lia]|].
    apply top_most_find_rev in Hhit as (pane & Hp & Hf).
    cbn [Map_Gob_loop]. rewrite Hp, Hf. apply IH.
    destruct Hn as [Hn|[Hn Hr]]; [left; lia|right; split; [lia|exact Hr]].
Qed.

(** C5. GOB hit-testing, as the code does it.  From a GOB and a point,
    [Map_Gob_Inner] (and so the forward map-gob-offset) walks down at most
    1000 steps; at each GOB it looks among the children of the pane, last
    first, for the first whose box holds the point, where the box goes
    from offset to offset + size set off by the sum of the offsets of the
    GOBs walked into so far, and the point is the one it started with; it
    adds the offset of that child to the sum and goes down.  Without a
    pane, without such a child, or with the steps used up it gives back
    the GOB it is at and the point less the sum: using up the steps is no
    error.  Every such walk is the one the code takes.  The sums and the
    comparisons are those of [REBD32], whatever it rounds. *)
Theorem Map_Gob_Inner_walks_down gob xo yo :
  (exists n gob' x y,
     (n <= 1000)%nat
     /\ walks_down gobs xo yo n gob d32_zero d32_zero gob' x y
     /\ (n = 1000%nat \/ at_rest gobs gob' x y xo yo)
     /\ Map_Gob_Inner gobs gob xo yo
        = (gob', d32_sub xo x, d32_sub yo y))
  /\ (forall n gob' x y,
        (n <= 1000)%nat ->
        walks_down gobs xo yo n gob d32_zero d32_zero gob' x y ->
        n = 1000%nat \/ at_rest gobs gob' x y xo yo ->
        Map_Gob_Inner gobs gob xo yo = (gob', d32_sub xo x, d32_sub yo y)
        /\ map_gob_offset gobs gob (xo, yo) false
           = (gob', (d32_sub xo x, d32_sub yo y))).
Proof.
  split.
  - destruct (Map_Gob_loop gobs 1000 gob d32_zero d32_zero xo yo)
      as [[gob' x] y] eqn:H.
    destruct (Map_Gob_loop_walks _ _ _ _ _ _ _ _ _ H) as (k & Hk & Hw & He).
    exists k, gob', x, y. repeat split; try assumption.
    unfold Map_Gob_Inner. now rewrite H.
  - intros n gob' x y Hn Hw He.
    assert (H : Map_Gob_loop gobs 1000 gob d32_zero d32_zero xo yo
                = (gob', x, y)).
    { apply (walks_Map_Gob_loop _ _ _ _ _ _ _ _ _ Hw).
      destruct He as [->|Hr]; [now left|right; now split]. }
    assert (Hi : Map_Gob_Inner gobs gob xo yo
                 = (gob', d32_sub xo x, d32_sub yo y))
      by (unfold Map_Gob_Inner; now rewrite H).
    split; [exact Hi|].
    unfold map_gob_offset. cbn [fst snd]. now rewrite Hi.
Qed.

(** C6. map-event.  For an event that carries a GOB and has the position
    flag, map-event puts the GOB that [Map_Gob_Inner] resolves in the
    event and writes the resolved X, rounded, in the X field and in the Y
    field as well: the resolved Y goes nowhere.  An event without GOB, or
    without the flag, comes back as it was. *)
Theorem map_event_writes_x_twice (val : Event) :
  (forall gob gob' x y,
     VAL_EVENT_SER val = Some gob ->
     Z.land (VAL_EVENT_FLAGS val) EVF_HAS_XY <> 0 ->
     Map_Gob_Inner gobs gob (d32_of_int (VAL_EVENT_X val))
       (d32_of_int (VAL_EVENT_Y val)) = (gob', x, y) ->
     map_event gobs val
     = mkEvent (Some gob') (VAL_EVENT_FLAGS val)
         (ROUND_TO_INT x) (ROUND_TO_INT x) (VAL_EVENT_REST val))
  /\ (VAL_EVENT_SER val = None
      \/ Z.land (VAL_EVENT_FLAGS val) EVF_HAS_XY = 0 ->
      map_event gobs val = val).
Proof.
  split.
  - intros gob gob' x y Hs Hf Hm. unfold map_event.
    rewrite Hs, (proj2 (Z.eqb_neq _ _) Hf). cbn [negb].
    rewrite Hm. reflexivity.
  - intros [Hs|Hf]; unfold map_event.
    + now rewrite Hs.
    + rewrite Hf. cbn. now destruct (VAL_EVENT_SER val).
Qed.

(** *** Stacking order *)

(** X13. The child on top wins.  Where children of a pane overlap, the
    walk of [Map_Gob_Inner] goes down into the one that stands last in
    the pane among those whose box holds the point, whatever stands
    before it. *)
Theorem Map_Gob_loop_last_hit_wins max_depth gob x y xo yo
    below child above :
  GOB_PANE (gobs gob) = Some (below ++ child :: above) ->
  child_hit gobs x y xo yo child = true ->
  (forall c, In c above -> child_hit gobs x y xo yo c = false) ->
  Map_Gob_loop gobs (S max_depth) gob x y xo yo
  = Map_Gob_loop gobs max_depth child
      (d32_add x (GOB_X (gobs child))) (d32_add y (GOB_Y (gobs child)))
      xo yo.
Proof.
  intros Hp Hc Ha. cbn [Map_Gob_loop]. rewrite Hp.
  rewrite rev_app_distr. cbn [rev]. rewrite <- app_assoc.
  rewrite find_app_skip.
  - cbn [app List.find]. now rewrite Hc.
  - intros c Hin. apply Ha. now apply in_rev.
Qed.

(** *** Mapping down and back up *)

Lemma find_In {A} (f : A -> bool) (l : list A) a :
  List.find f l = Some a -> In a l.
Proof. intros H. now apply List.find_some in H. Qed.



(** *** The limit of 1000 levels *)

(** A walk down goes deeper at every step. *)
Lemma walks_down_depth depth xo yo k gob x y gob' x' y' :
  nests_within gobs depth ->
  walks_down gobs xo yo k gob x y gob' x' y' ->
  (depth gob' + k <= depth gob)%nat.
Proof.
  intros Hd. induction 1 as [|k gob x y child gob' x' y' Hhit _ IH];
    [lia|].
  destruct Hhit as (below & above & Hp & _).
  assert (depth child < depth gob)%nat; [|lia].
  apply (Hd gob _ child Hp). apply in_or_app. right. now left.
Qed.

(** With steps enough for the depth of the scene, more steps change
    nothing. *)
Lemma Map_Gob_loop_enough depth xo yo :
  nests_within gobs depth ->
  forall n gob x y m,
    (depth gob <= n)%nat -> (depth gob <= m)%nat ->
    Map_Gob_loop gobs n gob x y xo yo = Map_Gob_loop gobs m gob x y xo yo.
Proof.
  intros Hd. induction n as [|n IH]; intros gob x y m Hn Hm.
  - assert (Hr : at_rest gobs gob x y xo yo).
    { unfold at_rest. destruct (GOB_PANE (gobs gob)) as [pane|] eqn:Hp;
        [|exact I].
      intros c Hc. pose proof (Hd gob pane c Hp Hc). lia. }
    now rewrite !at_rest_stops.
  - destruct m as [|m].
    + assert (Hr : at_rest gobs gob x y xo yo).
      { unfold at_rest. destruct (GOB_PANE (gobs gob)) as [pane|] eqn:Hp;
          [|exact I].
        intros c Hc. pose proof (Hd gob pane c Hp Hc). lia. }
      now rewrite !at_rest_stops.
    + cbn [Map_Gob_loop].
      destruct (GOB_PANE (gobs gob)) as [pane|] eqn:Hp; [|reflexivity].
      destruct (List.find _ (rev pane)) as [child|] eqn:Hf; [|reflexivity].
      apply find_In, in_rev in Hf. pose proof (Hd gob pane child Hp Hf).
      apply IH; lia.
Qed.

(** X12. The limit of 1000 levels plays no part in a scene that nests less
    deep.  Where every GOB of a pane lies less deep than the owner of the
    pane, and the GOB that [Map_Gob_Inner] starts from is at most 1000
    deep, any limit that is no less than its depth gives the result that
    1000 gives; and the walk ends at rest: at a GOB without a pane, or
    without a child whose box holds the point. *)
Theorem Map_Gob_Inner_limit_unused (depth : REBGOB -> nat) gob xo yo :
  nests_within gobs depth ->
  (depth gob <= 1000)%nat ->
  (forall n,
     (depth gob <= n)%nat ->
     Map_Gob_loop gobs n gob d32_zero d32_zero xo yo
     = Map_Gob_loop gobs 1000 gob d32_zero d32_zero xo yo)
  /\ (exists gob' x y,
        Map_Gob_Inner gobs gob xo yo
        = (gob', d32_sub xo x, d32_sub yo y)
        /\ at_rest gobs gob' x y xo yo).
Proof.
  intros Hd Hle. split.
  - intros n Hn. now apply (Map_Gob_loop_enough depth).
  - destruct (Map_Gob_loop gobs 1000 gob d32_zero d32_zero xo yo)
      as [[gob' x] y] eqn:H.
    exists gob', x, y. split; [unfold Map_Gob_Inner; now rewrite H|].
    rewrite <- (Map_Gob_loop_enough depth xo yo Hd (depth gob)) in H
      by lia.
    destruct (Map_Gob_loop_walks _ _ _ _ _ _ _ _ _ H)
      as (k & Hk & Hw & [->|Hr]); [|exact Hr].
    pose proof (walks_down_depth depth _ _ _ _ _ _ _ _ _ Hd Hw) as Hdeep.
    unfold at_rest. destruct (GOB_PANE (gobs gob')) as [pane|] eqn:Hp;
      [|exact I].
    intros c Hc. pose proof (Hd gob' pane c Hp Hc). lia.
Qed.

(** *** The flags of a GOB *)

Lemma Reb_Gob_Flags_bits f :
  In f Reb_Gob_Flags -> exists i, 0 <= i /\ f = Z.shiftl 1 i.
Proof.
  unfold Reb_Gob_Flags. cbn [In].
  intros H.
  repeat (destruct H as [<-|H];
          [eexists; split; [|reflexivity]; lia|]).
  contradiction.
Qed.

Lemma test_flag_bit x i :
  0 <= i -> negb (Z.land x (Z.shiftl 1 i) =? 0) = Z.testbit x i.
Proof.
  intros Hi. rewrite Z.shiftl_1_l.
  destruct (Z.testbit x i) eqn:Hb.
  - apply negb_true_iff, Z.eqb_neq. intros H0.
    apply (f_equal (fun z => Z.testbit z i)) in H0.
    rewrite Z.land_spec, Hb, Z.pow2_bits_true, Z.testbit_0_l in H0
      by assumption.
    discriminate.
  - apply negb_false_iff, Z.eqb_eq. apply Z.bits_inj'. intros n Hn.
    rewrite Z.land_spec, Z.testbit_0_l, Z.pow2_bits_eqb by assumption.
    destruct (Z.eqb_spec i n) as [<-|N]; [now rewrite Hb|].
    apply andb_false_r.
Qed.

(** X14. The flags of a GOB are independent.  For flags [f], [f'] of
    [enum Reb_Gob_Flags], after [SET_GOB_FLAG (g, f)] the test
    [GET_GOB_FLAG (g, f)] holds, after [CLR_GOB_FLAG (g, f)] it does not,
    and neither changes what [GET_GOB_FLAG] says of another flag of [g],
    or of any flag of another GOB: no two of the 21 flags share a bit. *)
Theorem GOB_FLAG_independent g g' f f' :
  In f Reb_Gob_Flags -> In f' Reb_Gob_Flags ->
  GET_GOB_FLAG (SET_GOB_FLAG gobs g f) g' f'
  = ((g' =? g)%nat && (f' =? f)) || GET_GOB_FLAG gobs g' f'
  /\ GET_GOB_FLAG (CLR_GOB_FLAG gobs g f) g' f'
     = negb ((g' =? g)%nat && (f' =? f)) && GET_GOB_FLAG gobs g' f'.
Proof.
  intros Hf Hf'.
  apply Reb_Gob_Flags_bits in Hf as (i & Hi & ->).
  apply Reb_Gob_Flags_bits in Hf' as (j & Hj & ->).
  assert (Heq : (Z.shiftl 1 j =? Z.shiftl 1 i) = (i =? j)).
  { rewrite !Z.shiftl_1_l.
    destruct (Z.eqb_spec i j) as [->|N]; [apply Z.eqb_refl|].
    apply Z.eqb_neq. intros H. apply N.
    apply (Z.pow_inj_r 2) in H; lia. }
  unfold GET_GOB_FLAG, SET_GOB_FLAG, CLR_GOB_FLAG, set_GOB_FLAGS.
  rewrite Heq.
  destruct (Nat.eqb_spec g' g) as [->|N]; cbn [andb orb negb GOB_FLAGS];
    [|split; reflexivity].
  rewrite !test_flag_bit by assumption.
  rewrite Z.lor_spec, Z.land_spec, Z.lnot_spec by assumption.
  rewrite !Z.shiftl_1_l, Z.pow2_bits_eqb by assumption.
  split.
  - apply orb_comm.
  - apply andb_comm.
Qed.

End Facts.

(** *** The sample scene, run *)

(** A point of child 2 goes to child 2, less its offset; a point of
    neither child stays with the parent. *)
Example point_in_child_2 :
  @Map_Gob_Inner Z_Decimal32 sample_gobs 0 25 7 = (2%nat, 5, 2).
Proof. reflexivity. Qed.

Example point_in_child_1 :
  @Map_Gob_Inner Z_Decimal32 sample_gobs 0 3 4 = (1%nat, 3, 4).
Proof. reflexivity. Qed.

Example point_in_no_child :
  @Map_Gob_Inner Z_Decimal32 sample_gobs 0 50 50 = (0%nat, 50, 50).
Proof. reflexivity. Qed.

(** The GOB that is its own child: the walk goes down 1000 times, one to
    the right each time, and stops there. *)
Example cyclic_pane_stops :
  @Map_Gob_Inner Z_Decimal32 sample_gobs 3 2000 5 = (3%nat, 1000, 5).
Proof. vm_compute. reflexivity. Qed.

(** On integers the walk of the code and the subtracting walk of the
    specification agree here. *)
Example point_in_child_2_subtracting :
  @hit_test Z_Decimal32 sample_gobs 1000 0 25 7 = (2%nat, 5, 2).
Proof. reflexivity. Qed.

(** On floats they need not.  The point x = 0.7 goes down to GOB 1 and
    stays there: 0.1 + 0.1 + 0.5, the far side of the box of GOB 2 as the
    code adds it up, rounds to 0.7, which is not above the point.  The
    subtracting walk goes on to GOB 2: 0.7 - 0.1 rounds below 0.6, and
    0.1 + 0.5 rounds to 0.6. *)
Lemma Map_Gob_Inner_differs_from_hit_test :
  @Map_Gob_Inner binary32_Decimal32 float_gobs 0 f0_7 (binary32_of_Z 0)
  = (1%nat, SpecFloat.S754_finite false 10066329 (-24),
     SpecFloat.S754_zero false)
  /\ @hit_test binary32_Decimal32 float_gobs 1000 0 f0_7 (binary32_of_Z 0)
     = (2%nat, SpecFloat.S754_finite false 16777215 (-25),
        SpecFloat.S754_zero false)
  /\ @Map_Gob_Inner binary32_Decimal32 float_gobs 0 f0_7 (binary32_of_Z 0)
     <> @hit_test binary32_Decimal32 float_gobs 1000 0 f0_7
          (binary32_of_Z 0).
Proof.
  assert (H1 : @Map_Gob_Inner binary32_Decimal32 float_gobs 0 f0_7
                 (binary32_of_Z 0)
               = (1%nat, SpecFloat.S754_finite false 10066329 (-24),
                  SpecFloat.S754_zero false))
    by (vm_compute; reflexivity).
  assert (H2 : @hit_test binary32_Decimal32 float_gobs 1000 0 f0_7
                 (binary32_of_Z 0)
               = (2%nat, SpecFloat.S754_finite false 16777215 (-25),
                  SpecFloat.S754_zero false))
    by (vm_compute; reflexivity).
  split; [exact H1|]. split; [exact H2|].
  rewrite H1, H2. discriminate.
Qed.

Lemma Map_Gob_Inner_walks_down_witness :
  @Map_Gob_Inner binary32_Decimal32 float_gobs 0 f0_7 (binary32_of_Z 0)
  = (1%nat, SpecFloat.S754_finite false 10066329 (-24),
     SpecFloat.S754_zero false)
  /\ @map_gob_offset binary32_Decimal32 float_gobs 0
       (f0_7, binary32_of_Z 0) false
     = (1%nat, (SpecFloat.S754_finite false 10066329 (-24),
                SpecFloat.S754_zero false)).
Proof.
  destruct (@Map_Gob_Inner_walks_down binary32_Decimal32 float_gobs
              0%nat f0_7 (binary32_of_Z 0)) as [_ H].
  apply (H 1%nat 1%nat f0_1 (binary32_of_Z 0)).
  - lia.
  - apply (@walk_step binary32_Decimal32 float_gobs f0_7 (binary32_of_Z 0)
             0%nat 0%nat (binary32_of_Z 0) (binary32_of_Z 0) 1%nat
             1%nat f0_1 (binary32_of_Z 0)).
    + exists [3%nat], []. split; [reflexivity|]. split; [reflexivity|].
      intros c [].
    + exact (@walk_end binary32_Decimal32 float_gobs f0_7
               (binary32_of_Z 0) 1%nat f0_1 (binary32_of_Z 0)).
  - right. intros c [<-|[]]. reflexivity.
Defined.

Example sample_event_mapped :
  @map_event Z_Decimal32 sample_gobs sample_event
  = mkEvent (Some 2%nat) 2 5 5 0.
Proof. reflexivity. Qed.

Lemma map_event_writes_x_twice_witness :
  @map_event Z_Decimal32 sample_gobs sample_event
  = mkEvent (Some 2%nat) 2 5 5 0
  /\ @map_event Z_Decimal32 sample_gobs (mkEvent None 2 25 7 0)
     = mkEvent None 2 25 7 0.
Proof.
  split.
  - destruct (@map_event_writes_x_twice Z_Decimal32 sample_gobs sample_event)
      as (H & _).
    apply (H 0%nat 2%nat 5 2); [reflexivity|vm_compute; discriminate|reflexivity].
  - destruct (@map_event_writes_x_twice Z_Decimal32 sample_gobs
                (mkEvent None 2 25 7 0)) as (_ & H).
    apply H. left. reflexivity.
Defined.

(** A point where GOB 3 lies over GOB 1 goes to GOB 3. *)
Example point_in_overlap :
  @Map_Gob_Inner Z_Decimal32 nested_gobs 0 45 45 = (3%nat, 5, 5).
Proof. reflexivity. Qed.

Lemma Map_Gob_loop_last_hit_wins_witness :
  @Map_Gob_loop Z_Decimal32 nested_gobs 1 0 0 0 45 45
  = @Map_Gob_loop Z_Decimal32 nested_gobs 0 3 40 40 45 45.
Proof.
  apply (@Map_Gob_loop_last_hit_wins Z_Decimal32 nested_gobs 0 0%nat
           0 0 45 45 [1%nat] 3%nat []).
  - reflexivity.
  - reflexivity.
  - intros c [].
Defined.

(** Down from GOB 0 at (17, 18) is GOB 2 at (2, 3). *)
Example nested_down :
  @map_gob_offset Z_Decimal32 nested_gobs 0 (17, 18) false
  = (2%nat, (2, 3)).
Proof. reflexivity. Qed.


(** Down from GOB 0 at x = 3.3 is GOB 3 at x = 2.2; up from there is GOB
    0 again, at the float next below 3.3. *)
Example offset_comes_back_rounded :
  @map_gob_offset binary32_Decimal32 float_gobs 0
    (f3_3, binary32_of_Z 0) false
  = (3%nat, (SpecFloat.S754_finite false 9227468 (-22),
             SpecFloat.S754_zero false))
  /\ @map_gob_offset binary32_Decimal32 float_gobs 3
       (SpecFloat.S754_finite false 9227468 (-22),
        SpecFloat.S754_zero false) true
     = (0%nat, (SpecFloat.S754_finite false 13841202 (-22),
                SpecFloat.S754_zero false)).
Proof. split; vm_compute; reflexivity. Qed.


Lemma float_gobs_nest :
  @nests_within binary32_Decimal32 float_gobs float_depth.
Proof.
  intros g pane c Hp Hin.
  destruct g as [|[|[|[|g]]]]; cbn in Hp; try discriminate;
    injection Hp as <-; cbn in Hin;
    repeat (destruct Hin as [<-|Hin]; [cbn; lia|]);
    contradiction.
Defined.

Lemma Map_Gob_Inner_limit_unused_witness :
  @Map_Gob_loop binary32_Decimal32 float_gobs 2 0 (binary32_of_Z 0)
    (binary32_of_Z 0) f0_7 (binary32_of_Z 0)
  = @Map_Gob_loop binary32_Decimal32 float_gobs 1000 0 (binary32_of_Z 0)
      (binary32_of_Z 0) f0_7 (binary32_of_Z 0).
Proof.
  destruct (@Map_Gob_Inner_limit_unused binary32_Decimal32 float_gobs
              float_depth 0%nat f0_7 (binary32_of_Z 0) float_gobs_nest)
    as [H _].
  - cbn. lia.
  - apply (H 2%nat). cbn. lia.
Defined.

Lemma GOB_FLAG_independent_witness :
  @GET_GOB_FLAG Z_Decimal32
    (@SET_GOB_FLAG Z_Decimal32 sample_gobs 0 GOBF_WINDOW) 0 GOBF_OPAQUE
  = @GET_GOB_FLAG Z_Decimal32 sample_gobs 0 GOBF_OPAQUE
  /\ @GET_GOB_FLAG Z_Decimal32
       (@CLR_GOB_FLAG Z_Decimal32 sample_gobs 0 GOBF_WINDOW) 0 GOBF_OPAQUE
     = @GET_GOB_FLAG Z_Decimal32 sample_gobs 0 GOBF_OPAQUE.
Proof.
  apply (@GOB_FLAG_independent Z_Decimal32 sample_gobs 0%nat 0%nat
           GOBF_WINDOW GOBF_OPAQUE).
  - do 4 right. left. reflexivity.
  - do 5 right. left. reflexivity.
Defined.

End Gob.

(** ** %mod-crypt.c *)

Module Crypt.

Abbreviation bytes := (list byte).

(** A BINARY! value: the series and the index of the value in it. *)
Record Binary := mkBinary {
  BIN_HEAD : bytes;
  VAL_INDEX : nat
}.

Definition VAL_BIN_AT (b : Binary) : bytes := skipn (VAL_INDEX b) (BIN_HEAD b).

Definition VAL_LEN_AT (b : Binary) : Z :=
  to_REBCNT (Z.of_nat (length (VAL_BIN_AT b))).

(** The symbols that CHECKSUM tells apart; [SYM_0] is a word that is not in
    %words.r. *)
Inductive REBSYM :=
| SYM_0 | SYM_SHA1 | SYM_MD5 | SYM_CRC32 | SYM_ADLER32 | SYM_OTHER (n : nat).

Definition SAME_SYM_NONZERO (a b : REBSYM) : bool :=
  match a, b with
  | SYM_SHA1, SYM_SHA1 | SYM_MD5, SYM_MD5 | SYM_CRC32, SYM_CRC32
  | SYM_ADLER32, SYM_ADLER32 => true
  | SYM_OTHER n, SYM_OTHER m => (n =? m)%nat
  | _, _ => false
  end.

Inductive Error :=
| Error_PAR_method                (* fail (PAR(method)) *)
| Error_Bad_Refines_Raw
| Error_IV_Too_Short              (* "Length of initialization vector less
                                     than AES size" *)
| Error_AES_Key_Length (len : Z)  (* "AES key length has to be 16 or 32" *)
| Error_Not_AES_Context
| Error_Null_Call
| Error_Core (code : nat).        (* raised by a routine of the core *)

Definition AES_IV_SIZE : Z := 16.
Definition AES_BLOCKSIZE : Z := 16.

Inductive AES_MODE := AES_MODE_128 | AES_MODE_256.

(** The routines that the natives call and that are vendored (zlib, the
    legacy MD5 and SHA-1, axTLS AES) or belong to the core. *)
Class Vendored := {
  crc32_z : Z -> bytes -> Z;
  z_adler32 : Z -> bytes -> Z;
  Compute_CRC24 : bytes -> Z;
  Compute_IPC : bytes -> Z;
  Hash_Bytes : bytes -> Z;
  Digest_CTX : Type;
  SHA1 : bytes -> bytes;
  SHA1_Init : Digest_CTX;
  SHA1_Update : Digest_CTX -> bytes -> Digest_CTX;
  SHA1_Final : Digest_CTX -> bytes;
  MD5 : bytes -> bytes;
  MD5_Init : Digest_CTX;
  MD5_Update : Digest_CTX -> bytes -> Digest_CTX;
  MD5_Final : Digest_CTX -> bytes;
  (* the /PART argument, and the binary and length it leaves *)
  PART : Type;
  Part_Len_May_Modify_Index :
    Binary -> option PART -> Result Error (Binary * Z);
  VAL_INT32 : Z -> Result Error Z;
  AES_CTX : Type;
  key_mode_is_decrypt : AES_CTX -> bool;  (* key_mode == AES_MODE_DECRYPT *)
  AES_set_key : bytes -> bytes -> AES_MODE -> AES_CTX;
  AES_convert_key : AES_CTX -> AES_CTX;
  (* context, input and length: the context after, and the output *)
  AES_cbc_encrypt : AES_CTX -> bytes -> Z -> AES_CTX * bytes;
  AES_cbc_decrypt : AES_CTX -> bytes -> Z -> AES_CTX * bytes
}.

Section Definitions.

Context {vendored : Vendored}.

(** A HANDLE! value, told apart by its cleaner. *)
Inductive Handle :=
| Handle_AES (aes_ctx : AES_CTX)    (* cleaner is cleanup_aes_ctx *)
| Handle_RC4 (id : nat)             (* cleaner is cleanup_rc4_ctx *)
| Handle_Plain (id : nat).

Definition is_cleanup_aes_ctx (h : Handle) : bool :=
  match h with
  | Handle_AES _ => true
  | _ => false
  end.

Inductive REBVAL :=
| Integer (i : Z)
| Binary_Value (b : bytes)
| Handle_Value (h : Handle).

(** [memset (p, 0, n)] on a fresh buffer, and [memcpy (dst, src, n)]. *)
Definition zeros (n : Z) : bytes := repeat x00 (Z.to_nat n).

Definition memcpy (dst src : bytes) (n : Z) : bytes :=
  firstn (Z.to_nat n) src ++ skipn (Z.to_nat n) dst.

(** A routine writes [out] from the start of the buffer [buf]. *)
Definition written (buf out : bytes) : bytes :=
  firstn (length buf) (out ++ skipn (length out) buf).

Definition byte_xor (a b : byte) : byte :=
  match Byte.of_N (N.lxor (Byte.to_N a) (Byte.to_N b)) with
  | Some c => c
  | None => x00
  end.

(** *** CHECKSUM *)

Record Digest := mkDigest {
  digest : bytes -> bytes;
  init : Digest_CTX;
  update : Digest_CTX -> bytes -> Digest_CTX;
  final : Digest_CTX -> bytes
}.

Record Digest_Entry := mkEntry {
  routines : option Digest;  (* [None]: the nullptr of the last entry *)
  entry_sym : REBSYM;
  entry_len : Z;
  entry_hmacblock : Z
}.

Definition digests : list Digest_Entry :=
  [ mkEntry (Some (mkDigest SHA1 SHA1_Init SHA1_Update SHA1_Final))
      SYM_SHA1 20 64;
    mkEntry (Some (mkDigest MD5 MD5_Init MD5_Update MD5_Final))
      SYM_MD5 16 64;
    mkEntry None SYM_0 0 0 ].

(** The frame of CHECKSUM: a refinement with an argument is [Some]. *)
Record Checksum_Frame := mkChecksum {
  ARG_data : Binary;
  ARG_part : option PART;
  REF_tcp : bool;
  REF_secure : bool;
  ARG_hash : option Z;
  ARG_method : option REBSYM;
  ARG_key : option bytes
}.

Definition REF_method (f : Checksum_Frame) : bool :=
  match ARG_method f with Some _ => true | None => false end.

Definition REF_key (f : Checksum_Frame) : bool :=
  match ARG_key f with Some _ => true | None => false end.

(** The keyed branch of the digest loop. *)
Definition hmac (d : Digest) (e : Digest_Entry) (key_bytes data : bytes)
  : bytes :=
  let blocklen := entry_hmacblock e in
  let key_size := Z.of_nat (length key_bytes) in
  let '(key_bytes, key_size) :=
    if blocklen <? key_size
    then (written (zeros 20) (digest d key_bytes), entry_len e)
    else (key_bytes, key_size) in
  let ipad := memcpy (zeros blocklen) key_bytes key_size in
  let opad := memcpy (zeros blocklen) key_bytes key_size in
  let ipad := map (fun b => byte_xor b x36) ipad in
  let opad := map (fun b => byte_xor b x5c) opad in
  let ctx := init d in
  let ctx := update d ctx ipad in
  let ctx := update d ctx data in
  let tmpdigest := written (zeros 20) (final d ctx) in
  let ctx := init d in
  let ctx := update d ctx opad in
  let ctx := update d ctx (firstn (Z.to_nat (entry_len e)) tmpdigest) in
  final d ctx.

Definition checksum (f : Checksum_Frame) : Result Error REBVAL :=
  '(bin, length) ← Part_Len_May_Modify_Index (ARG_data f) (ARG_part f);
  let data := firstn (Z.to_nat length) (VAL_BIN_AT bin) in
  sym ← match ARG_method f with
        | Some SYM_0 => Fail Error_PAR_method
        | Some sym => Return sym
        | None => Return SYM_SHA1
        end;
  (* If method, secure, or key... find matching digest: *)
  if REF_method f || REF_secure f || REF_key f then
    if SAME_SYM_NONZERO sym SYM_CRC32 then
      if REF_secure f || REF_key f then Fail Error_Bad_Refines_Raw
      else Return (Integer (to_REBINT (crc32_z 0 data)))
    else if SAME_SYM_NONZERO sym SYM_ADLER32 then
      if REF_secure f || REF_key f then Fail Error_Bad_Refines_Raw
      else Return (Integer (z_adler32 0 data))
    else
      match List.find (fun e => SAME_SYM_NONZERO (entry_sym e) sym) digests
      with
      | Some e =>
          match routines e with
          | None => Fail Error_Null_Call
          | Some d =>
              let out :=
                match ARG_key f with
                | None => digest d data
                | Some key_bytes => hmac d e key_bytes data
                end in
              Return (Binary_Value (firstn (Z.to_nat (entry_len e)) out))
          end
      | None => Fail Error_PAR_method
      end
  else if REF_tcp f then
    Return (Integer (Compute_IPC data))
  else
    match ARG_hash f with
    | Some size =>
        sum ← VAL_INT32 size;
        let sum := if sum <=? 1 then 1 else sum in
        Return (Integer (Z.rem (Hash_Bytes data) sum))
    | None => Return (Integer (Compute_CRC24 data))
    end.

(** The same call of CHECKSUM with other /TCP and /HASH, or with another
    /METHOD. *)
Definition with_tcp_hash (f : Checksum_Frame) (tcp : bool) (hash : option Z)
  : Checksum_Frame :=
  mkChecksum (ARG_data f) (ARG_part f) tcp (REF_secure f) hash
    (ARG_method f) (ARG_key f).

Definition with_method (f : Checksum_Frame) (method : option REBSYM)
  : Checksum_Frame :=
  mkChecksum (ARG_data f) (ARG_part f) (REF_tcp f) (REF_secure f)
    (ARG_hash f) method (ARG_key f).

(** *** AES-KEY *)

Inductive IV_Arg :=
| IV_Binary (b : Binary)
| IV_Blank.

Definition aes_key (key : Binary) (iv : IV_Arg) (REF_decrypt : bool)
  : Result Error REBVAL :=
  iv ← match iv with
       | IV_Binary b =>
           if VAL_LEN_AT b <? AES_IV_SIZE then Fail Error_IV_Too_Short
           else Return (memcpy (zeros AES_IV_SIZE) (VAL_BIN_AT b) AES_IV_SIZE)
       | IV_Blank => Return (zeros AES_IV_SIZE)
       end;
  let len := to_REBINT (Z.shiftl (VAL_LEN_AT key) 3) in
  if negb (len =? 128) && negb (len =? 256) then
    Fail (Error_AES_Key_Length len)
  else
    let aes_ctx :=
      AES_set_key (VAL_BIN_AT key) iv
        (if len =? 128 then AES_MODE_128 else AES_MODE_256) in
    let aes_ctx :=
      if REF_decrypt then AES_convert_key aes_ctx else aes_ctx in
    Return (Handle_Value (Handle_AES aes_ctx)).

(** *** AES-STREAM *)

(** What a call of AES-STREAM leaves: the result (null, or the binary that
    [rebRepossess] makes of [data_out]), the temporary [pad_data] if one
    was allocated, and the context after the call. *)
Record Stream := mkStream {
  stream_result : option bytes;
  stream_pad_data : option bytes;
  stream_ctx : AES_CTX
}.

Definition aes_stream (ctx : Handle) (data : Binary)
  : Result Error Stream :=
  match ctx with
  | Handle_AES aes_ctx =>
      let dataBuffer := VAL_BIN_AT data in
      let len := to_REBINT (VAL_LEN_AT data) in
      if len =? 0 then Return (mkStream None None aes_ctx)
      else
        let pad_len :=
          to_REBINT (Z.shiftl (Z.shiftr (len - 1) 4) 4 + AES_BLOCKSIZE) in
        let pad_data :=
          if len <? pad_len
          then Some (memcpy (zeros pad_len) dataBuffer len)
          else None in
        let dataBuffer :=
          match pad_data with
          | Some p => p
          | None => dataBuffer
          end in
        let data_out := zeros pad_len in
        let '(aes_ctx', out) :=
          if key_mode_is_decrypt aes_ctx
          then AES_cbc_decrypt aes_ctx dataBuffer pad_len
          else AES_cbc_encrypt aes_ctx dataBuffer pad_len in
        Return (mkStream (Some (written data_out out)) pad_data aes_ctx')
  | _ => Fail Error_Not_AES_Context
  end.

End Definitions.

(** *** Toy routines, to run the natives *)

(** Stand-ins with the types of the vendored routines.  A context of the
    toy cipher is whether it decrypts and its IV; the cipher flips every
    bit. *)
Definition toy_Vendored : Vendored := {|
  crc32_z := fun crc d => crc + 32;
  z_adler32 := fun adler d => adler + 1;
  Compute_CRC24 := fun d => 24 + Z.of_nat (length d);
  Compute_IPC := fun d => 16;
  Hash_Bytes := fun d => Z.of_nat (length d);
  Digest_CTX := bytes;
  SHA1 := fun d => repeat x01 20;
  SHA1_Init := [];
  SHA1_Update := fun c d => c ++ d;
  SHA1_Final := fun c => repeat x01 20;
  MD5 := fun d => repeat x05 16;
  MD5_Init := [];
  MD5_Update := fun c d => c ++ d;
  MD5_Final := fun c => repeat x05 16;
  PART := Z;
  Part_Len_May_Modify_Index := fun b part =>
    match part with
    | None => Return (b, VAL_LEN_AT b)
    | Some n => Return (b, Z.min n (VAL_LEN_AT b))
    end;
  VAL_INT32 := fun z => Return z;
  AES_CTX := bool * bytes;
  key_mode_is_decrypt := fst;
  AES_set_key := fun key iv mode => (false, iv);
  AES_convert_key := fun c => (true, snd c);
  AES_cbc_encrypt := fun c d n => (c, map (fun b => byte_xor b xff) d);
  AES_cbc_decrypt := fun c d n => (c, map (fun b => byte_xor b xff) d)
|}.

Definition toy_ctx (decrypt : bool) (iv : bytes) : @AES_CTX toy_Vendored :=
  (decrypt, iv).

(** The toy routines with digests that depend on their input: 20 (or 16)
    times the exclusive or of its bytes; the context is the input so
    far. *)
Definition xor_fold (d : bytes) : byte := fold_right byte_xor x00 d.

Definition folding_Vendored : Vendored := {|
  crc32_z := @crc32_z toy_Vendored;
  z_adler32 := @z_adler32 toy_Vendored;
  Compute_CRC24 := @Compute_CRC24 toy_Vendored;
  Compute_IPC := @Compute_IPC toy_Vendored;
  Hash_Bytes := @Hash_Bytes toy_Vendored;
  Digest_CTX := bytes;
  SHA1 := fun d => repeat (xor_fold d) 20;
  SHA1_Init := [];
  SHA1_Update := fun c d => c ++ d;
  SHA1_Final := fun c => repeat (xor_fold c) 20;
  MD5 := fun d => repeat (xor_fold d) 16;
  MD5_Init := [];
  MD5_Update := fun c d => c ++ d;
  MD5_Final := fun c => repeat (xor_fold c) 16;
  PART := Z;
  Part_Len_May_Modify_Index := @Part_Len_May_Modify_Index toy_Vendored;
  VAL_INT32 := @VAL_INT32 toy_Vendored;
  AES_CTX := bool * bytes;
  key_mode_is_decrypt := @key_mode_is_decrypt toy_Vendored;
  AES_set_key := @AES_set_key toy_Vendored;
  AES_convert_key := @AES_convert_key toy_Vendored;
  AES_cbc_encrypt := @AES_cbc_encrypt toy_Vendored;
  AES_cbc_decrypt := @AES_cbc_decrypt toy_Vendored
|}.

Definition key_16 : Binary := mkBinary (repeat x07 16) 0.
Definition key_10 : Binary := mkBinary (repeat x07 10) 0.
Definition iv_20 : Binary := mkBinary (repeat x09 20) 0.
Definition iv_15 : Binary := mkBinary (repeat x09 15) 0.
Definition data_5 : Binary := mkBinary [x01; x02; x03; x04; x05] 0.
Definition data_0 : Binary := mkBinary [x01; x02] 2.

Definition plain_checksum (data : Binary) : @Checksum_Frame toy_Vendored :=
  @mkChecksum toy_Vendored data None false false None None None.

(** CHECKSUM/METHOD, with or without /SECURE, and CHECKSUM/KEY. *)
Definition method_checksum (data : Binary) (method : REBSYM) (secure : bool)
  : @Checksum_Frame toy_Vendored :=
  @mkChecksum toy_Vendored data None false secure None (Some method) None.

Definition key_checksum (data : Binary) (key : bytes)
  : @Checksum_Frame folding_Vendored :=
  @mkChecksum folding_Vendored data None false false None None (Some key).

Section Facts.

Context {vendored : Vendored}.

Lemma skipn_repeat {A} (x : A) n m :
  skipn n (repeat x m) = repeat x (m - n).
Proof.
  revert m. induction n as [|n IH]; intros m.
  - now rewrite Nat.sub_0_r.
  - destruct m as [|m]; [reflexivity|]. cbn. apply IH.
Qed.

Lemma written_length (buf out : bytes) :
  length (written buf out) = length buf.
Proof.
  unfold written. rewrite length_firstn, length_app, length_skipn. lia.
Qed.

Lemma zeros_length n : 0 <= n -> Z.of_nat (length (zeros n)) = n.
Proof. intros H. unfold zeros. rewrite repeat_length. lia. Qed.

(** [memcpy] of a whole buffer into a longer zeroed one pads it. *)
Lemma memcpy_pads (src : bytes) n :
  Z.of_nat (length src) <= n ->
  memcpy (zeros n) src (Z.of_nat (length src))
  = src ++ zeros (n - Z.of_nat (length src)).
Proof.
  intros H. unfold memcpy, zeros. rewrite Nat2Z.id, firstn_all.
  rewrite skipn_repeat. do 2 f_equal. lia.
Qed.

Lemma memcpy_prefix (src : bytes) n :
  n <= Z.of_nat (length src) -> 0 <= n ->
  memcpy (zeros n) src n = firstn (Z.to_nat n) src.
Proof.
  intros H H0. unfold memcpy, zeros. rewrite skipn_repeat.
  rewrite Nat.sub_diag. cbn. apply app_nil_r.
Qed.

(** [((len - 1) >> 4) << 4) + AES_BLOCKSIZE] rounds [len] up to 16. *)
Lemma pad_len_rounds len :
  0 < len ->
  Z.shiftl (Z.shiftr (len - 1) 4) 4 + AES_BLOCKSIZE
  = 16 * ((len + 15) / 16).
Proof.
  intros H. unfold AES_BLOCKSIZE.
  rewrite Z.shiftr_div_pow2, Z.shiftl_mul_pow2 by lia.
  change (2 ^ 4) with 16.
  replace (len + 15) with (len - 1 + 1 * 16) by lia.
  rewrite Z.div_add by lia. lia.
Qed.

Lemma round_up_16 len :
  0 < len ->
  (16 * ((len + 15) / 16)) mod 16 = 0
  /\ len <= 16 * ((len + 15) / 16) < len + 16
  /\ (len <? 16 * ((len + 15) / 16)) = negb (len mod 16 =? 0).
Proof.
  intros H.
  pose proof (Z.div_mod (len + 15) 16 ltac:(lia)) as E1.
  pose proof (Z.mod_pos_bound (len + 15) 16 ltac:(lia)) as B1.
  pose proof (Z.div_mod len 16 ltac:(lia)) as E2.
  pose proof (Z.mod_pos_bound len 16 ltac:(lia)) as B2.
  split; [|split].
  - rewrite Z.mul_comm. apply Z.mod_mul. lia.
  - lia.
  - destruct (Z.eqb_spec (len mod 16) 0) as [E|N]; cbn [negb].
    + apply Z.ltb_ge. lia.
    + apply Z.ltb_lt. lia.
Qed.

(** What a routine leaves in a zeroed buffer that it writes from the
    start: its output, then the zeros that it did not reach, cut to the
    size of the buffer. *)
Lemma written_zeros (out : bytes) n :
  0 <= n ->
  written (zeros n) out
  = firstn (Z.to_nat n) (out ++ zeros (n - Z.of_nat (length out))).
Proof.
  intros Hn. unfold written, zeros. rewrite repeat_length, skipn_repeat.
  do 3 f_equal. lia.
Qed.

(** C4. aes-stream result shape.  On an AES handle, data of length zero
    gives null; data of length [len] > 0 gives a binary of [len] rounded up
    to the next multiple of 16 bytes, whose bytes are those that CBC
    encryption, or decryption when the context is in decrypt mode, wrote
    for the data padded with zeros to that length (followed by zeros,
    should the cipher write less than the buffer holds: a cipher that
    writes as much as it reads gives the whole result); and the temporary
    padded copy is made only when [len] is not a multiple of 16. *)
Theorem aes_stream_result_shape (aes_ctx : AES_CTX) (data : Binary) :
  let len := Z.of_nat (length (VAL_BIN_AT data)) in
  len <= 2 ^ 31 - 16 ->
  (len = 0 ->
     aes_stream (Handle_AES aes_ctx) data
     = Return (mkStream None None aes_ctx))
  /\ (0 < len ->
      let pad_len := 16 * ((len + 15) / 16) in
      let padded := VAL_BIN_AT data ++ zeros (pad_len - len) in
      let cbc :=
        if key_mode_is_decrypt aes_ctx then AES_cbc_decrypt
        else AES_cbc_encrypt in
      let cipher := snd (cbc aes_ctx padded pad_len) in
      let out :=
        firstn (Z.to_nat pad_len)
          (cipher ++ repeat x00 (Z.to_nat pad_len - length cipher)) in
      aes_stream (Handle_AES aes_ctx) data
      = Return (mkStream (Some out)
                  (if len mod 16 =? 0 then None else Some padded)
                  (fst (cbc aes_ctx padded pad_len)))
      /\ (Z.of_nat (length cipher) = pad_len -> out = cipher)
      /\ Z.of_nat (length out) = pad_len
      /\ Z.of_nat (length padded) = pad_len
      /\ pad_len mod 16 = 0
      /\ len <= pad_len < len + 16).
Proof.
  intros len Hmax. subst len.
  set (len := Z.of_nat (length (VAL_BIN_AT data))) in *.
  assert (Hlen : to_REBINT (VAL_LEN_AT data) = len).
  { unfold VAL_LEN_AT. fold len.
    rewrite to_REBCNT_small by lia. apply to_REBINT_small. lia. }
  split.
  - intros H0. unfold aes_stream. rewrite Hlen, H0. reflexivity.
  - intros Hpos pad_len padded cbc cipher out.
    destruct (round_up_16 len Hpos) as (Hmod & Hb & Hlt).
    fold pad_len in Hmod, Hb, Hlt.
    assert (Hpad : to_REBINT
                     (Z.shiftl (Z.shiftr (len - 1) 4) 4 + AES_BLOCKSIZE)
                   = pad_len).
    { rewrite pad_len_rounds by assumption. apply to_REBINT_small.
      fold pad_len. lia. }
    assert (Hpadded : Z.of_nat (length padded) = pad_len).
    { unfold padded. rewrite length_app, Nat2Z.inj_add.
      rewrite zeros_length by lia. fold len. lia. }
    assert (Hout : written (zeros pad_len) cipher = out).
    { rewrite written_zeros by lia. unfold out, zeros.
      do 3 f_equal. lia. }
    split; [|split; [|split; [|split; [|split]]]];
      [| |rewrite <- Hout, written_length; apply zeros_length; lia
       |exact Hpadded|exact Hmod|exact Hb].
    + unfold aes_stream. rewrite Hlen, Hpad, Hlt.
      rewrite (proj2 (Z.eqb_neq len 0)) by lia.
      rewrite <- Hout. unfold cipher.
      destruct (Z.eqb_spec (len mod 16) 0) as [E|N]; cbn [negb].
      * assert (Hz : pad_len - len = 0).
        { pose proof (Z.div_mod len 16 ltac:(lia)).
          pose proof (Z.div_mod (len + 15) 16 ltac:(lia)).
          pose proof (Z.mod_pos_bound (len + 15) 16 ltac:(lia)).
          unfold pad_len. lia. }
        assert (Hsame : padded = VAL_BIN_AT data).
        { unfold padded. rewrite Hz. cbn. apply app_nil_r. }
        rewrite <- Hsame. unfold cbc.
        destruct (key_mode_is_decrypt aes_ctx);
          [now destruct (AES_cbc_decrypt aes_ctx padded pad_len)
          |now destruct (AES_cbc_encrypt aes_ctx padded pad_len)].
      * assert (Hm : memcpy (zeros pad_len) (VAL_BIN_AT data) len = padded).
        { unfold padded, len. apply memcpy_pads. fold len. lia. }
        rewrite !Hm. unfold cbc.
        destruct (key_mode_is_decrypt aes_ctx);
          [now destruct (AES_cbc_decrypt aes_ctx padded pad_len)
          |now destruct (AES_cbc_encrypt aes_ctx padded pad_len)].
    + intros Hc. unfold out.
      replace (Z.to_nat pad_len) with (length cipher) by lia.
      rewrite Nat.sub_diag. cbn [repeat]. rewrite app_nil_r.
      apply firstn_all.
Qed.

(** C9. The default of CHECKSUM.  With none of /METHOD, /SECURE, /KEY, /TCP
    and /HASH, the result is the integer that [Compute_CRC24] gives for the
    data (the part of the data that /PART leaves, all of it without /PART);
    if taking the part fails, that failure is the result. *)
Theorem checksum_default_is_CRC24 (f : Checksum_Frame) :
  ARG_method f = None ->
  REF_secure f = false ->
  ARG_key f = None ->
  REF_tcp f = false ->
  ARG_hash f = None ->
  checksum f
  = match Part_Len_May_Modify_Index (ARG_data f) (ARG_part f) with
    | Return (bin, length) =>
        Return (Integer
                  (Compute_CRC24 (firstn (Z.to_nat length) (VAL_BIN_AT bin))))
    | Fail e => Fail e
    end.
Proof.
  intros Hm Hs Hk Ht Hh. unfold checksum, REF_method, REF_key.
  rewrite Hm, Hs, Hk, Ht, Hh.
  destruct (Part_Len_May_Modify_Index (ARG_data f) (ARG_part f))
    as [[bin length]|e]; reflexivity.
Qed.

(** C10. The initialization vector of AES-KEY.  AES-KEY fails over its IV
    exactly when the IV is a binary of fewer than 16 bytes; a binary of 16
    bytes or more is taken, and only its first 16 bytes are used; a blank
    stands for 16 zero bytes.  With the IV so settled the only other
    failure is a key that is not of 128 or 256 bits. *)
Theorem aes_key_iv_tolerance (key : Binary) (iv : IV_Arg) (decrypt : bool) :
  let with_iv (iv16 : bytes) : Result Error REBVAL :=
    let len := to_REBINT (Z.shiftl (VAL_LEN_AT key) 3) in
    if negb (len =? 128) && negb (len =? 256)
    then Fail (Error_AES_Key_Length len)
    else
      let aes_ctx :=
        AES_set_key (VAL_BIN_AT key) iv16
          (if len =? 128 then AES_MODE_128 else AES_MODE_256) in
      Return (Handle_Value
                (Handle_AES (if decrypt then AES_convert_key aes_ctx
                             else aes_ctx))) in
  (aes_key key iv decrypt = Fail Error_IV_Too_Short
   <-> exists b, iv = IV_Binary b /\ VAL_LEN_AT b < 16)
  /\ (forall b,
        iv = IV_Binary b -> 16 <= VAL_LEN_AT b ->
        aes_key key iv decrypt = with_iv (firstn 16 (VAL_BIN_AT b))
        /\ length (firstn 16 (VAL_BIN_AT b)) = 16%nat)
  /\ (iv = IV_Blank ->
      aes_key key iv decrypt = with_iv (repeat x00 16)).
Proof.
  intros with_iv.
  assert (Hfin : forall iv16, with_iv iv16 <> Fail Error_IV_Too_Short).
  { intros iv16. unfold with_iv.
    destruct (negb _ && negb _); discriminate. }
  assert (Hbig : forall b, 16 <= VAL_LEN_AT b ->
                 aes_key key (IV_Binary b) decrypt
                 = with_iv (firstn 16 (VAL_BIN_AT b))
                 /\ length (firstn 16 (VAL_BIN_AT b)) = 16%nat).
  { intros b Hb.
    assert (Hl : 16 <= Z.of_nat (length (VAL_BIN_AT b))).
    { unfold VAL_LEN_AT, to_REBCNT in Hb.
      pose proof (Z.mod_le (Z.of_nat (length (VAL_BIN_AT b))) (2 ^ 32)
                    ltac:(lia) ltac:(lia)). lia. }
    split.
    - unfold aes_key, AES_IV_SIZE.
      rewrite (proj2 (Z.ltb_ge _ _) Hb). cbn [mbind Result_bind].
      rewrite memcpy_prefix by lia. reflexivity.
    - rewrite length_firstn. lia. }
  split; [|split].
  - split.
    + intros Hf. destruct iv as [b|].
      * exists b. split; [reflexivity|].
        destruct (Z.lt_ge_cases (VAL_LEN_AT b) 16) as [Hlt|Hge];
          [exact Hlt|].
        destruct (Hbig b Hge) as [E _]. rewrite E in Hf.
        now apply Hfin in Hf.
      * exfalso. apply (Hfin (zeros AES_IV_SIZE)). exact Hf.
    + intros (b & -> & Hlt). unfold aes_key, AES_IV_SIZE.
      now rewrite (proj2 (Z.ltb_lt _ _) Hlt).
  - intros b -> Hb. now apply Hbig.
  - intros ->. reflexivity.
Qed.

(** *** The refinements of CHECKSUM *)

(** X15. The raw methods of CHECKSUM and the methods it does not know.
    With /METHOD 'crc32 the result is the CRC-32 of the data as a signed
    32-bit integer, with /METHOD 'adler32 the Adler-32 as it is; either
    of them together with /SECURE or /KEY fails (bad refinements); and a
    method that is not a word of the system, or is none of CRC32,
    ADLER32, SHA1 and MD5, fails on the method. *)
Theorem checksum_raw_methods (f : Checksum_Frame) bin length :
  Part_Len_May_Modify_Index (ARG_data f) (ARG_part f)
  = Return (bin, length) ->
  let data := firstn (Z.to_nat length) (VAL_BIN_AT bin) in
  (ARG_method f = Some SYM_CRC32 -> REF_secure f = false ->
     ARG_key f = None ->
     checksum f = Return (Integer (to_REBINT (crc32_z 0 data)))
     /\ - 2 ^ 31 <= to_REBINT (crc32_z 0 data) < 2 ^ 31)
  /\ (ARG_method f = Some SYM_ADLER32 -> REF_secure f = false ->
      ARG_key f = None ->
      checksum f = Return (Integer (z_adler32 0 data)))
  /\ (ARG_method f = Some SYM_CRC32 \/ ARG_method f = Some SYM_ADLER32 ->
      REF_secure f = true \/ REF_key f = true ->
      checksum f = Fail Error_Bad_Refines_Raw)
  /\ (forall n,
        ARG_method f = Some SYM_0 \/ ARG_method f = Some (SYM_OTHER n) ->
        checksum f = Fail Error_PAR_method).
Proof.
  intros HP data. unfold checksum. rewrite HP. cbn [mbind Result_bind].
  fold data. unfold REF_method. repeat split.
  - rewrite H, H0. unfold REF_key. rewrite H1. reflexivity.
  - unfold to_REBINT.
    pose proof (Z.mod_pos_bound (crc32_z 0 data + 2 ^ 31) (2 ^ 32)). lia.
  - unfold to_REBINT.
    pose proof (Z.mod_pos_bound (crc32_z 0 data + 2 ^ 31) (2 ^ 32)). lia.
  - intros Hm Hs Hk. rewrite Hm, Hs. unfold REF_key. rewrite Hk.
    reflexivity.
  - intros [Hm|Hm] Hsk; rewrite Hm; cbn [mbind Result_bind orb
      SAME_SYM_NONZERO];
      (assert (E : REF_secure f || REF_key f = true)
         by (destruct Hsk as [-> | ->]; [reflexivity|apply orb_true_r]));
      now rewrite E.
  - intros n [Hm|Hm]; rewrite Hm; [reflexivity|].
    cbn [mbind Result_bind orb SAME_SYM_NONZERO digests List.find
         entry_sym]. reflexivity.
Qed.

(** X16. Which refinement of CHECKSUM wins.  With /METHOD, /SECURE or /KEY
    the result does not depend on /TCP and /HASH; without them /TCP wins
    over /HASH, and /HASH with a size of one or less gives zero; and
    /SECURE or /KEY without /METHOD is the method SHA1. *)
Theorem checksum_refinement_precedence (f : Checksum_Frame) :
  (REF_method f || REF_secure f || REF_key f = true ->
     forall tcp hash, checksum (with_tcp_hash f tcp hash) = checksum f)
  /\ (REF_method f || REF_secure f || REF_key f = false ->
      REF_tcp f = true ->
      forall hash, checksum (with_tcp_hash f true hash) = checksum f)
  /\ (REF_method f || REF_secure f || REF_key f = false ->
      REF_tcp f = false ->
      forall size bin length,
        ARG_hash f = Some size ->
        Part_Len_May_Modify_Index (ARG_data f) (ARG_part f)
        = Return (bin, length) ->
        VAL_INT32 size = Return size -> size <= 1 ->
        checksum f = Return (Integer 0))
  /\ (ARG_method f = None -> REF_secure f || REF_key f = true ->
      checksum (with_method f (Some SYM_SHA1)) = checksum f).
Proof.
  repeat split.
  - intros H tcp hash. unfold checksum, with_tcp_hash, REF_method, REF_key
      in *.
    cbn [ARG_data ARG_part REF_tcp REF_secure ARG_hash ARG_method ARG_key].
    now rewrite H.
  - intros H Ht hash. unfold checksum, with_tcp_hash, REF_method, REF_key
      in *.
    cbn [ARG_data ARG_part REF_tcp REF_secure ARG_hash ARG_method ARG_key].
    now rewrite H, Ht.
  - intros H Ht size bin length Hh HP Hi Hle.
    unfold checksum. rewrite HP. cbn [mbind Result_bind].
    unfold REF_method, REF_key in *.
    destruct (ARG_method f); [discriminate|].
    cbn [mbind Result_bind]. rewrite H, Ht, Hh, Hi.
    cbn [mbind Result_bind].
    rewrite (proj2 (Z.leb_le size 1) Hle). now rewrite Z.rem_1_r.
  - intros Hm H. unfold checksum, with_method, REF_method, REF_key in *.
    cbn [ARG_data ARG_part REF_tcp REF_secure ARG_hash ARG_method ARG_key].
    rewrite Hm. cbn [orb]. now rewrite H.
Qed.

(** *** The keyed digest *)

Lemma written_firstn (buf out : bytes) :
  (length out <= length buf)%nat ->
  firstn (length out) (written buf out) = out.
Proof.
  intros H. unfold written.
  rewrite firstn_firstn, Nat.min_l by assumption.
  rewrite firstn_app, Nat.sub_diag, firstn_all. cbn. apply app_nil_r.
Qed.

Lemma skipn_zeros n m :
  0 <= n <= m -> skipn (Z.to_nat n) (zeros m) = zeros (m - n).
Proof.
  intros H. unfold zeros. rewrite skipn_repeat. f_equal. lia.
Qed.

(** The keyed branch of the digest loop computes the HMAC of RFC 2104
    for the digest of the entry. *)
Lemma hmac_rfc2104 (d : Digest) (e : Digest_Entry) (key data : bytes) :
  (forall a b,
     final d (update d (update d (init d) a) b) = digest d (a ++ b)) ->
  (forall x, Z.of_nat (length (digest d x)) = entry_len e) ->
  entry_len e <= 20 -> entry_len e <= entry_hmacblock e ->
  let block := entry_hmacblock e in
  let K := if block <? Z.of_nat (length key) then digest d key else key in
  let K0 := K ++ zeros (block - Z.of_nat (length K)) in
  hmac d e key data
  = digest d (map (fun b => byte_xor b x5c) K0
              ++ digest d (map (fun b => byte_xor b x36) K0 ++ data)).
Proof.
  intros Hstream Hlen H20 Hblock block K K0.
  assert (HL : forall x, length (digest d x) = Z.to_nat (entry_len e))
    by (intros x; specialize (Hlen x); lia).
  assert (Hpad : (let '(key_bytes, key_size) :=
                    if block <? Z.of_nat (length key)
                    then (written (zeros 20) (digest d key), entry_len e)
                    else (key, Z.of_nat (length key)) in
                  memcpy (zeros block) key_bytes key_size) = K0).
  { unfold K0, K. fold block.
    destruct (Z.ltb_spec block (Z.of_nat (length key))) as [Hlong|Hshort].
    - unfold memcpy. rewrite <- (HL key).
      rewrite written_firstn
        by (unfold zeros; rewrite repeat_length, HL; lia).
      rewrite HL, skipn_zeros by (specialize (Hlen key); lia).
      rewrite Z2Nat.id by (specialize (Hlen key); lia). reflexivity.
    - apply memcpy_pads. exact Hshort. }
  unfold hmac. fold block.
  destruct (block <? Z.of_nat (length key));
    rewrite Hpad, !Hstream;
    rewrite <- (HL (map (fun b => byte_xor b x36) K0 ++ data));
    (rewrite written_firstn
       by (unfold zeros; rewrite repeat_length, HL; lia));
    reflexivity.
Qed.

(** X17. CHECKSUM/KEY is the HMAC of RFC 2104.  For the digests of the
    table (SHA1, which is also the method when none is given, and MD5),
    whose one-call form agrees with their init/update/final form and
    gives as many bytes as the table says, CHECKSUM with /KEY returns
    H ((K0 xor opad) ++ H ((K0 xor ipad) ++ data)), where K0 is the key,
    or its digest when the key is longer than the block of 64 bytes,
    filled up with zeros to the block, ipad is 0x36 and opad is 0x5c. *)
Theorem checksum_key_is_HMAC (f : Checksum_Frame) bin part_len key e d :
  Part_Len_May_Modify_Index (ARG_data f) (ARG_part f)
  = Return (bin, part_len) ->
  ARG_key f = Some key ->
  In e digests -> routines e = Some d ->
  ARG_method f = Some (entry_sym e)
  \/ (ARG_method f = None /\ entry_sym e = SYM_SHA1) ->
  (forall a b,
     final d (update d (update d (init d) a) b) = digest d (a ++ b)) ->
  (forall x, Z.of_nat (length (digest d x)) = entry_len e) ->
  let data := firstn (Z.to_nat part_len) (VAL_BIN_AT bin) in
  let block := entry_hmacblock e in
  let K := if block <? Z.of_nat (length key) then digest d key else key in
  let K0 := K ++ zeros (block - Z.of_nat (length K)) in
  checksum f
  = Return (Binary_Value
              (digest d (map (fun b => byte_xor b x5c) K0
                         ++ digest d (map (fun b => byte_xor b x36) K0
                                      ++ data)))).
Proof.
  intros HP Hk He Hd Hm Hstream Hlen.
  assert (Hsym : match ARG_method f with
                 | Some SYM_0 => Fail Error_PAR_method
                 | Some sym => Return sym
                 | None => Return SYM_SHA1
                 end = Return (entry_sym e)
                 /\ (entry_sym e = SYM_SHA1 \/ entry_sym e = SYM_MD5)
                 /\ entry_len e <= 20 /\ entry_len e <= entry_hmacblock e).
  { unfold digests in He. cbn [In] in He.
    destruct He as [<-|[<-|[<-|[]]]];
      cbn [routines entry_sym entry_len entry_hmacblock] in *.
    - destruct Hm as [->|[-> _]];
        (split; [reflexivity|split; [now left|lia]]).
    - destruct Hm as [->|[_ Hn]]; [|discriminate].
      split; [reflexivity|split; [now right|lia]].
    - discriminate. }
  destruct Hsym as (Hsym & Hwhich & H20 & Hblock).
  intros data block K K0.
  unfold checksum. rewrite HP. cbn [mbind Result_bind]. rewrite Hsym.
  cbn [mbind Result_bind]. unfold REF_key. rewrite Hk.
  rewrite !orb_true_r.
  assert (Hfind : List.find
                    (fun e' => SAME_SYM_NONZERO (entry_sym e') (entry_sym e))
                    digests = Some e).
  { unfold digests in He |- *. cbn [In] in He.
    destruct He as [<-|[<-|[<-|[]]]]; [reflexivity|reflexivity|].
    discriminate. }
  destruct Hwhich as [Hw|Hw]; rewrite Hw in *; cbn [SAME_SYM_NONZERO];
    rewrite Hfind, Hd; fold data;
    rewrite (hmac_rfc2104 d e key data Hstream Hlen H20 Hblock);
    fold block K K0;
    (rewrite firstn_all2; [reflexivity|]);
    specialize (Hlen (map (fun b => byte_xor b x5c) K0
                      ++ digest d (map (fun b => byte_xor b x36) K0
                                   ++ data)));
    lia.
Qed.

(** *** The key of AES-KEY, in bytes *)

Lemma to_REBINT_shift n w :
  0 <= n < 2 ^ 32 -> 0 <= w < 2 ^ 28 ->
  to_REBINT (Z.shiftl n 3) = 8 * w <-> n mod 2 ^ 29 = w.
Proof.
  intros Hn Hw. unfold to_REBINT. rewrite Z.shiftl_mul_pow2 by lia.
  change (2 ^ 3) with 8. change (2 ^ 31) with 2147483648 in *.
  change (2 ^ 32) with 4294967296 in *. change (2 ^ 29) with 536870912.
  change (2 ^ 28) with 268435456 in *.
  split; intros H.
  - pose proof (Z.div_mod (n * 8 + 2147483648) 4294967296 ltac:(lia)) as E.
    symmetry.
    apply (Z.mod_unique n 536870912
             ((n * 8 + 2147483648) / 4294967296) w); lia.
  - pose proof (Z.div_mod n 536870912 ltac:(lia)) as E.
    assert (E' : 8 * w + 2147483648
                 = (n * 8 + 2147483648) mod 4294967296)
      by (apply (Z.mod_unique _ _ (n / 536870912)); lia).
    lia.
Qed.

Lemma to_REBINT_shift_128 n :
  0 <= n < 2 ^ 32 ->
  to_REBINT (Z.shiftl n 3) = 128 <-> n mod 2 ^ 29 = 16.
Proof. intros Hn. apply (to_REBINT_shift n 16 Hn). lia. Qed.

Lemma to_REBINT_shift_256 n :
  0 <= n < 2 ^ 32 ->
  to_REBINT (Z.shiftl n 3) = 256 <-> n mod 2 ^ 29 = 32.
Proof. intros Hn. apply (to_REBINT_shift n 32 Hn). lia. Qed.

Lemma VAL_LEN_AT_range (b : Binary) : 0 <= VAL_LEN_AT b < 2 ^ 32.
Proof. unfold VAL_LEN_AT, to_REBCNT. apply Z.mod_pos_bound. lia. Qed.

(** The IV that AES-KEY settles on, when it does not fail over it. *)
Definition settled_iv (iv : IV_Arg) : bytes :=
  match iv with
  | IV_Binary b => firstn 16 (VAL_BIN_AT b)
  | IV_Blank => repeat x00 16
  end.

(** X18. The key of AES-KEY, in bytes.  With an IV that is blank or has 16
    bytes or more, AES-KEY succeeds exactly when the key has 16 or 32
    bytes (the count is taken times eight in 32 bits, so modulo 2^29);
    16 bytes make an AES-128 context, 32 bytes an AES-256 context, turned
    into a decryption context by /DECRYPT; every other length fails over
    the key length. *)
Theorem aes_key_length (key : Binary) (iv : IV_Arg) (decrypt : bool) :
  match iv with
  | IV_Binary b => 16 <= VAL_LEN_AT b
  | IV_Blank => True
  end ->
  let n := VAL_LEN_AT key in
  let made mode :=
    let aes_ctx := AES_set_key (VAL_BIN_AT key) (settled_iv iv) mode in
    Return (Handle_Value
              (Handle_AES (if decrypt then AES_convert_key aes_ctx
                           else aes_ctx))) in
  (n mod 2 ^ 29 = 16 -> aes_key key iv decrypt = made AES_MODE_128)
  /\ (n mod 2 ^ 29 = 32 -> aes_key key iv decrypt = made AES_MODE_256)
  /\ (n mod 2 ^ 29 <> 16 -> n mod 2 ^ 29 <> 32 ->
      aes_key key iv decrypt
      = Fail (Error_AES_Key_Length (to_REBINT (Z.shiftl n 3))))
  /\ (n < 2 ^ 29 ->
      ((exists h, aes_key key iv decrypt = Return h)
       <-> n = 16 \/ n = 32)).
Proof.
  intros Hiv n made.
  pose proof (VAL_LEN_AT_range key) as Hn. fold n in Hn.
  pose proof (to_REBINT_shift_128 n Hn) as H128.
  pose proof (to_REBINT_shift_256 n Hn) as H256.
  assert (Hrun : aes_key key iv decrypt
                 = let len := to_REBINT (Z.shiftl n 3) in
                   if negb (len =? 128) && negb (len =? 256)
                   then Fail (Error_AES_Key_Length len)
                   else made (if len =? 128 then AES_MODE_128
                              else AES_MODE_256)).
  { unfold aes_key, made, settled_iv, AES_IV_SIZE. destruct iv as [b|].
    - rewrite (proj2 (Z.ltb_ge _ _) Hiv). cbn [mbind Result_bind].
      rewrite memcpy_prefix; [reflexivity| |lia].
      unfold VAL_LEN_AT, to_REBCNT in Hiv.
      pose proof (Z.mod_le (Z.of_nat (length (VAL_BIN_AT b))) (2 ^ 32)
                    ltac:(lia) ltac:(lia)). lia.
    - reflexivity. }
  assert (H16 : n mod 2 ^ 29 = 16 -> aes_key key iv decrypt
                                     = made AES_MODE_128).
  { intros E. rewrite Hrun. cbn zeta.
    now rewrite (proj2 (Z.eqb_eq _ _) (proj2 H128 E)). }
  assert (H32 : n mod 2 ^ 29 = 32 -> aes_key key iv decrypt
                                     = made AES_MODE_256).
  { intros E. rewrite Hrun. cbn zeta.
    rewrite (proj2 (Z.eqb_eq _ 256) (proj2 H256 E)).
    now rewrite (proj2 (Z.eqb_neq _ 128)) by lia. }
  assert (Hbad : n mod 2 ^ 29 <> 16 -> n mod 2 ^ 29 <> 32 ->
                 aes_key key iv decrypt
                 = Fail (Error_AES_Key_Length (to_REBINT (Z.shiftl n 3)))).
  { intros N16 N32. rewrite Hrun. cbn zeta.
    rewrite (proj2 (Z.eqb_neq _ 128)) by tauto.
    now rewrite (proj2 (Z.eqb_neq _ 256)) by tauto. }
  repeat split; try assumption.
  - intros (h & Hh).
    rewrite Z.mod_small in * by lia.
    destruct (Z.eq_dec n 16) as [|N16]; [now left|].
    destruct (Z.eq_dec n 32) as [|N32]; [now right|].
    rewrite (Hbad N16 N32) in Hh. discriminate.
  - rewrite Z.mod_small in * by lia.
    intros [E|E]; [rewrite (H16 E)|rewrite (H32 E)]; unfold made;
      eexists; reflexivity.
Qed.

(** *** Encrypting and decrypting with AES-STREAM *)

Lemma written_whole (out : bytes) n :
  Z.of_nat (length out) = n -> written (zeros n) out = out.
Proof.
  intros H. unfold written, zeros. rewrite repeat_length.
  rewrite firstn_app. replace (Z.to_nat n) with (length out) by lia.
  rewrite firstn_all, Nat.sub_diag. cbn. apply app_nil_r.
Qed.

(** What AES-STREAM hands to the cipher and back, for data that is not
    empty. *)
Lemma aes_stream_padded (aes_ctx : AES_CTX) (data : Binary) :
  let len := Z.of_nat (length (VAL_BIN_AT data)) in
  0 < len <= 2 ^ 31 - 16 ->
  let pad_len := 16 * ((len + 15) / 16) in
  let padded := VAL_BIN_AT data ++ zeros (pad_len - len) in
  let cbc :=
    if key_mode_is_decrypt aes_ctx then AES_cbc_decrypt
    else AES_cbc_encrypt in
  exists pad_data,
    aes_stream (Handle_AES aes_ctx) data
    = Return (mkStream
                (Some (written (zeros pad_len)
                         (snd (cbc aes_ctx padded pad_len))))
                pad_data (fst (cbc aes_ctx padded pad_len)))
    /\ Z.of_nat (length padded) = pad_len
    /\ pad_len mod 16 = 0.
Proof.
  intros len Hlen0 pad_len padded cbc.
  assert (Hpos : 0 < len) by lia.
  assert (Hlen : to_REBINT (VAL_LEN_AT data) = len).
  { unfold VAL_LEN_AT. fold len.
    rewrite to_REBCNT_small by lia. apply to_REBINT_small. lia. }
  destruct (round_up_16 len Hpos) as (Hmod & Hb & Hlt).
  fold pad_len in Hmod, Hb, Hlt.
  assert (Hpad : to_REBINT
                   (Z.shiftl (Z.shiftr (len - 1) 4) 4 + AES_BLOCKSIZE)
                 = pad_len).
  { rewrite pad_len_rounds by assumption. apply to_REBINT_small.
    fold pad_len. lia. }
  assert (Hpadded : Z.of_nat (length padded) = pad_len).
  { unfold padded. rewrite length_app, Nat2Z.inj_add.
    rewrite zeros_length by lia. fold len. lia. }
  exists (if len mod 16 =? 0 then None else Some padded).
  split; [|split; [exact Hpadded|exact Hmod]].
  unfold aes_stream. rewrite Hlen, Hpad, Hlt.
  rewrite (proj2 (Z.eqb_neq len 0)) by lia.
  destruct (Z.eqb_spec (len mod 16) 0) as [E|N]; cbn [negb].
  - assert (Hz : pad_len - len = 0).
    { pose proof (Z.div_mod len 16 ltac:(lia)).
      pose proof (Z.div_mod (len + 15) 16 ltac:(lia)).
      pose proof (Z.mod_pos_bound (len + 15) 16 ltac:(lia)).
      unfold pad_len. lia. }
    assert (Hsame : padded = VAL_BIN_AT data).
    { unfold padded. rewrite Hz. cbn. apply app_nil_r. }
    rewrite <- Hsame. unfold cbc.
    destruct (key_mode_is_decrypt aes_ctx);
      [now destruct (AES_cbc_decrypt aes_ctx padded pad_len)
      |now destruct (AES_cbc_encrypt aes_ctx padded pad_len)].
  - assert (Hm : memcpy (zeros pad_len) (VAL_BIN_AT data) len = padded).
    { unfold padded, len. apply memcpy_pads. fold len. lia. }
    rewrite !Hm. unfold cbc.
    destruct (key_mode_is_decrypt aes_ctx);
      [now destruct (AES_cbc_decrypt aes_ctx padded pad_len)
      |now destruct (AES_cbc_encrypt aes_ctx padded pad_len)].
Qed.

(** X19. Encrypting and then decrypting with AES-STREAM.  If the vendored
    cipher is sound (a context made by [AES_set_key] encrypts, one turned
    by [AES_convert_key] decrypts, and on whole blocks the second undoes
    the first and keeps the length), then for contexts made by AES-KEY
    from one key and IV, without and with /DECRYPT, the stream decrypted
    is the data that was encrypted followed by the zero bytes that filled
    its last block: the length of the data is not kept. *)
Theorem aes_stream_round_trip (key : Binary) (iv : IV_Arg) (data : Binary)
    (enc dec : AES_CTX) :
  (forall k i m, key_mode_is_decrypt (AES_set_key k i m) = false) ->
  (forall c, key_mode_is_decrypt (AES_convert_key c) = true) ->
  (forall k i m x n,
     Z.of_nat (length x) = n -> n mod 16 = 0 ->
     let y := snd (AES_cbc_encrypt (AES_set_key k i m) x n) in
     Z.of_nat (length y) = n
     /\ snd (AES_cbc_decrypt (AES_convert_key (AES_set_key k i m)) y n)
        = x) ->
  aes_key key iv false = Return (Handle_Value (Handle_AES enc)) ->
  aes_key key iv true = Return (Handle_Value (Handle_AES dec)) ->
  let len := Z.of_nat (length (VAL_BIN_AT data)) in
  0 < len <= 2 ^ 31 - 16 ->
  exists s1 out s2,
    aes_stream (Handle_AES enc) data = Return s1
    /\ stream_result s1 = Some out
    /\ aes_stream (Handle_AES dec) (mkBinary out 0) = Return s2
    /\ stream_result s2
       = Some (VAL_BIN_AT data ++ zeros (16 * ((len + 15) / 16) - len)).
Proof.
  intros Henc Hdec Hsound Hke Hkd len Hlen.
  set (pad_len := 16 * ((len + 15) / 16)).
  set (padded := VAL_BIN_AT data ++ zeros (pad_len - len)).
  (* the two contexts come from the same [AES_set_key] *)
  assert (Hctx : exists k i m,
             enc = AES_set_key k i m
             /\ dec = AES_convert_key (AES_set_key k i m)).
  { unfold aes_key in Hke, Hkd.
    destruct (match iv with
              | IV_Binary b =>
                  if VAL_LEN_AT b <? AES_IV_SIZE
                  then Fail Error_IV_Too_Short
                  else Return (memcpy (zeros AES_IV_SIZE) (VAL_BIN_AT b)
                                 AES_IV_SIZE)
              | IV_Blank => Return (zeros AES_IV_SIZE)
              end) as [iv16|err]; cbn [mbind Result_bind] in Hke, Hkd;
      [|discriminate].
    destruct (negb _ && negb _); [discriminate|].
    injection Hke as <-. injection Hkd as <-.
    do 3 eexists. split; reflexivity. }
  destruct Hctx as (k & i & m & -> & ->).
  destruct (aes_stream_padded (AES_set_key k i m) data Hlen)
    as (pad1 & Hrun1 & Hpadded & Hmod).
  fold len pad_len padded in Hrun1, Hpadded, Hmod.
  rewrite Henc in Hrun1.
  destruct (Hsound k i m padded pad_len Hpadded Hmod) as [Hylen Hback].
  set (y := snd (AES_cbc_encrypt (AES_set_key k i m) padded pad_len)) in *.
  assert (Hpos : 0 < pad_len).
  { destruct (round_up_16 len ltac:(lia)) as (_ & Hb & _).
    fold pad_len in Hb. lia. }
  assert (Hmax : pad_len <= 2 ^ 31 - 16).
  { destruct (round_up_16 len ltac:(lia)) as (Hm16 & Hb & _).
    fold pad_len in Hm16, Hb.
    pose proof (Z.div_mod pad_len 16 ltac:(lia)).
    change (2 ^ 31) with 2147483648 in *. lia. }
  assert (Hout : written (zeros pad_len) y = y)
    by now apply written_whole.
  rewrite Hout in Hrun1.
  assert (Hy : VAL_BIN_AT (mkBinary y 0) = y) by reflexivity.
  destruct (aes_stream_padded (AES_convert_key (AES_set_key k i m))
              (mkBinary y 0)) as (pad2 & Hrun2 & _ & _).
  { rewrite Hy, Hylen. lia. }
  rewrite Hy, Hylen, Hdec in Hrun2.
  assert (Hsame : 16 * ((pad_len + 15) / 16) = pad_len).
  { pose proof (Z.div_mod pad_len 16 ltac:(lia)).
    pose proof (Z.div_mod (pad_len + 15) 16 ltac:(lia)).
    pose proof (Z.mod_pos_bound (pad_len + 15) 16 ltac:(lia)).
    lia. }
  rewrite Hsame, Z.sub_diag in Hrun2.
  replace (y ++ zeros 0) with y in Hrun2 by (cbn; now rewrite app_nil_r).
  rewrite Hback in Hrun2.
  rewrite written_whole in Hrun2 by exact Hpadded.
  do 3 eexists. split; [exact Hrun1|]. split; [reflexivity|].
  split; [exact Hrun2|]. reflexivity.
Qed.

End Facts.

(** *** The toy routines, run *)

Section Toy.

#[local] Existing Instance toy_Vendored.

Example checksum_plain :
  checksum (plain_checksum data_5) = Return (Integer 29).
Proof. reflexivity. Qed.

Lemma checksum_default_is_CRC24_witness :
  checksum (plain_checksum data_5) = Return (Integer (Compute_CRC24 (BIN_HEAD data_5))).
Proof.
  exact (checksum_default_is_CRC24 (plain_checksum data_5)
           eq_refl eq_refl eq_refl eq_refl eq_refl).
Defined.

(** A key of 10 bytes fails for its length, whatever the IV. *)
Example aes_key_10_bytes :
  aes_key key_10 IV_Blank false = Fail (Error_AES_Key_Length 80).
Proof. reflexivity. Qed.

Example aes_key_iv_15 :
  aes_key key_16 (IV_Binary iv_15) false = Fail Error_IV_Too_Short.
Proof. reflexivity. Qed.

Example aes_key_iv_20 :
  aes_key key_16 (IV_Binary iv_20) false
  = Return (Handle_Value (Handle_AES (toy_ctx false (repeat x09 16)))).
Proof. reflexivity. Qed.

Lemma aes_key_iv_tolerance_witness :
  aes_key key_16 (IV_Binary iv_15) false = Fail Error_IV_Too_Short
  /\ aes_key key_16 (IV_Binary iv_20) true
     = Return (Handle_Value (Handle_AES (toy_ctx true (repeat x09 16))))
  /\ aes_key key_16 IV_Blank false
     = Return (Handle_Value (Handle_AES (toy_ctx false (repeat x00 16)))).
Proof.
  split; [|split].
  - destruct (aes_key_iv_tolerance key_16 (IV_Binary iv_15) false)
      as ((_ & H) & _).
    apply H. exists iv_15. split; [reflexivity|]. vm_compute. reflexivity.
  - destruct (aes_key_iv_tolerance key_16 (IV_Binary iv_20) true)
      as (_ & H & _).
    destruct (H iv_20 eq_refl) as [E _]; [vm_compute; discriminate|].
    exact E.
  - destruct (aes_key_iv_tolerance key_16 IV_Blank false) as (_ & _ & H).
    exact (H eq_refl).
Defined.

Example aes_stream_5_bytes :
  aes_stream (Handle_AES (toy_ctx false [])) data_5
  = Return (mkStream
              (Some ([xfe; xfd; xfc; xfb; xfa] ++ repeat xff 11))
              (Some ([x01; x02; x03; x04; x05] ++ repeat x00 11))
              (toy_ctx false [])).
Proof. reflexivity. Qed.

Example aes_stream_16_bytes :
  aes_stream (Handle_AES (toy_ctx false [])) key_16
  = Return (mkStream (Some (repeat xf8 16)) None (toy_ctx false [])).
Proof. reflexivity. Qed.

Lemma aes_stream_result_shape_witness :
  aes_stream (Handle_AES (toy_ctx false [])) data_0
  = Return (mkStream None None (toy_ctx false []))
  /\ aes_stream (Handle_AES (toy_ctx false [])) data_5
     = Return (mkStream
                 (Some ([xfe; xfd; xfc; xfb; xfa] ++ repeat xff 11))
                 (Some ([x01; x02; x03; x04; x05] ++ repeat x00 11))
                 (toy_ctx false [])).
Proof.
  split.
  - destruct (aes_stream_result_shape (toy_ctx false []) data_0) as (H & _).
    + vm_compute. discriminate.
    + apply H. reflexivity.
  - destruct (aes_stream_result_shape (toy_ctx false []) data_5) as (_ & H).
    + vm_compute. discriminate.
    + destruct H as (E & _); [reflexivity|]. exact E.
Defined.

Lemma checksum_raw_methods_witness :
  checksum (method_checksum data_5 SYM_CRC32 false) = Return (Integer 32)
  /\ checksum (method_checksum data_5 SYM_ADLER32 true)
     = Fail Error_Bad_Refines_Raw
  /\ checksum (method_checksum data_5 (SYM_OTHER 7) false)
     = Fail Error_PAR_method.
Proof.
  split; [|split].
  - destruct (checksum_raw_methods (method_checksum data_5 SYM_CRC32 false)
                data_5 5 eq_refl) as (H & _).
    apply H; reflexivity.
  - destruct (checksum_raw_methods (method_checksum data_5 SYM_ADLER32 true)
                data_5 5 eq_refl) as (_ & _ & H & _).
    apply H; [right|left]; reflexivity.
  - destruct (checksum_raw_methods
                (method_checksum data_5 (SYM_OTHER 7) false)
                data_5 5 eq_refl) as (_ & _ & _ & H).
    apply (H 7%nat). right. reflexivity.
Defined.

Lemma checksum_refinement_precedence_witness :
  checksum (with_tcp_hash (method_checksum data_5 SYM_MD5 false) true
              (Some 10))
  = checksum (method_checksum data_5 SYM_MD5 false).
Proof.
  destruct (checksum_refinement_precedence
              (method_checksum data_5 SYM_MD5 false)) as (H & _).
  apply H. reflexivity.
Defined.

Lemma aes_key_length_witness :
  aes_key key_16 IV_Blank false
  = Return (Handle_Value (Handle_AES (toy_ctx false (repeat x00 16))))
  /\ aes_key key_10 IV_Blank false = Fail (Error_AES_Key_Length 80).
Proof.
  split.
  - destruct (aes_key_length key_16 IV_Blank false I) as (H & _).
    apply H. reflexivity.
  - destruct (aes_key_length key_10 IV_Blank false I) as (_ & _ & H & _).
    apply H; vm_compute; discriminate.
Defined.

Lemma byte_xor_ff_twice (b : byte) : byte_xor (byte_xor b xff) xff = b.
Proof. destruct b; reflexivity. Qed.

Lemma aes_stream_round_trip_witness :
  exists s1 out s2,
    aes_stream (Handle_AES (toy_ctx false (repeat x00 16))) data_5
    = Return s1
    /\ stream_result s1 = Some out
    /\ aes_stream (Handle_AES (toy_ctx true (repeat x00 16)))
         (mkBinary out 0) = Return s2
    /\ stream_result s2
       = Some ([x01; x02; x03; x04; x05] ++ repeat x00 11).
Proof.
  apply (aes_stream_round_trip key_16 IV_Blank data_5
           (toy_ctx false (repeat x00 16)) (toy_ctx true (repeat x00 16))).
  - intros k i m. reflexivity.
  - intros c. reflexivity.
  - intros k i m x n Hx Hn. cbn. split.
    + now rewrite length_map.
    + rewrite map_map. rewrite <- (map_id x) at 2.
      apply map_ext. intros b. apply byte_xor_ff_twice.
  - reflexivity.
  - reflexivity.
  - vm_compute. split; [reflexivity|discriminate].
Defined.

End Toy.

Section Folding.

#[local] Existing Instance folding_Vendored.

(** A key of three bytes on the five bytes of data. *)
Lemma checksum_key_is_HMAC_witness :
  checksum (key_checksum data_5 [x0b; x0c; x0d])
  = Return (Binary_Value (repeat x0a 20)).
Proof.
  exact (checksum_key_is_HMAC (key_checksum data_5 [x0b; x0c; x0d])
           data_5 5 [x0b; x0c; x0d]
           (mkEntry (Some (mkDigest SHA1 SHA1_Init SHA1_Update SHA1_Final))
              SYM_SHA1 20 64)
           (mkDigest SHA1 SHA1_Init SHA1_Update SHA1_Final)
           eq_refl eq_refl (or_introl eq_refl) eq_refl
           (or_intror (conj eq_refl eq_refl))
           (fun a b => eq_refl) (fun x => eq_refl)).
Defined.

End Folding.

End Crypt.

(** ** %mod-lodepng.c *)

Module Png.

Abbreviation bytes := (list byte).

(** The custom zlib hooks of %mod-lodepng.c. *)
Inductive Zlib_Hook :=
| no_custom_zlib
| rebol_zlib_decompress
| rebol_zlib_compress.

(** The fields of [LodePNGState] that the natives set. *)
Record LodePNGState := mkState {
  decoder_custom_zlib : Zlib_Hook;
  decoder_custom_context : option Z;
  decoder_color_convert : Z;
  info_png_colortype : Z;
  info_png_bitdepth : Z
}.

Definition set_decoder_zlib (s : LodePNGState) (hook : Zlib_Hook)
    (context : option Z) : LodePNGState :=
  mkState hook context (decoder_color_convert s) (info_png_colortype s)
    (info_png_bitdepth s).

Definition set_decoder_rgba8 (s : LodePNGState) (LCT_RGBA : Z)
  : LodePNGState :=
  mkState (decoder_custom_zlib s) (decoder_custom_context s) 1 LCT_RGBA 8.

(** What the natives return or raise. *)
Inductive REBVAL :=
| Logic (b : bool)
| Image (width height : Z) (pixels : bytes).

Inductive Error :=
| Error_LodePNG (text : Z).  (* fail (lodepng_error_text(error)) *)

(** LodePNG itself, which is vendored: the initial state, the inspection
    of the header (error code, width, height) and the decoder (error code,
    RGBA bytes, width, height); and the positions of the channels in a
    pixel of an IMAGE!. *)
Class LodePNG := {
  lodepng_state_init : LodePNGState;
  lodepng_inspect : LodePNGState -> bytes -> Z * Z * Z;
  lodepng_decode : LodePNGState -> bytes -> Z * bytes * Z * Z;
  lodepng_error_text : Z -> Z;
  LCT_RGBA : Z;
  C_R : nat;
  C_G : nat;
  C_B : nat;
  C_A : nat
}.

(** The fields of [LodePNGState] that encode-png sets besides the output
    format in [info_png]: the zlib hook of the encoder, the input format
    and the automatic choice of a format. *)
Record LodePNGEncoder := mkEncoder {
  encoder_custom_zlib : Zlib_Hook;
  encoder_custom_context : option Z;
  info_raw_colortype : Z;
  info_raw_bitdepth : Z;
  encoder_auto_convert : Z
}.

(** The encoder of LodePNG: state, settings, pixels, width and height
    give an error code and the encoded bytes. *)
Class LodePNG_Encode := {
  lodepng_encoder_init : LodePNGEncoder;
  lodepng_encode :
    LodePNGState -> LodePNGEncoder -> bytes -> Z -> Z -> Z * bytes
}.

Section Definitions.

Context {lodepng : LodePNG}.

Definition identify_png_q (data : bytes) : Result Error REBVAL :=
  let state := lodepng_state_init in
  (* use the zlib already built into Rebol for DECOMPRESS, inflate() *)
  let state := set_decoder_zlib state rebol_zlib_decompress (Some 5) in
  let '(error, width, height) := lodepng_inspect state data in
  if negb (error =? 0) then Return (Logic false)
  else Return (Logic true).

(** The loop of decode-png on one pixel: four bytes of the decoder go to
    the channel positions of the image. *)
Definition store_pixel (src : bytes) : bytes :=
  match src with
  | [r; g; b; a] =>
      <[C_A := a]> (<[C_B := b]> (<[C_G := g]> (<[C_R := r]>
        [x00; x00; x00; xff])))
  | _ => src
  end.

Fixpoint store_pixels (count : nat) (src : bytes) : bytes :=
  match count with
  | O => []
  | S count' =>
      store_pixel (firstn 4 src) ++ store_pixels count' (skipn 4 src)
  end.

Definition decode_png (data : bytes) : Result Error REBVAL :=
  let state := lodepng_state_init in
  let state := set_decoder_zlib state rebol_zlib_decompress (Some 5) in
  let state := set_decoder_rgba8 state LCT_RGBA in
  let '(error, image_bytes, width, height) := lodepng_decode state data in
  if negb (error =? 0) then Fail (Error_LodePNG (lodepng_error_text error))
  else
    Return (Image width height
              (store_pixels (Z.to_nat (to_REBCNT (width * height)))
                 image_bytes)).

(** The positions of the four channels in a pixel of an IMAGE!: each of
    0 to 3, once. *)
Definition channel_layout : Prop :=
  (C_R < 4 /\ C_G < 4 /\ C_B < 4 /\ C_A < 4)%nat
  /\ C_R <> C_G /\ C_R <> C_B /\ C_R <> C_A
  /\ C_G <> C_B /\ C_G <> C_A /\ C_B <> C_A.

Context {encoder : LodePNG_Encode}.

(** The loop of encode-png: [dest[0] = src[C_R]] and so on, [src] moving
    on by four bytes each time. *)
Fixpoint reorder_pixels (count : nat) (src : bytes) : bytes :=
  match count with
  | O => []
  | S count' =>
      [nth C_R src x00; nth C_G src x00; nth C_B src x00; nth C_A src x00]
      ++ reorder_pixels count' (skipn 4 src)
  end.

Definition set_info_png (s : LodePNGState) (colortype bitdepth : Z)
  : LodePNGState :=
  mkState (decoder_custom_zlib s) (decoder_custom_context s)
    (decoder_color_convert s) colortype bitdepth.

(** What encode-png hands to LodePNG as pixels: the bytes of the image
    when its channels already are in the order R, G, B, A, a reordered
    copy otherwise. *)
Definition encoder_input (width height : Z) (image_bytes : bytes) : bytes :=
  if (C_R =? 0)%nat && (C_G =? 1)%nat && (C_B =? 2)%nat && (C_A =? 3)%nat
  then image_bytes
  else reorder_pixels (Z.to_nat (to_REBCNT (width * height))) image_bytes.

(** encode-png on an IMAGE! of the given width, height and bytes. *)
Definition encode_png (width height : Z) (image_bytes : bytes)
  : Result Error bytes :=
  let state := lodepng_state_init in
  let settings :=
    mkEncoder rebol_zlib_compress (Some 5) LCT_RGBA 8 0 in
  let state := set_info_png state LCT_RGBA 8 in
  let '(error, encoded_bytes) :=
    lodepng_encode state settings (encoder_input width height image_bytes)
      width height in
  if negb (error =? 0) then Fail (Error_LodePNG (lodepng_error_text error))
  else Return encoded_bytes.

End Definitions.

(** *** A toy codec, to run the natives *)

Definition png_signature : bytes :=
  [x89; x50; x4e; x47; x0d; x0a; x1a; x0a].

Fixpoint bytes_eqb (a b : bytes) : bool :=
  match a, b with
  | [], [] => true
  | x :: a', y :: b' => Byte.eqb x y && bytes_eqb a' b'
  | _, _ => false
  end.

(** The toy codec looks for the eight bytes that start a PNG file, as
    LodePNG does first (error 28, after 27 for fewer than 33 bytes and 48
    for none), and says 1 by 1. *)
Definition toy_LodePNG : LodePNG := {|
  lodepng_state_init := mkState no_custom_zlib None 1 6 8;
  lodepng_inspect := fun s d =>
    if (length d =? 0)%nat then (48, 0, 0)
    else if (length d <? 33)%nat then (27, 0, 0)
    else if bytes_eqb (firstn 8 d) png_signature then (0, 1, 1)
    else (28, 0, 0);
  lodepng_decode := fun s d =>
    if bytes_eqb (firstn 8 d) png_signature
    then (0, [x0a; x0b; x0c; x0d], 1, 1)
    else (28, [], 0, 0);
  lodepng_error_text := fun e => e;
  LCT_RGBA := 6;
  C_R := 2;
  C_G := 1;
  C_B := 0;
  C_A := 3
|}.

(** The toy encoder puts the eight bytes in front of the pixels. *)
Definition toy_Encode : LodePNG_Encode := {|
  lodepng_encoder_init := mkEncoder no_custom_zlib None 6 8 1;
  lodepng_encode := fun s e pixels w h =>
    if (length pixels =? 0)%nat then (48, [])
    else (0, png_signature ++ pixels)
|}.

Section Facts.

Context {lodepng : LodePNG}.
Context {encoder : LodePNG_Encode}.

(** C8. identify-png? is total.  For every binary it returns a logic value
    and never raises: true when the inspection of the header by LodePNG
    reports no error, false when it reports one (as it does for input that
    is empty or is not a PNG); only [lodepng_inspect] is run, not the
    decoder. *)
Theorem identify_png_q_never_fails (data : bytes) :
  let error :=
    fst (fst (lodepng_inspect
                (set_decoder_zlib lodepng_state_init
                   rebol_zlib_decompress (Some 5)) data)) in
  identify_png_q data = Return (Logic (error =? 0))
  /\ (error <> 0 -> identify_png_q data = Return (Logic false))
  /\ (forall e, identify_png_q data <> Fail e).
Proof.
  intros error. subst error. unfold identify_png_q.
  destruct (lodepng_inspect _ data) as [[error width] height].
  cbn [fst]. destruct (Z.eqb_spec error 0) as [E|N]; cbn [negb].
  - repeat split; [contradiction|discriminate].
  - repeat split; discriminate.
Qed.

(** The decoder, for contrast, raises on the error of LodePNG. *)
Lemma decode_png_fails (data : bytes) :
  let error :=
    fst (fst (fst (lodepng_decode
                     (set_decoder_rgba8
                        (set_decoder_zlib lodepng_state_init
                           rebol_zlib_decompress (Some 5)) LCT_RGBA)
                     data))) in
  error <> 0 ->
  decode_png data = Fail (Error_LodePNG (lodepng_error_text error)).
Proof.
  intros error. subst error. unfold decode_png.
  destruct (lodepng_decode _ data) as [[[error image_bytes] width] height].
  cbn [fst]. intros N. now rewrite (proj2 (Z.eqb_neq _ _) N).
Qed.

(** *** The order of the channels *)

(** One pixel: the four bytes land where the layout says. *)
Lemma store_pixel_channels r g b a :
  channel_layout ->
  length (store_pixel [r; g; b; a]) = 4%nat
  /\ nth C_R (store_pixel [r; g; b; a]) x00 = r
  /\ nth C_G (store_pixel [r; g; b; a]) x00 = g
  /\ nth C_B (store_pixel [r; g; b; a]) x00 = b
  /\ nth C_A (store_pixel [r; g; b; a]) x00 = a.
Proof.
  unfold channel_layout, store_pixel.
  intros ((HR & HG & HB & HA) & N1 & N2 & N3 & N4 & N5 & N6).
  destruct C_R as [|[|[|[|?]]]]; [| | | |exfalso; lia];
    (destruct C_G as [|[|[|[|?]]]]; [| | | |exfalso; lia];
     try congruence);
    (destruct C_B as [|[|[|[|?]]]]; [| | | |exfalso; lia];
     try congruence);
    (destruct C_A as [|[|[|[|?]]]]; [| | | |exfalso; lia];
     try congruence);
    repeat split.
Qed.

Lemma firstn_4 (src : bytes) :
  (4 <= length src)%nat ->
  exists r g b a, firstn 4 src = [r; g; b; a].
Proof.
  destruct src as [|r [|g [|b [|a rest]]]]; cbn; try lia.
  intros _. now exists r, g, b, a.
Qed.

Lemma firstn_4_more (src : bytes) n :
  firstn (4 + n) src = firstn 4 src ++ firstn n (skipn 4 src).
Proof.
  destruct src as [|r [|g [|b [|a rest]]]]; cbn; try reflexivity;
    now destruct n.
Qed.

Lemma nth_skipn_4 (src : bytes) j :
  nth j (skipn 4 src) x00 = nth (4 + j) src x00.
Proof.
  destruct src as [|r [|g [|b [|a rest]]]]; cbn; try reflexivity;
    now destruct j.
Qed.

Lemma nth_app_front (l1 l2 : bytes) i :
  (i < length l1)%nat -> nth i (l1 ++ l2) x00 = nth i l1 x00.
Proof. intros H. now apply app_nth1. Qed.

Lemma skipn_app_front (l1 l2 : bytes) :
  skipn (length l1) (l1 ++ l2) = l2.
Proof.
  rewrite skipn_app, skipn_all, Nat.sub_diag. reflexivity.
Qed.

(** X20. The image that decode-png builds.  With the four channels at
    distinct positions 0 to 3, the loop of decode-png makes of the first
    [4 * count] bytes of the decoder, taken as R, G, B, A, an image of
    [4 * count] bytes in which pixel [i] has its red at [4 * i + C_R], its
    green at [4 * i + C_G], its blue at [4 * i + C_B] and its alpha at
    [4 * i + C_A]. *)
Theorem store_pixels_channels count :
  channel_layout ->
  forall src,
    (4 * count <= length src)%nat ->
    length (store_pixels count src) = (4 * count)%nat
    /\ forall i,
         (i < count)%nat ->
         nth (4 * i + C_R) (store_pixels count src) x00
         = nth (4 * i) src x00
         /\ nth (4 * i + C_G) (store_pixels count src) x00
            = nth (4 * i + 1) src x00
         /\ nth (4 * i + C_B) (store_pixels count src) x00
            = nth (4 * i + 2) src x00
         /\ nth (4 * i + C_A) (store_pixels count src) x00
            = nth (4 * i + 3) src x00.
Proof.
  intros Hlay. pose proof Hlay as ((HR & HG & HB & HA) & _).
  induction count as [|count IH]; intros src Hlen.
  - split; [reflexivity|]. intros i Hi. lia.
  - cbn [store_pixels].
    destruct (firstn_4 src ltac:(lia)) as (r & g & b & a & E4).
    rewrite E4.
    destruct (store_pixel_channels r g b a Hlay)
      as (L4 & ER & EG & EB & EA).
    destruct (IH (skipn 4 src)) as (Lrest & Hrest).
    { rewrite length_skipn. lia. }
    split; [rewrite length_app, L4, Lrest; lia|].
    assert (Hsrc : src = [r; g; b; a] ++ skipn 4 src)
      by (rewrite <- E4; symmetry; apply firstn_skipn).
    intros [|i] Hi.
    + rewrite !Nat.mul_0_r, !Nat.add_0_l.
      rewrite !nth_app_front by lia.
      rewrite ER, EG, EB, EA. rewrite Hsrc. repeat split.
    + destruct (Hrest i ltac:(lia)) as (IR & IG & IB & IA).
      replace (4 * S i + C_R)%nat with (4 + (4 * i + C_R))%nat by lia.
      replace (4 * S i + C_G)%nat with (4 + (4 * i + C_G))%nat by lia.
      replace (4 * S i + C_B)%nat with (4 + (4 * i + C_B))%nat by lia.
      replace (4 * S i + C_A)%nat with (4 + (4 * i + C_A))%nat by lia.
      pose proof (fun j => app_nth2_plus (store_pixel [r; g; b; a])
                            (store_pixels count (skipn 4 src)) x00 j)
        as Hfront.
      rewrite L4 in Hfront. rewrite !Hfront.
      rewrite IR, IG, IB, IA, !nth_skipn_4.
      repeat split; f_equal; lia.
Qed.

(** The loop of encode-png undoes the loop of decode-png. *)
Lemma reorder_store_pixels count :
  channel_layout ->
  forall src,
    (4 * count <= length src)%nat ->
    reorder_pixels count (store_pixels count src) = firstn (4 * count) src.
Proof.
  intros Hlay. pose proof Hlay as ((HR & HG & HB & HA) & _).
  induction count as [|count IH]; intros src Hlen; [reflexivity|].
  cbn [store_pixels reorder_pixels].
  destruct (firstn_4 src ltac:(lia)) as (r & g & b & a & E4).
  rewrite E4.
  destruct (store_pixel_channels r g b a Hlay) as (L4 & ER & EG & EB & EA).
  rewrite !nth_app_front by lia. rewrite ER, EG, EB, EA.
  rewrite <- L4 at 1. rewrite skipn_app_front.
  rewrite IH by (rewrite length_skipn; lia).
  replace (4 * S count)%nat with (4 + 4 * count)%nat by lia.
  now rewrite firstn_4_more, E4.
Qed.

Lemma store_pixels_identity count :
  C_R = 0%nat -> C_G = 1%nat -> C_B = 2%nat -> C_A = 3%nat ->
  forall src,
    (4 * count <= length src)%nat ->
    store_pixels count src = firstn (4 * count) src.
Proof.
  intros ER EG EB EA.
  induction count as [|count IH]; intros src Hlen; [reflexivity|].
  cbn [store_pixels].
  destruct (firstn_4 src ltac:(lia)) as (r & g & b & a & E4).
  rewrite E4. unfold store_pixel. rewrite ER, EG, EB, EA. cbn [insert].
  rewrite IH by (rewrite length_skipn; lia).
  replace (4 * S count)%nat with (4 + 4 * count)%nat by lia.
  now rewrite firstn_4_more, E4.
Qed.

(** X21. decode-png and then encode-png.  With the four channels at
    distinct positions 0 to 3, whatever their order, encode-png on an
    image that decode-png made hands to the encoder of LodePNG the very
    RGBA bytes that the decoder of LodePNG gave, [4 * width * height] of
    them, with the same width and height, RGBA of 8 bits as input and as
    output format and the zlib of Rebol as compressor; it fails exactly
    when that call reports an error. *)
Theorem encode_png_of_decode_png (data : bytes) width height pixels :
  channel_layout ->
  decode_png data = Return (Image width height pixels) ->
  let image_bytes :=
    snd (fst (fst (lodepng_decode
                     (set_decoder_rgba8
                        (set_decoder_zlib lodepng_state_init
                           rebol_zlib_decompress (Some 5)) LCT_RGBA)
                     data))) in
  0 <= width * height < 2 ^ 32 ->
  4 * (width * height) <= Z.of_nat (length image_bytes) ->
  let '(error, encoded_bytes) :=
    lodepng_encode (set_info_png lodepng_state_init LCT_RGBA 8)
      (mkEncoder rebol_zlib_compress (Some 5) LCT_RGBA 8 0)
      (firstn (Z.to_nat (4 * (width * height))) image_bytes)
      width height in
  encode_png width height pixels
  = if error =? 0 then Return encoded_bytes
    else Fail (Error_LodePNG (lodepng_error_text error)).
Proof.
  intros Hlay Hdec image_bytes Hwh Hlen.
  unfold decode_png in Hdec. subst image_bytes.
  destruct (lodepng_decode _ data) as [[[error image_bytes] w] h].
  cbn [fst snd] in *.
  destruct (error =? 0); cbn [negb] in Hdec; [|discriminate].
  injection Hdec as <- <- <-.
  rewrite to_REBCNT_small by lia.
  set (count := Z.to_nat (w * h)).
  assert (Hcount : (4 * count <= length image_bytes)%nat) by lia.
  assert (Hin : encoder_input w h (store_pixels count image_bytes)
                = firstn (Z.to_nat (4 * (w * h))) image_bytes).
  { unfold encoder_input. rewrite to_REBCNT_small by lia. fold count.
    replace (Z.to_nat (4 * (w * h))) with (4 * count)%nat by lia.
    destruct ((C_R =? 0)%nat && (C_G =? 1)%nat && (C_B =? 2)%nat
              && (C_A =? 3)%nat) eqn:Eid.
    - apply andb_true_iff in Eid as [Eid EA].
      apply andb_true_iff in Eid as [Eid EB].
      apply andb_true_iff in Eid as [ER EG].
      apply Nat.eqb_eq in ER, EG, EB, EA.
      now apply store_pixels_identity.
    - now apply reorder_store_pixels. }
  unfold encode_png. rewrite Hin.
  destruct (lodepng_encode _ _ _ w h) as [err encoded].
  now destruct (err =? 0).
Qed.

End Facts.

(** *** The toy codec, run *)

Section Toy.

#[local] Existing Instance toy_LodePNG.

Example identify_empty : identify_png_q [] = Return (Logic false).
Proof. reflexivity. Qed.

Example identify_noise :
  identify_png_q (repeat x2a 40) = Return (Logic false).
Proof. reflexivity. Qed.

Example identify_header :
  identify_png_q (png_signature ++ repeat x00 25) = Return (Logic true).
Proof. reflexivity. Qed.

Example decode_empty : decode_png [] = Fail (Error_LodePNG 28).
Proof. reflexivity. Qed.

Example decode_pixel :
  decode_png png_signature = Return (Image 1 1 [x0c; x0b; x0a; x0d]).
Proof. reflexivity. Qed.

Lemma identify_png_q_never_fails_witness :
  identify_png_q [] = Return (Logic false)
  /\ identify_png_q (repeat x2a 40) = Return (Logic false).
Proof.
  split.
  - destruct (identify_png_q_never_fails []) as (_ & H & _).
    apply H. vm_compute. discriminate.
  - destruct (identify_png_q_never_fails (repeat x2a 40)) as (_ & H & _).
    apply H. vm_compute. discriminate.
Defined.

#[local] Existing Instance toy_Encode.

(** The toy image has its channels in the order B, G, R, A. *)
Lemma toy_channel_layout : channel_layout.
Proof. unfold channel_layout. cbn. repeat split; lia. Defined.

Example encode_pixel :
  encode_png 1 1 [x0c; x0b; x0a; x0d]
  = Return (png_signature ++ [x0a; x0b; x0c; x0d]).
Proof. reflexivity. Qed.

Lemma store_pixels_channels_witness :
  length (store_pixels 2 [x0a; x0b; x0c; x0d; x1a; x1b; x1c; x1d]) = 8%nat
  /\ nth (4 * 1 + C_R)
       (store_pixels 2 [x0a; x0b; x0c; x0d; x1a; x1b; x1c; x1d]) x00
     = x1a
  /\ nth (4 * 1 + C_B)
       (store_pixels 2 [x0a; x0b; x0c; x0d; x1a; x1b; x1c; x1d]) x00
     = x1c.
Proof.
  destruct (store_pixels_channels 2 toy_channel_layout
              [x0a; x0b; x0c; x0d; x1a; x1b; x1c; x1d]) as [L H].
  - cbn. lia.
  - destruct (H 1%nat) as (ER & _ & EB & _); [lia|].
    split; [exact L|]. split; [exact ER|exact EB].
Defined.

Lemma encode_png_of_decode_png_witness :
  encode_png 1 1 [x0c; x0b; x0a; x0d]
  = Return (png_signature ++ [x0a; x0b; x0c; x0d]).
Proof.
  assert (Hwh : 0 <= 1 * 1 < 2 ^ 32) by lia.
  assert (Hlen : 4 * (1 * 1)
                 <= Z.of_nat (length [x0a; x0b; x0c; x0d]))
    by (vm_compute; discriminate).
  exact (encode_png_of_decode_png png_signature 1 1 [x0c; x0b; x0a; x0d]
           toy_channel_layout eq_refl Hwh Hlen).
Defined.

End Toy.

End Png.

(** ** %sys-image.h *)

Module Image.

Abbreviation bytes := (list byte).

(** An IMAGE! value: the bytes of the binary in the singular array behind
    it, the index of that binary, and the width and height that the array
    keeps in its link and misc fields. *)
Record Image := mkImage {
  VAL_IMAGE_HEAD : bytes;
  VAL_IMAGE_POS : Z;
  VAL_IMAGE_WIDTH : Z;
  VAL_IMAGE_HEIGHT : Z
}.

Definition set_VAL_IMAGE_POS (v : Image) (pos : Z) : Image :=
  mkImage (VAL_IMAGE_HEAD v) pos (VAL_IMAGE_WIDTH v) (VAL_IMAGE_HEIGHT v).

Definition VAL_IMAGE_LEN_HEAD (v : Image) : Z :=
  to_REBCNT (VAL_IMAGE_HEIGHT v * VAL_IMAGE_WIDTH v).

Definition VAL_IMAGE_LEN_AT (v : Image) : Z :=
  if VAL_IMAGE_LEN_HEAD v <=? VAL_IMAGE_POS v then 0
  else to_REBCNT (VAL_IMAGE_LEN_HEAD v - VAL_IMAGE_POS v).

(** One opaque black pixel. *)
Definition black_opaque : bytes := [x00; x00; x00; xff].

(** The [while] of [RESET_IMAGE]; [start] and [stop] are offsets into the
    buffer [p], and [fuel] bounds the number of rounds. *)
Fixpoint RESET_IMAGE_loop (fuel : nat) (p : bytes) (start stop : nat)
  : bytes :=
  match fuel with
  | O => p
  | S fuel' =>
      if (start <? stop)%nat then
        let p := <[start := x00]> p in          (* red *)
        let p := <[(start + 1)%nat := x00]> p in  (* green *)
        let p := <[(start + 2)%nat := x00]> p in  (* blue *)
        let p := <[(start + 3)%nat := xff]> p in  (* opaque alpha *)
        RESET_IMAGE_loop fuel' p (start + 4) stop
      else p
  end.

(** [RESET_IMAGE (p, num_pixels)]: [stop] is [num_pixels * 4] in 32 bits;
    every round moves [start] on, so [stop] rounds are enough. *)
Definition RESET_IMAGE (p : bytes) (num_pixels : Z) : bytes :=
  let stop := Z.to_nat (to_REBCNT (num_pixels * 4)) in
  RESET_IMAGE_loop stop p 0 stop.

Section Definitions.

(** [Make_Binary (size)] followed by [SET_SERIES_LEN (bin, size)]: the
    bytes of the new binary, which nothing has written yet. *)
Variable Make_Binary : Z -> bytes.

Definition Init_Image (bin : bytes) (width height : Z) : Image :=
  mkImage bin 0 width height.

Definition Init_Image_Black_Opaque (w h : Z) : Image :=
  let size := to_REBCNT (to_REBCNT (w * h) * 4) in
  let bin := Make_Binary size in
  let bin := RESET_IMAGE bin (to_REBCNT (w * h)) in
  Init_Image bin w h.

End Definitions.

(** *** A sample allocator *)

(** Fresh memory that holds whatever was there before. *)
Definition sample_Make_Binary (size : Z) : bytes :=
  repeat x5a (Z.to_nat size).

Section Facts.

Variable Make_Binary : Z -> bytes.

(** Four writes from [start] on replace four bytes. *)
Lemma write_pixel (p : bytes) start :
  (start + 4 <= length p)%nat ->
  <[(start + 3)%nat := xff]>
    (<[(start + 2)%nat := x00]>
       (<[(start + 1)%nat := x00]> (<[start := x00]> p)))
  = firstn start p ++ black_opaque ++ skipn (start + 4) p.
Proof.
  revert p. induction start as [|start IH]; intros p H.
  - destruct p as [|b0 [|b1 [|b2 [|b3 rest]]]]; cbn in H; try lia.
    reflexivity.
  - destruct p as [|b0 p]; cbn in H; [lia|].
    cbn. f_equal. apply IH. lia.
Qed.

Lemma RESET_IMAGE_loop_fills pixels :
  forall fuel (p : bytes) start,
    (pixels <= fuel)%nat ->
    (start + 4 * pixels <= length p)%nat ->
    RESET_IMAGE_loop fuel p start (start + 4 * pixels)
    = firstn start p ++ concat (repeat black_opaque pixels)
      ++ skipn (start + 4 * pixels) p.
Proof.
  induction pixels as [|pixels IH]; intros fuel p start Hfuel Hlen.
  - rewrite Nat.mul_0_r, Nat.add_0_r. cbn [repeat concat app].
    rewrite firstn_skipn.
    destruct fuel; cbn [RESET_IMAGE_loop]; [reflexivity|].
    now rewrite Nat.ltb_irrefl.
  - destruct fuel as [|fuel]; [lia|]. cbn [RESET_IMAGE_loop].
    rewrite (proj2 (Nat.ltb_lt _ _)) by lia.
    rewrite write_pixel by lia.
    set (p' := firstn start p ++ black_opaque ++ skipn (start + 4) p).
    assert (Lp : length (firstn start p) = start)
      by (rewrite length_firstn; lia).
    assert (Lp' : length p' = length p).
    { unfold p'. rewrite !length_app, Lp, length_skipn. cbn. lia. }
    replace (start + 4 * S pixels)%nat
      with (start + 4 + 4 * pixels)%nat by lia.
    rewrite IH by lia.
    assert (Hfirst : firstn (start + 4) p'
                     = firstn start p ++ black_opaque).
    { unfold p'. rewrite app_assoc.
      replace (start + 4)%nat
        with (length (firstn start p ++ black_opaque))
        by (rewrite length_app, Lp; reflexivity).
      rewrite firstn_app, Nat.sub_diag, firstn_all. cbn.
      now rewrite app_nil_r. }
    assert (Hlast : skipn (start + 4 + 4 * pixels) p'
                    = skipn (start + 4 + 4 * pixels) p).
    { unfold p'. rewrite app_assoc.
      rewrite skipn_app.
      rewrite (skipn_all2 (firstn start p ++ black_opaque))
        by (rewrite length_app, Lp; cbn; lia).
      rewrite length_app, Lp. cbn [length black_opaque app].
      rewrite skipn_skipn. f_equal. lia. }
    rewrite Hfirst, Hlast. cbn [repeat concat].
    now rewrite <- !app_assoc.
Qed.

Lemma concat_black_length n :
  length (concat (repeat black_opaque n)) = (4 * n)%nat.
Proof.
  induction n as [|n IH]; [reflexivity|].
  cbn [repeat concat]. rewrite length_app, IH. cbn. lia.
Qed.

(** X22. A black opaque image.  [Init_Image_Black_Opaque (w, h)] gives an
    image of width [w] and height [h] whose binary is [w * h * 4] bytes in
    32 bits (so less than that above 2^32), every pixel of it 0, 0, 0,
    0xff whatever the new binary held before; its length in pixels, at
    the head and at its position, is [w * h] in 32 bits; and the length
    at a position never goes below zero. *)
Theorem Init_Image_Black_Opaque_pixels (w h : Z) :
  (forall size, 0 <= size -> Z.of_nat (length (Make_Binary size)) = size) ->
  0 <= w < 2 ^ 32 -> 0 <= h < 2 ^ 32 ->
  let v := Init_Image_Black_Opaque Make_Binary w h in
  let size := to_REBCNT (w * h * 4) in
  VAL_IMAGE_HEAD v = concat (repeat black_opaque (Z.to_nat (size / 4)))
  /\ Z.of_nat (length (VAL_IMAGE_HEAD v)) = size
  /\ (w * h * 4 < 2 ^ 32 ->
      Z.of_nat (length (VAL_IMAGE_HEAD v)) = w * h * 4)
  /\ VAL_IMAGE_WIDTH v = w /\ VAL_IMAGE_HEIGHT v = h
  /\ VAL_IMAGE_LEN_HEAD v = to_REBCNT (h * w)
  /\ VAL_IMAGE_LEN_AT v = to_REBCNT (h * w)
  /\ (forall pos,
        0 <= pos < 2 ^ 32 ->
        VAL_IMAGE_LEN_AT (set_VAL_IMAGE_POS v pos)
        = Z.max 0 (VAL_IMAGE_LEN_HEAD v - pos)).
Proof.
  intros Hmake Hw Hh v size.
  assert (Hsize : to_REBCNT (to_REBCNT (w * h) * 4) = size).
  { unfold size, to_REBCNT. rewrite Z.mul_mod_idemp_l by lia.
    reflexivity. }
  assert (Hrange : 0 <= size < 2 ^ 32)
    by (unfold size, to_REBCNT; apply Z.mod_pos_bound; lia).
  assert (H4 : size = 4 * (size / 4)).
  { unfold size, to_REBCNT.
    change (2 ^ 32) with (4 * 1073741824).
    rewrite (Z.mul_comm (w * h) 4), Zmult_mod_distr_l.
    rewrite (Z.mul_comm 4 (_ mod _)), Z.div_mul by lia. lia. }
  set (pixels := Z.to_nat (size / 4)).
  assert (Hstop : Z.to_nat size = (0 + 4 * pixels)%nat)
    by (unfold pixels; lia).
  assert (Hhead : VAL_IMAGE_HEAD v = concat (repeat black_opaque pixels)).
  { unfold v, Init_Image_Black_Opaque, Init_Image, RESET_IMAGE.
    cbn [VAL_IMAGE_HEAD]. rewrite Hsize.
    pose proof (Hmake size (proj1 Hrange)) as Hlen.
    rewrite Hstop at 2. rewrite RESET_IMAGE_loop_fills by lia.
    cbn [firstn app]. rewrite skipn_all2 by lia. apply app_nil_r. }
  assert (Hlen : Z.of_nat (length (VAL_IMAGE_HEAD v)) = size)
    by (rewrite Hhead, concat_black_length; lia).
  assert (Hpos : 0 <= to_REBCNT (h * w) < 2 ^ 32)
    by (unfold to_REBCNT; apply Z.mod_pos_bound; lia).
  unfold VAL_IMAGE_LEN_AT, VAL_IMAGE_LEN_HEAD.
  cbn [v Init_Image_Black_Opaque Init_Image VAL_IMAGE_POS VAL_IMAGE_WIDTH
       VAL_IMAGE_HEIGHT set_VAL_IMAGE_POS].
  repeat split; try assumption.
  - intros Hsmall. rewrite Hlen. unfold size. apply to_REBCNT_small.
    nia.
  - destruct (Z.leb_spec (to_REBCNT (h * w)) 0) as [H0|H0]; [lia|].
    rewrite Z.sub_0_r. apply to_REBCNT_small. exact Hpos.
  - intros pos Hp.
    destruct (Z.leb_spec (to_REBCNT (h * w)) pos) as [H0|H0]; [lia|].
    rewrite to_REBCNT_small by lia. lia.
Qed.

End Facts.

(** *** The sample allocator, run *)

Example black_2_by_1 :
  Init_Image_Black_Opaque sample_Make_Binary 2 1
  = mkImage [x00; x00; x00; xff; x00; x00; x00; xff] 0 2 1.
Proof. reflexivity. Qed.

(** 65536 by 65536 pixels: the size is zero in 32 bits. *)
Example black_65536_squared :
  Init_Image_Black_Opaque sample_Make_Binary 65536 65536
  = mkImage [] 0 65536 65536.
Proof. reflexivity. Qed.

Lemma Init_Image_Black_Opaque_pixels_witness :
  VAL_IMAGE_HEAD (Init_Image_Black_Opaque sample_Make_Binary 2 1)
  = [x00; x00; x00; xff; x00; x00; x00; xff]
  /\ VAL_IMAGE_LEN_AT (Init_Image_Black_Opaque sample_Make_Binary 2 1) = 2.
Proof.
  destruct (Init_Image_Black_Opaque_pixels sample_Make_Binary 2 1)
    as (Hhead & _ & _ & _ & _ & _ & Hat & _).
  - intros size Hsize. unfold sample_Make_Binary.
    rewrite repeat_length. lia.
  - lia.
  - lia.
  - split; [exact Hhead|exact Hat].
Defined.

End Image.

(** ** %t-object.c: Append_To_Context *)

(** The function that the APPEND of [Context.T_Context] calls, on the
    keys and variables of one context. *)

Module Append.

Local Open Scope nat_scope.

(** The kinds of ANY-WORD!: the two that a block of names and values may
    use for a name, and the others. *)
Inductive Word_Kind := REB_WORD | REB_SET_WORD | REB_OTHER_WORD (kind : nat).

(** A cell of the argument block: a word with its spelling, or a value of
    another kind. *)
Inductive Item :=
| Item_Word (kind : Word_Kind) (spelling : nat)
| Item_Other (value : nat).

(** The argument of APPEND. *)
Inductive Arg :=
| Arg_Word (kind : Word_Kind) (spelling : nat)
| Arg_Block (array : list Item)   (* from [VAL_ARRAY_AT (arg)] to the end *)
| Arg_Other (value : nat).

(** What a variable of a context holds. *)
Inductive Var :=
| Var_Void                (* the value that [Append_Context] starts with *)
| Var_Blank
| Var_Item (v : Item).

(** A key of the keylist with the variable of the varlist beside it. *)
Record Slot := mkSlot {
  VAL_KEY_SPELLING : nat;
  Is_Param_Hidden : bool;
  var_PROTECTED : bool;   (* [GET_CELL_FLAG (var, PROTECTED)] *)
  var : Var
}.

Definition set_var (s : Slot) (v : Var) : Slot :=
  mkSlot (VAL_KEY_SPELLING s) (Is_Param_Hidden s) (var_PROTECTED s) v.

(** A slot without its variable: key, hidden bit and protection. *)
Definition frame_of (s : Slot) : nat * bool * bool :=
  (VAL_KEY_SPELLING s, Is_Param_Hidden s, var_PROTECTED s).

(** The slots 1 to [CTX_LEN] of a context. *)
Abbreviation Ctx := (list Slot).

Inductive Error :=
| Error_Bad_Arg (arg : Arg)             (* fail (arg) *)
| Error_Bad_Value_Core (word : Item)
| Error_Protected_Key (spelling : nat)
| Error_Hidden_Raw
| Assertion_Failed.                     (* assert (i != 0) *)

Section Definitions.

(** The canon form of a spelling: spellings that differ by case only have
    the same canon. *)
Variable STR_CANON : nat -> nat.

Definition VAL_KEY_CANON (s : Slot) : nat := STR_CANON (VAL_KEY_SPELLING s).

(** The index of the first of [spellings], counted from [n], that has the
    canon; 0 when there is none. *)
Fixpoint index_from (n : nat) (spellings : list nat) (canon : nat) : nat :=
  match spellings with
  | [] => 0
  | s :: rest =>
      if STR_CANON s =? canon then n else index_from (S n) rest canon
  end.

(** Modelled from the spec: [Find_Canon_In_Context] of %c-context.c with
    [always] set, "a bare name token is added with an absent initial value
    and is a no-op if already present": the index of the key, 0 when the
    context has no such key. *)
Definition Find_Canon_In_Context (context : Ctx) (canon : nat) : nat :=
  index_from 1 (map VAL_KEY_SPELLING context) canon.

(** Modelled from the spec: [Expand_Context] and [Append_Context] of
    %c-context.c, a name "is added with an absent initial value": one more
    slot at the end. *)
Definition Append_Context (context : Ctx) (spelling : nat) : Ctx :=
  context ++ [mkSlot spelling false false Var_Void].

(** Modelled from the spec: the collector and its binder (%c-bind.c),
    "build a temporary name->index lookup over existing keys; scan the
    list, adding each not-yet-seen name to a pending key buffer (duplicate
    names in the same call collapse to one slot)".  [buf] holds the
    spellings of BUF_COLLECT from slot 1 on; the binder gives a canon the
    index of its spelling in it. *)
Definition Get_Binder_Index_Else_0 (buf : list nat) (canon : nat) : nat :=
  index_from 1 buf canon.

(** [Try_Add_Binder_Index] and what the first loop does when it says that
    the name was not collected yet: one more key in the buffer. *)
Definition collect_word (buf : list nat) (spelling : nat) : list nat :=
  if Get_Binder_Index_Else_0 buf (STR_CANON spelling) =? 0
  then buf ++ [spelling]
  else buf.

(** The first loop over the block: collect the names. *)
Fixpoint collect_words (word : list Item) (buf : list nat)
  : Result Error (list nat) :=
  match word with
  | [] => Return buf
  | w :: after =>
      match w with
      | Item_Word REB_WORD spelling | Item_Word REB_SET_WORD spelling =>
          let buf := collect_word buf spelling in
          match after with
          | [] => Return buf                      (* fix bug#708 *)
          | _ :: next => collect_words next buf   (* word += 2 *)
          end
      | _ => Fail (Error_Bad_Value_Core w)
      end
  end.

(** The last loop over the block: set the new values.  The first loop
    has seen to it that [word] is a word. *)
Fixpoint set_vars (word : list Item) (buf : list nat) (context : Ctx)
  : Ctx * option Error :=
  match word with
  | [] => (context, None)
  | Item_Other _ :: _ => (context, Some Assertion_Failed)
  | Item_Word _ spelling :: after =>
      match Get_Binder_Index_Else_0 buf (STR_CANON spelling) with
      | O => (context, Some Assertion_Failed)
      | S n =>
          (* key = CTX_KEY (context, i), var = CTX_VAR (context, i) *)
          match context !! n with
          | None => (context, Some Assertion_Failed)
          | Some slot =>
              if var_PROTECTED slot then
                (context, Some (Error_Protected_Key (VAL_KEY_SPELLING slot)))
              else if Is_Param_Hidden slot then
                (context, Some Error_Hidden_Raw)
              else
                match after with
                | [] => (<[n := set_var slot Var_Blank]> context, None)
                | v :: next =>
                    set_vars next buf
                      (<[n := set_var slot (Var_Item v)]> context)
                end
          end
      end
  end.

(** [Append_To_Context]: the context as the call leaves it, and whether
    it failed. *)
Definition Append_To_Context (context : Ctx) (arg : Arg)
  : Ctx * Result Error unit :=
  match arg with
  | Arg_Word _ spelling =>
      if Find_Canon_In_Context context (STR_CANON spelling) =? 0
      then (Append_Context context spelling, Return tt)
      else (context, Return tt)
  | Arg_Other _ => (context, Fail (Error_Bad_Arg arg))
  | Arg_Block item =>
      match collect_words item (map VAL_KEY_SPELLING context) with
      | Fail error => (context, Fail error)
      | Return buf =>
          (* Append new words to obj *)
          let context :=
            fold_left Append_Context (skipn (length context) buf) context in
          (* Set new values to obj words *)
          match set_vars item buf context with
          | (context, Some error) => (context, Fail error)
          | (context, None) => (context, Return tt)
          end
      end
  end.

(** The canons of the names of a block: the cells at the even places. *)
Fixpoint names (word : list Item) : list nat :=
  match word with
  | [] => []
  | w :: after =>
      match w with
      | Item_Word _ spelling => [STR_CANON spelling]
      | Item_Other _ => []
      end
      ++ match after with
         | [] => []
         | _ :: next => names next
         end
  end.

(** The variable of a name holds [v]: the context has a key with the canon
    of the spelling, and the variable of every such key is [v]. *)
Definition holds (context : Ctx) (spelling : nat) (v : Var) : Prop :=
  In (STR_CANON spelling) (map VAL_KEY_CANON context)
  /\ forall n slot,
       context !! n = Some slot ->
       VAL_KEY_CANON slot = STR_CANON spelling ->
       var slot = v.

End Definitions.

(** A sample.  The spellings under 100 are their own canons, and 100 more
    is the same name in another case: 1 is [a], 101 is [A]. *)
Definition sample_STR_CANON (s : nat) : nat := s mod 100.

(** An object with a hidden [self] and the fields [a: 1] and [b: 2]. *)
Definition sample_context : Ctx :=
  [ mkSlot 99 true false Var_Blank;
    mkSlot 1 false false (Var_Item (Item_Other 1));
    mkSlot 2 false false (Var_Item (Item_Other 2)) ].

(** The block [a: 10 c: 20 A: 30 d:]. *)
Definition sample_block : list Item :=
  [ Item_Word REB_SET_WORD 1; Item_Other 10;
    Item_Word REB_SET_WORD 3; Item_Other 20;
    Item_Word REB_SET_WORD 101; Item_Other 30;
    Item_Word REB_SET_WORD 4 ].

Definition sample_appended : Ctx :=
  [ mkSlot 99 true false Var_Blank;
    mkSlot 1 false false (Var_Item (Item_Other 30));
    mkSlot 2 false false (Var_Item (Item_Other 2));
    mkSlot 3 false false (Var_Item (Item_Other 20));
    mkSlot 4 false false Var_Blank ].

(** The same object with [b] protected, and the block [c: 20 b: 3]. *)
Definition protected_context : Ctx :=
  [ mkSlot 99 true false Var_Blank;
    mkSlot 1 false false (Var_Item (Item_Other 1));
    mkSlot 2 false true (Var_Item (Item_Other 2)) ].

Definition protected_block : list Item :=
  [ Item_Word REB_SET_WORD 3; Item_Other 20;
    Item_Word REB_WORD 2; Item_Other 3 ].

Section Facts.

Variable STR_CANON : nat -> nat.

(** Induction over a block two cells at a time. *)
Lemma pair_ind (P : list Item -> Prop) :
  P [] -> (forall w, P [w]) ->
  (forall w v rest, P rest -> P (w :: v :: rest)) ->
  forall l, P l.
Proof.
  intros H0 H1 H2 l. enough (P l /\ forall w, P (w :: l)) by tauto.
  induction l as [|v l [IH IH']]; [split; [exact H0|exact H1]|].
  split; [apply IH'|]. intros w. apply H2, IH.
Qed.

Lemma index_from_absent l c :
  forall n,
    index_from STR_CANON (S n) l c = 0 <-> ~ In c (map STR_CANON l).
Proof.
  induction l as [|s r IH]; intros n; cbn [index_from map In].
  - tauto.
  - destruct (Nat.eqb_spec (STR_CANON s) c) as [E|N].
    + split; [discriminate|]. intros H. exfalso. apply H. now left.
    + rewrite IH. tauto.
Qed.

Lemma index_from_found l c m :
  forall n,
    index_from STR_CANON (S n) l c = S m ->
    n <= m /\ exists s, l !! (m - n) = Some s /\ STR_CANON s = c.
Proof.
  induction l as [|s r IH]; intros n; cbn [index_from]; [discriminate|].
  destruct (Nat.eqb_spec (STR_CANON s) c) as [E|N].
  - intros [= <-]. split; [lia|]. exists s. now rewrite Nat.sub_diag.
  - intros H. apply IH in H as (Hle & s' & Hl & Hc).
    split; [lia|]. exists s'.
    replace (m - n) with (S (m - S n)) by lia. now split.
Qed.

Lemma map_insert_same {A B} (f : A -> B) (l : list A) n x y :
  l !! n = Some x -> f y = f x -> map f (<[n := y]> l) = map f l.
Proof.
  revert n. induction l as [|a l IH]; intros [|n]; cbn; try discriminate.
  - intros [= ->] E. now rewrite E.
  - intros H E. f_equal. now apply IH.
Qed.

Lemma fold_left_Append_Context (new : list nat) :
  forall context,
    fold_left Append_Context new context
    = context ++ map (fun s => mkSlot s false false Var_Void) new.
Proof.
  induction new as [|s new IH]; intros context; cbn [fold_left map].
  - now rewrite app_nil_r.
  - rewrite IH. unfold Append_Context. now rewrite <- app_assoc.
Qed.

(** *** The first loop *)

Lemma collect_word_extends buf spelling :
  (exists new, collect_word STR_CANON buf spelling = buf ++ new)
  /\ (NoDup (map STR_CANON buf) ->
      NoDup (map STR_CANON (collect_word STR_CANON buf spelling)))
  /\ In (STR_CANON spelling)
       (map STR_CANON (collect_word STR_CANON buf spelling)).
Proof.
  unfold collect_word, Get_Binder_Index_Else_0.
  destruct (Nat.eqb_spec (index_from STR_CANON 1 buf (STR_CANON spelling)) 0)
    as [E|N].
  - apply index_from_absent in E. repeat split.
    + now exists [spelling].
    + intros Hnd. rewrite map_app. cbn [map].
      apply NoDup_app. repeat split; [exact Hnd| |apply NoDup_singleton].
      intros x Hx Hx'. apply list_elem_of_singleton in Hx'. subst x.
      apply E. now apply list_elem_of_In.
    + rewrite map_app, in_app_iff. right. now left.
  - repeat split.
    + exists []. now rewrite app_nil_r.
    + tauto.
    + destruct (in_dec Nat.eq_dec (STR_CANON spelling) (map STR_CANON buf))
        as [Hin|Hout]; [exact Hin|].
      now apply (index_from_absent _ _ 0) in Hout.
Qed.

(** The first loop fails on a cell that is not a WORD! or SET-WORD! where
    a name should be, and on nothing else; when it does not fail, the
    buffer has grown at its end, has no canon twice if it had none twice,
    and has every name of the block. *)
Lemma collect_words_extends item :
  forall buf,
    match collect_words STR_CANON item buf with
    | Fail error => exists w, error = Error_Bad_Value_Core w
    | Return buf' =>
        (exists new, buf' = buf ++ new)
        /\ (NoDup (map STR_CANON buf) -> NoDup (map STR_CANON buf'))
        /\ (forall c, In c (names STR_CANON item) ->
                      In c (map STR_CANON buf'))
    end.
Proof.
  induction item as [| w | w v rest IH] using pair_ind; intros buf.
  - cbn. split; [exists []; now rewrite app_nil_r|]. split; tauto.
  - cbn [collect_words names app].
    destruct w as [[| |k] spelling|value].
    1, 2: destruct (collect_word_extends buf spelling) as (Hn & Hd & Hi);
      (split; [exact Hn|split; [exact Hd|]]);
      intros c [<-|[]]; exact Hi.
    all: now eexists.
  - cbn [collect_words names app].
    destruct w as [[| |k] spelling|value].
    1, 2: destruct (collect_word_extends buf spelling)
            as ((n1 & Hn) & Hd & Hi);
      specialize (IH (collect_word STR_CANON buf spelling));
      (destruct (collect_words STR_CANON rest _) as [buf'|error];
       [|exact IH]);
      destruct IH as ((n2 & Hn2) & Hd2 & Hi2);
      (split; [exists (n1 ++ n2); rewrite Hn2, Hn; now rewrite app_assoc|]);
      (split; [tauto|]);
      intros c [<-|Hc]; [|now apply Hi2];
      rewrite Hn2, map_app, in_app_iff; now left.
    all: now eexists.
Qed.

(** *** The last loop *)

Lemma set_vars_frame item :
  forall buf context,
    map frame_of (fst (set_vars STR_CANON item buf context))
    = map frame_of context.
Proof.
  induction item as [| w | w v rest IH] using pair_ind; intros buf context.
  - reflexivity.
  - cbn [set_vars]. destruct w as [k spelling|value]; [|reflexivity].
    destruct (Get_Binder_Index_Else_0 _ _ _) as [|n]; [reflexivity|].
    destruct (context !! n) as [slot|] eqn:Hs; [|reflexivity].
    destruct (var_PROTECTED slot); [reflexivity|].
    destruct (Is_Param_Hidden slot); [reflexivity|].
    cbn [fst]. now apply (map_insert_same frame_of _ _ slot).
  - cbn [set_vars]. destruct w as [k spelling|value]; [|reflexivity].
    destruct (Get_Binder_Index_Else_0 _ _ _) as [|n]; [reflexivity|].
    destruct (context !! n) as [slot|] eqn:Hs; [|reflexivity].
    destruct (var_PROTECTED slot); [reflexivity|].
    destruct (Is_Param_Hidden slot); [reflexivity|].
    rewrite IH. now apply (map_insert_same frame_of _ _ slot).
Qed.

Lemma frame_spellings (c c' : Ctx) :
  map frame_of c' = map frame_of c ->
  map VAL_KEY_SPELLING c' = map VAL_KEY_SPELLING c.
Proof.
  intros H.
  apply (f_equal (map (fun t : nat * bool * bool => fst (fst t)))) in H.
  now rewrite !map_map in H.
Qed.

(** The last loop fails on a protected variable or a hidden key only. *)
Lemma set_vars_errors item :
  forall buf0 buf context,
    collect_words STR_CANON item buf0 = Return buf ->
    map VAL_KEY_SPELLING context = buf ->
    match snd (set_vars STR_CANON item buf context) with
    | None | Some (Error_Protected_Key _) | Some Error_Hidden_Raw => True
    | Some _ => False
    end.
Proof.
  induction item as [| w | w v rest IH] using pair_ind;
    intros buf0 buf context Hc Hk; [exact I| |].
  - cbn [collect_words set_vars] in *.
    destruct w as [[| |k] spelling|value]; try discriminate.
    all: injection Hc as Hc.
    all: destruct (collect_word_extends buf0 spelling) as (_ & _ & Hi).
    all: rewrite Hc in Hi.
    all: unfold Get_Binder_Index_Else_0.
    all: destruct (index_from _ _ _ _) as [|n] eqn:Hidx;
      [apply index_from_absent in Hidx; contradiction|].
    all: apply index_from_found in Hidx as (_ & s & Hl & _).
    all: rewrite Nat.sub_0_r, <- Hk in Hl.
    all: change (map VAL_KEY_SPELLING context)
           with (VAL_KEY_SPELLING <$> context) in Hl.
    all: rewrite list_lookup_fmap in Hl.
    all: destruct (context !! n) as [slot|]; [|discriminate].
    all: destruct (var_PROTECTED slot); [exact I|].
    all: destruct (Is_Param_Hidden slot); exact I.
  - cbn [collect_words set_vars] in *.
    destruct w as [[| |k] spelling|value]; try discriminate.
    all: destruct (collect_word_extends buf0 spelling) as (_ & _ & Hi).
    all: pose proof (collect_words_extends rest
                       (collect_word STR_CANON buf0 spelling)) as Hext.
    all: rewrite Hc in Hext; destruct Hext as ((new & Hnew) & _ & _).
    all: assert (Hin : In (STR_CANON spelling) (map STR_CANON buf))
           by (rewrite Hnew, map_app, in_app_iff; now left).
    all: unfold Get_Binder_Index_Else_0.
    all: destruct (index_from _ _ _ _) as [|n] eqn:Hidx;
      [apply index_from_absent in Hidx; contradiction|].
    all: apply index_from_found in Hidx as (_ & s & Hl & _).
    all: rewrite Nat.sub_0_r, <- Hk in Hl.
    all: change (map VAL_KEY_SPELLING context)
           with (VAL_KEY_SPELLING <$> context) in Hl.
    all: rewrite list_lookup_fmap in Hl.
    all: destruct (context !! n) as [slot|] eqn:Hs; [|discriminate].
    all: destruct (var_PROTECTED slot); [exact I|].
    all: destruct (Is_Param_Hidden slot); [exact I|].
    all: apply (IH _ _ _ Hc).
    all: rewrite <- Hk; now apply (map_insert_same _ _ _ slot).
Qed.

(** One round of the last loop that did not fail. *)
Lemma set_vars_step buf context k spelling after context' :
  set_vars STR_CANON (Item_Word k spelling :: after) buf context
  = (context', None) ->
  map VAL_KEY_SPELLING context = buf ->
  exists n slot,
    context !! n = Some slot
    /\ VAL_KEY_CANON STR_CANON slot = STR_CANON spelling
    /\ match after with
       | [] => context' = <[n := set_var slot Var_Blank]> context
       | v :: next =>
           set_vars STR_CANON next buf
             (<[n := set_var slot (Var_Item v)]> context)
           = (context', None)
       end.
Proof.
  cbn [set_vars]. unfold Get_Binder_Index_Else_0. intros H Hk.
  destruct (index_from _ _ _ _) as [|n] eqn:Hidx; [discriminate|].
  apply index_from_found in Hidx as (_ & s & Hl & Hc).
  rewrite Nat.sub_0_r, <- Hk in Hl.
  change (map VAL_KEY_SPELLING context)
    with (VAL_KEY_SPELLING <$> context) in Hl.
  rewrite list_lookup_fmap in Hl.
  destruct (context !! n) as [slot|] eqn:Hs; [|discriminate].
  injection Hl as <-.
  destruct (var_PROTECTED slot); [discriminate|].
  destruct (Is_Param_Hidden slot); [discriminate|].
  exists n, slot. split; [exact Hs|]. split; [exact Hc|].
  destruct after as [|v next]; [now injection H as <-|exact H].
Qed.

Lemma insert_keeps_spellings (context : Ctx) n slot v :
  context !! n = Some slot ->
  map VAL_KEY_SPELLING (<[n := set_var slot v]> context)
  = map VAL_KEY_SPELLING context.
Proof. intros H. now apply (map_insert_same _ _ _ slot). Qed.

(** A variable whose key is not among the names stays as it is. *)
Lemma set_vars_untouched item :
  forall buf context context',
    set_vars STR_CANON item buf context = (context', None) ->
    map VAL_KEY_SPELLING context = buf ->
    forall j slot,
      context !! j = Some slot ->
      ~ In (VAL_KEY_CANON STR_CANON slot) (names STR_CANON item) ->
      context' !! j = Some slot.
Proof.
  induction item as [| w | w v rest IH] using pair_ind;
    intros buf context context' H Hk j slot Hj Hout.
  - injection H as <-. exact Hj.
  - destruct w as [k spelling|value]; [|discriminate].
    destruct (set_vars_step _ _ _ _ _ _ H Hk) as (n & slotn & Hn & Hc & ->).
    cbn [names app In] in Hout.
    rewrite list_lookup_insert_ne; [exact Hj|].
    intros <-. rewrite Hn in Hj. injection Hj as ->.
    apply Hout. left. symmetry. exact Hc.
  - destruct w as [k spelling|value]; [|discriminate].
    destruct (set_vars_step _ _ _ _ _ _ H Hk) as (n & slotn & Hn & Hc & H').
    cbn [names app In] in Hout.
    apply (IH _ _ _ H'); [rewrite <- Hk; now apply insert_keeps_spellings
                         | |tauto].
    rewrite list_lookup_insert_ne; [exact Hj|].
    intros <-. rewrite Hn in Hj. injection Hj as ->.
    apply Hout. left. symmetry. exact Hc.
Qed.

(** The last value given for a name is the one that stays. *)
Lemma set_vars_last front :
  forall buf context context' k spelling v back,
    set_vars STR_CANON (front ++ Item_Word k spelling :: v :: back) buf
      context = (context', None) ->
    map VAL_KEY_SPELLING context = buf ->
    Nat.Even (length front) ->
    ~ In (STR_CANON spelling) (names STR_CANON back) ->
    exists n slot,
      context' !! n = Some slot
      /\ VAL_KEY_CANON STR_CANON slot = STR_CANON spelling
      /\ var slot = Var_Item v.
Proof.
  induction front as [| w0 | w0 v0 front IH] using pair_ind;
    intros buf context context' k spelling v back H Hk Heven Hout.
  - cbn [app] in H.
    destruct (set_vars_step _ _ _ _ _ _ H Hk) as (n & slot & Hn & Hc & H').
    exists n, (set_var slot (Var_Item v)).
    split; [|split; [exact Hc|reflexivity]].
    apply (set_vars_untouched _ _ _ _ H').
    + rewrite <- Hk. now apply insert_keeps_spellings.
    + apply list_lookup_insert_eq. now apply lookup_lt_Some in Hn.
    + change (VAL_KEY_CANON STR_CANON (set_var slot (Var_Item v)))
        with (VAL_KEY_CANON STR_CANON slot).
      rewrite Hc. exact Hout.
  - destruct Heven as [m Hm]. cbn in Hm. lia.
  - cbn [app] in H. destruct w0 as [k0 s0|value]; [|discriminate].
    destruct (set_vars_step _ _ _ _ _ _ H Hk) as (n & slot & Hn & _ & H').
    apply (IH _ _ _ _ _ _ _ H');
      [rewrite <- Hk; now apply insert_keeps_spellings| |exact Hout].
    destruct Heven as [m Hm]. cbn in Hm. exists (m - 1). lia.
Qed.

(** A name at the end of the block, without a value, gets a blank. *)
Lemma set_vars_trailing front :
  forall buf context context' k spelling,
    set_vars STR_CANON (front ++ [Item_Word k spelling]) buf context
    = (context', None) ->
    map VAL_KEY_SPELLING context = buf ->
    Nat.Even (length front) ->
    exists n slot,
      context' !! n = Some slot
      /\ VAL_KEY_CANON STR_CANON slot = STR_CANON spelling
      /\ var slot = Var_Blank.
Proof.
  induction front as [| w0 | w0 v0 front IH] using pair_ind;
    intros buf context context' k spelling H Hk Heven.
  - cbn [app] in H.
    destruct (set_vars_step _ _ _ _ _ _ H Hk) as (n & slot & Hn & Hc & ->).
    exists n, (set_var slot Var_Blank).
    split; [|split; [exact Hc|reflexivity]].
    apply list_lookup_insert_eq. now apply lookup_lt_Some in Hn.
  - destruct Heven as [m Hm]. cbn in Hm. lia.
  - cbn [app] in H. destruct w0 as [k0 s0|value]; [|discriminate].
    destruct (set_vars_step _ _ _ _ _ _ H Hk) as (n & slot & Hn & _ & H').
    apply (IH _ _ _ _ _ H');
      [rewrite <- Hk; now apply insert_keeps_spellings|].
    destruct Heven as [m Hm]. cbn in Hm. exists (m - 1). lia.
Qed.

(** *** [Append_To_Context] *)

Lemma canons_of_spellings (context : Ctx) :
  map (VAL_KEY_CANON STR_CANON) context
  = map STR_CANON (map VAL_KEY_SPELLING context).
Proof. now rewrite map_map. Qed.

(** The context after the new keys are appended, before the last loop. *)
Lemma appended_keys (context : Ctx) new :
  let grown :=
    fold_left Append_Context
      (skipn (length context) (map VAL_KEY_SPELLING context ++ new))
      context in
  grown = context ++ map (fun s => mkSlot s false false Var_Void) new
  /\ map VAL_KEY_SPELLING grown = map VAL_KEY_SPELLING context ++ new.
Proof.
  cbn zeta. rewrite fold_left_Append_Context.
  rewrite skipn_app, length_map, Nat.sub_diag.
  rewrite skipn_all2 by (rewrite length_map; lia). cbn [app skipn].
  split; [reflexivity|].
  rewrite map_app, map_map. cbn. now rewrite map_id.
Qed.

(** X23. APPEND of a bare word.  A word whose canon the context already
    has as a key, hidden or not, changes nothing; any other word adds one
    slot at the end, with that spelling, not hidden, not protected and
    without a value; and after that the same word, in any spelling with
    the same canon and of any kind, changes nothing: the call never
    fails. *)
Theorem Append_To_Context_word (context : Ctx) kind spelling :
  (In (STR_CANON spelling) (map (VAL_KEY_CANON STR_CANON) context) ->
     Append_To_Context STR_CANON context (Arg_Word kind spelling)
     = (context, Return tt))
  /\ (~ In (STR_CANON spelling) (map (VAL_KEY_CANON STR_CANON) context) ->
      Append_To_Context STR_CANON context (Arg_Word kind spelling)
      = (context ++ [mkSlot spelling false false Var_Void], Return tt))
  /\ (forall kind' spelling',
        STR_CANON spelling' = STR_CANON spelling ->
        Append_To_Context STR_CANON
          (fst (Append_To_Context STR_CANON context (Arg_Word kind spelling)))
          (Arg_Word kind' spelling')
        = (fst (Append_To_Context STR_CANON context (Arg_Word kind spelling)),
           Return tt)).
Proof.
  set (canon := STR_CANON spelling).
  assert (Hin : forall c : Ctx,
            In canon (map (VAL_KEY_CANON STR_CANON) c) ->
            forall kind' spelling',
              STR_CANON spelling' = canon ->
              Append_To_Context STR_CANON c (Arg_Word kind' spelling')
              = (c, Return tt)).
  { intros c H kind' spelling' E. cbn [Append_To_Context].
    unfold Find_Canon_In_Context. rewrite E.
    destruct (Nat.eqb_spec (index_from STR_CANON 1
                              (map VAL_KEY_SPELLING c) canon) 0)
      as [E0|N0]; [|reflexivity].
    apply index_from_absent in E0. rewrite canons_of_spellings in H.
    contradiction. }
  assert (Hout : ~ In canon (map (VAL_KEY_CANON STR_CANON) context) ->
                 Append_To_Context STR_CANON context
                   (Arg_Word kind spelling)
                 = (context ++ [mkSlot spelling false false Var_Void],
                    Return tt)).
  { intros H. cbn [Append_To_Context]. unfold Find_Canon_In_Context.
    rewrite canons_of_spellings in H.
    apply (index_from_absent _ _ 0) in H. fold canon. now rewrite H. }
  split; [|split].
  - intros H. now apply Hin.
  - exact Hout.
  - intros kind' spelling' E. apply Hin; [|exact E].
    destruct (in_dec Nat.eq_dec canon (map (VAL_KEY_CANON STR_CANON) context))
      as [H|H].
    + now rewrite (Hin context H kind spelling eq_refl).
    + rewrite (Hout H). cbn [fst]. rewrite map_app, in_app_iff.
      right. now left.
Qed.

(** X24. APPEND of a block: the keys.  For a context whose keys have
    distinct canons, the call fails in three ways only.  On a cell that is
    not a WORD! or SET-WORD! where a name should be it fails before the
    context is touched.  On a protected variable or a hidden key it fails
    after the context has grown: whether it fails so or succeeds, the
    context then has its old slots, with the same keys, hidden bits and
    protection and in the same order, followed by one new slot for every
    name that it did not have, a name that the block gives twice (in
    whatever case) once only; its keys have distinct canons still, and
    every name of the block is among them. *)
Theorem Append_To_Context_block_keys (context : Ctx) (item : list Item) :
  NoDup (map (VAL_KEY_CANON STR_CANON) context) ->
  match snd (Append_To_Context STR_CANON context (Arg_Block item)) with
  | Fail (Error_Bad_Value_Core w) =>
      fst (Append_To_Context STR_CANON context (Arg_Block item)) = context
  | Fail (Error_Protected_Key _) | Fail Error_Hidden_Raw | Return _ =>
      exists new,
        collect_words STR_CANON item (map VAL_KEY_SPELLING context)
        = Return (map VAL_KEY_SPELLING context ++ new)
        /\ map frame_of
             (fst (Append_To_Context STR_CANON context (Arg_Block item)))
           = map frame_of context ++ map (fun s => (s, false, false)) new
        /\ NoDup (map (VAL_KEY_CANON STR_CANON)
                    (fst (Append_To_Context STR_CANON context
                            (Arg_Block item))))
        /\ (forall c,
              In c (names STR_CANON item) ->
              In c (map (VAL_KEY_CANON STR_CANON)
                      (fst (Append_To_Context STR_CANON context
                              (Arg_Block item)))))
  | Fail _ => False
  end.
Proof.
  intros Hdistinct. cbn [Append_To_Context].
  pose proof (collect_words_extends item (map VAL_KEY_SPELLING context))
    as Hext.
  destruct (collect_words STR_CANON item (map VAL_KEY_SPELLING context))
    as [buf|error] eqn:Hc.
  2: { destruct Hext as (w & ->). reflexivity. }
  destruct Hext as ((new & ->) & Hnd & Hnames).
  destruct (appended_keys context new) as (Hgrown & Hkeys).
  cbn zeta in Hgrown, Hkeys.
  set (grown := fold_left Append_Context _ context) in *.
  pose proof (set_vars_errors item _ _ grown Hc Hkeys) as Herr.
  pose proof (set_vars_frame item (map VAL_KEY_SPELLING context ++ new)
                grown) as Hframe.
  destruct (set_vars STR_CANON item _ grown) as [context' e].
  cbn [fst snd] in *.
  assert (Hall : exists new0,
             Return (map VAL_KEY_SPELLING context ++ new)
             = Return (E := Error) (map VAL_KEY_SPELLING context ++ new0)
             /\ map frame_of context'
                = map frame_of context
                  ++ map (fun s => (s, false, false)) new0
             /\ NoDup (map (VAL_KEY_CANON STR_CANON) context')
             /\ (forall c, In c (names STR_CANON item) ->
                           In c (map (VAL_KEY_CANON STR_CANON) context'))).
  { exists new. split; [reflexivity|].
    assert (Hk' : map VAL_KEY_SPELLING context'
                  = map VAL_KEY_SPELLING context ++ new)
      by (rewrite (frame_spellings _ _ Hframe); exact Hkeys).
    split; [|split].
    - rewrite Hframe, Hgrown, map_app, map_map. reflexivity.
    - rewrite canons_of_spellings, Hk'. apply Hnd.
      now rewrite <- canons_of_spellings.
    - rewrite canons_of_spellings, Hk'. exact Hnames. }
  destruct e as [[]|]; cbn [snd]; first [exact Hall|contradiction].
Qed.

(** With distinct canons a name has one slot. *)
Lemma unique_slot (c : Ctx) n slot n' slot' :
  NoDup (map (VAL_KEY_CANON STR_CANON) c) ->
  c !! n = Some slot -> c !! n' = Some slot' ->
  VAL_KEY_CANON STR_CANON slot' = VAL_KEY_CANON STR_CANON slot ->
  n' = n.
Proof.
  intros Hnd Hn Hn' E.
  apply (NoDup_lookup _ n' n (VAL_KEY_CANON STR_CANON slot) Hnd).
  - change (map (VAL_KEY_CANON STR_CANON) c)
      with (VAL_KEY_CANON STR_CANON <$> c).
    now rewrite list_lookup_fmap, Hn', <- E.
  - change (map (VAL_KEY_CANON STR_CANON) c)
      with (VAL_KEY_CANON STR_CANON <$> c).
    now rewrite list_lookup_fmap, Hn.
Qed.

Lemma holds_of_slot (c : Ctx) spelling v :
  NoDup (map (VAL_KEY_CANON STR_CANON) c) ->
  (exists n slot,
     c !! n = Some slot
     /\ VAL_KEY_CANON STR_CANON slot = STR_CANON spelling
     /\ var slot = v) ->
  holds STR_CANON c spelling v.
Proof.
  intros Hnd (n & slot & Hn & Hc & Hv). split.
  - rewrite <- Hc. apply in_map. apply list_elem_of_In.
    now apply list_elem_of_lookup_2 with n.
  - intros n' slot' Hn' Hc'.
    assert (n' = n) as ->
      by (apply (unique_slot c n slot n' slot' Hnd Hn Hn'); congruence).
    congruence.
Qed.

(** X25. APPEND of a block: the values.  For a context whose keys have
    distinct canons, when the call succeeds, a name followed by a value,
    and not given again later in the block (in whatever case), has that
    value; a name that ends the block, with no value after it, has a
    blank; and a variable of the context that the block does not name is
    as it was, at the place where it was. *)
Theorem Append_To_Context_block_values (context context' : Ctx)
    (item : list Item) :
  NoDup (map (VAL_KEY_CANON STR_CANON) context) ->
  Append_To_Context STR_CANON context (Arg_Block item)
  = (context', Return tt) ->
  (forall front kind spelling v back,
     item = front ++ Item_Word kind spelling :: v :: back ->
     Nat.Even (length front) ->
     ~ In (STR_CANON spelling) (names STR_CANON back) ->
     holds STR_CANON context' spelling (Var_Item v))
  /\ (forall front kind spelling,
        item = front ++ [Item_Word kind spelling] ->
        Nat.Even (length front) ->
        holds STR_CANON context' spelling Var_Blank)
  /\ (forall n slot,
        context !! n = Some slot ->
        ~ In (VAL_KEY_CANON STR_CANON slot) (names STR_CANON item) ->
        context' !! n = Some slot).
Proof.
  cbn [Append_To_Context]. intros Hdistinct H.
  pose proof (collect_words_extends item (map VAL_KEY_SPELLING context))
    as Hext.
  destruct (collect_words STR_CANON item (map VAL_KEY_SPELLING context))
    as [buf|error] eqn:Hc; [|discriminate].
  destruct Hext as ((new & ->) & Hnd & _).
  destruct (appended_keys context new) as (Hgrown & Hkeys).
  cbn zeta in Hgrown, Hkeys.
  set (grown := fold_left Append_Context _ context) in *.
  pose proof (set_vars_frame item (map VAL_KEY_SPELLING context ++ new)
                grown) as Hframe.
  destruct (set_vars STR_CANON item _ grown) as [c e] eqn:Hset.
  destruct e as [e|]; [discriminate|]. injection H as ->.
  cbn [fst] in Hframe.
  assert (Hnd' : NoDup (map (VAL_KEY_CANON STR_CANON) context')).
  { rewrite canons_of_spellings, (frame_spellings _ _ Hframe), Hkeys.
    apply Hnd. now rewrite <- canons_of_spellings. }
  split; [|split].
  - intros front kind spelling v back -> Heven Hout.
    apply holds_of_slot; [exact Hnd'|].
    now apply (set_vars_last _ _ _ _ _ _ _ _ Hset Hkeys).
  - intros front kind spelling -> Heven.
    apply holds_of_slot; [exact Hnd'|].
    now apply (set_vars_trailing _ _ _ _ _ _ Hset Hkeys).
  - intros n slot Hn Hout.
    apply (set_vars_untouched _ _ _ _ Hset Hkeys); [|exact Hout].
    rewrite Hgrown. now apply lookup_app_l_Some.
Qed.

End Facts.

Example append_block :
  Append_To_Context sample_STR_CANON sample_context (Arg_Block sample_block)
  = (sample_appended, Return tt).
Proof. reflexivity. Qed.

(** The call that fails on the protected [b] has added [c] and set it. *)
Example append_protected :
  Append_To_Context sample_STR_CANON protected_context
    (Arg_Block protected_block)
  = (protected_context ++ [mkSlot 3 false false (Var_Item (Item_Other 20))],
     Fail (Error_Protected_Key 2)).
Proof. reflexivity. Qed.

Lemma sample_distinct :
  NoDup (map (VAL_KEY_CANON sample_STR_CANON) sample_context).
Proof.
  apply NoDup_ListNoDup. repeat constructor; cbn; intuition discriminate.
Defined.

Lemma protected_distinct :
  NoDup (map (VAL_KEY_CANON sample_STR_CANON) protected_context).
Proof.
  apply NoDup_ListNoDup. repeat constructor; cbn; intuition discriminate.
Defined.

Lemma Append_To_Context_block_keys_witness :
  exists new,
    map frame_of
      (fst (Append_To_Context sample_STR_CANON protected_context
              (Arg_Block protected_block)))
    = map frame_of protected_context ++ map (fun s => (s, false, false)) new.
Proof.
  destruct (Append_To_Context_block_keys sample_STR_CANON protected_context
              protected_block protected_distinct) as (new & _ & H & _).
  exists new. exact H.
Defined.

Lemma Append_To_Context_block_values_witness :
  holds sample_STR_CANON sample_appended 101 (Var_Item (Item_Other 30))
  /\ holds sample_STR_CANON sample_appended 4 Var_Blank
  /\ sample_appended !! 2
     = Some (mkSlot 2 false false (Var_Item (Item_Other 2))).
Proof.
  destruct (Append_To_Context_block_values sample_STR_CANON sample_context
              sample_appended sample_block sample_distinct eq_refl)
    as (Hlast & Hend & Hkept).
  split; [|split].
  - apply (Hlast [Item_Word REB_SET_WORD 1; Item_Other 10;
                  Item_Word REB_SET_WORD 3; Item_Other 20]
             REB_SET_WORD 101 (Item_Other 30) [Item_Word REB_SET_WORD 4]).
    + reflexivity.
    + exists 2. reflexivity.
    + cbn. intuition discriminate.
  - apply (Hend [Item_Word REB_SET_WORD 1; Item_Other 10;
                 Item_Word REB_SET_WORD 3; Item_Other 20;
                 Item_Word REB_SET_WORD 101; Item_Other 30]
             REB_SET_WORD 4).
    + reflexivity.
    + exists 3. reflexivity.
  - apply (Hkept 2); [reflexivity|]. cbn. intuition discriminate.
Defined.

End Append.

(** ** %t-object.c: Copy_Context_Core_Managed *)

Module Copy.

Import Context.

Section Definitions.

(** [Clonify] of the core with no flags: the "recursive deep-copy pass for
    any nested value whose type is in the requested type-set". *)
Variable Clonify : REBVAL -> Z -> REBVAL.

(** Modelled from the spec: [Make_Arr_For_Copy], "copy (duplicates backing
    storage ...)": the address of a new array, which no context of the
    store has. *)
Definition Make_Arr_For_Copy (st : Store) : nat := fresh (dom st).

(** [Copy_Context_Core_Managed]: the store with the copy in it and the
    address of the copy; nothing when the assertion on [original] fails.
    The copy has the keylist of the original
    ([INIT_CTX_KEYLIST_SHARED]), and its variables are those of the
    original, moved and passed through [Clonify]. *)
Definition Copy_Context_Core_Managed (st : Store) (original : nat)
    (types : Z) : option (Store * nat) :=
  match st !! original with
  | None => None     (* assert (NOT_SERIES_INFO (original, INACCESSIBLE)) *)
  | Some x =>
      let varlist := Make_Arr_For_Copy st in
      let vars :=
        map (fun s => (fst s, Clonify (snd s) types)) (CTX_SLOTS x) in
      Some (<[varlist := mkCtx vars false]> st, varlist)
  end.

End Definitions.

(** A [Clonify] for the sample: integers have nothing to clone. *)
Definition sample_Clonify (v : REBVAL) (types : Z) : REBVAL := v.

(** The sample store after the locked object is copied. *)
Definition copied_store : Store :=
  <[6%nat := mkCtx (CTX_SLOTS obj_locked) false]> sample_store.

Section Facts.

Variable Clonify : REBVAL -> Z -> REBVAL.
Variable Cmp_Value : REBVAL -> REBVAL -> bool -> Z.

Lemma Make_Arr_For_Copy_fresh (st : Store) :
  st !! Make_Arr_For_Copy st = None.
Proof.
  unfold Make_Arr_For_Copy. apply not_elem_of_dom. apply is_fresh.
Qed.

(** The visible slots of a context and of its cloned variables match when
    a value and its clone compare equal. *)
Lemma pairwise_cloned types (l : list (Key * REBVAL)) :
  (forall key v,
     In (key, v) l -> Is_Param_Hidden key = false ->
     Cmp_Value v (Clonify v types) false = 0) ->
  visible_slots_match Cmp_Value l
    (map (fun s => (fst s, Clonify (snd s) types)) l) = true.
Proof.
  unfold visible_slots_match, visible.
  induction l as [|[key v] l IH]; intros H; [reflexivity|].
  cbn [map List.filter fst snd].
  destruct (Is_Param_Hidden key) eqn:Eh; cbn [negb].
  - apply IH. intros k w Hin. apply H. now right.
  - cbn [pairwise]. unfold same_slot at 1. cbn [fst snd].
    rewrite Nat.eqb_refl, (H key v) by (now left || exact Eh).
    cbn. apply IH. intros k w Hin. apply H. now right.
Qed.

(** X26. COPY of a context.  [Copy_Context_Core_Managed] on an accessible
    context gives a context at an address that none had, and changes no
    other context; the copy has the keys of the original, hidden bits
    included, in the same order; it is not read-only, be the original
    read-only or not; and when each visible variable compares equal to its
    clone, the original is equal to the copy under [Equal_Context]. *)
Theorem Copy_Context_equal_original (st st' : Store) kind original types
    copy :
  (forall key v,
     In (key, v) (slots_of st original) -> Is_Param_Hidden key = false ->
     Cmp_Value v (Clonify v types) false = 0) ->
  Copy_Context_Core_Managed Clonify st original types = Some (st', copy) ->
  st !! copy = None
  /\ (forall c, c <> copy -> st' !! c = st !! c)
  /\ map fst (slots_of st' copy) = map fst (slots_of st original)
  /\ FAIL_IF_READ_ONLY_CONTEXT st' copy = Return tt
  /\ Equal_Context Cmp_Value st' kind original kind copy = Return true.
Proof.
  unfold Copy_Context_Core_Managed, slots_of. intros Hclone H.
  destruct (st !! original) as [x|] eqn:Eo; [|discriminate].
  injection H as <- <-.
  pose proof (Make_Arr_For_Copy_fresh st) as Hfresh.
  generalize dependent (Make_Arr_For_Copy st). intros copy Hfresh.
  assert (Hne : original <> copy) by congruence.
  split; [exact Hfresh|]. split; [|split; [|split]].
  - intros c Hc. apply lookup_insert_ne. intros E. now apply Hc.
  - rewrite lookup_insert_eq. cbn [CTX_SLOTS]. rewrite map_map.
    reflexivity.
  - unfold FAIL_IF_READ_ONLY_CONTEXT. now rewrite lookup_insert_eq.
  - unfold Equal_Context, VAL_CONTEXT, slots_of.
    rewrite Reb_Kind_eqb_refl. cbn [negb].
    rewrite !(lookup_insert_ne _ copy original)
      by (intros E; apply Hne; symmetry; exact E).
    rewrite lookup_insert_eq, Eo. cbn [mbind Result_bind CTX_SLOTS].
    destruct (Nat.eqb_spec original copy) as [E|_]; [contradiction|].
    rewrite !(lookup_insert_ne _ copy original)
      by (intros E; apply Hne; symmetry; exact E).
    rewrite lookup_insert_eq, Eo. cbn [CTX_SLOTS].
    rewrite Equal_walk_visible. f_equal. now apply pairwise_cloned.
Qed.

End Facts.

Example copy_locked :
  Copy_Context_Core_Managed sample_Clonify sample_store 4 0
  = Some (copied_store, 6%nat).
Proof. reflexivity. Qed.

Lemma Copy_Context_equal_original_witness :
  FAIL_IF_READ_ONLY_CONTEXT copied_store 6 = Return tt
  /\ Equal_Context sample_Cmp_Value copied_store REB_OBJECT 4 REB_OBJECT 6
     = Return true.
Proof.
  destruct (Copy_Context_equal_original sample_Clonify sample_Cmp_Value
              sample_store copied_store REB_OBJECT 4 0 6)
    as (_ & _ & _ & Hrw & Heq).
  - intros key v [E|[E|[]]] Hv; injection E as <- <-;
      [discriminate|reflexivity].
  - reflexivity.
  - split; [exact Hrw|exact Heq].
Defined.

End Copy.

(** ** %t-object.c: META-OF and SET-META *)

Module Meta.

Local Open Scope nat_scope.

(** The cells that the parameters of the two natives let in: an action
    with its paramlist, a context with its varlist and its binding
    ([UNBOUND] is [None]), and null. *)
Inductive REBVAL :=
| Nulled
| Action (paramlist : nat)
| Any_Context (varlist : nat) (binding : option nat).

(** A series node: whether its data is gone, whether it is a paramlist,
    and [MISC (s).meta]. *)
Record REBSER := mkSer {
  INACCESSIBLE : bool;
  IS_PARAMLIST : bool;
  meta : option nat
}.

(** The nodes, by address. *)
Abbreviation Store := (nat -> REBSER).

Definition set_MISC_meta (st : Store) (s : nat) (m : option nat) : Store :=
  fun a =>
    if a =? s then mkSer (INACCESSIBLE (st s)) (IS_PARAMLIST (st s)) m
    else st a.

Inductive Error :=
| Error_Series_Data_Freed_Raw
| Error_User          (* SET-META can't store context bindings, ... *)
| Assertion_Failed.

(** [VAL_ACTION] and then [ACT_PARAMLIST]. *)
Definition VAL_ACT_PARAMLIST (st : Store) (paramlist : nat)
  : Result Error nat :=
  if INACCESSIBLE (st paramlist) then Fail Error_Series_Data_Freed_Raw
  else if IS_PARAMLIST (st paramlist) then Return paramlist
  else Fail Assertion_Failed.

(** [VAL_ACT_META] reads the node, whatever its info bits. *)
Definition VAL_ACT_META (st : Store) (paramlist : nat) : option nat :=
  meta (st paramlist).

(** Modelled from the spec: [VAL_CONTEXT] of %sys-context.h, "dereferencing
    an action or context whose backing series has been marked inaccessible
    fails with StaleReference". *)
Definition VAL_CONTEXT (st : Store) (varlist : nat) : Result Error nat :=
  if INACCESSIBLE (st varlist) then Fail Error_Series_Data_Freed_Raw
  else Return varlist.

(** The series that holds the meta of a value. *)
Definition node (v : REBVAL) : option nat :=
  match v with
  | Nulled => None
  | Action paramlist => Some paramlist
  | Any_Context varlist _ => Some varlist
  end.

Section Definitions.

(** [CTX_ARCHETYPE]: the cell at the head of a varlist. *)
Variable CTX_ARCHETYPE : nat -> REBVAL.

Definition archetype_or_null (m : option nat) : REBVAL :=
  match m with
  | None => Nulled                      (* return nullptr *)
  | Some c => CTX_ARCHETYPE c
  end.

(** The native META-OF. *)
Definition meta_of (st : Store) (v : REBVAL) : Result Error REBVAL :=
  m ← match v with
      | Action paramlist => Return (VAL_ACT_META st paramlist)
      | Any_Context varlist _ =>
          c ← VAL_CONTEXT st varlist; Return (meta (st c))
      | Nulled => Fail Assertion_Failed
      end;
  Return (archetype_or_null m).

(** The native SET-META: the store after it and what it returns. *)
Definition set_meta (st : Store) (value meta_arg : REBVAL)
  : Result Error (Store * REBVAL) :=
  m ← match meta_arg with
      | Any_Context varlist binding =>
          match binding with
          | Some _ => Fail Error_User
          | None => c ← VAL_CONTEXT st varlist; Return (Some c)
          end
      | Nulled => Return None
      | Action _ => Fail Assertion_Failed
      end;
  s ← match value with
      | Action paramlist => VAL_ACT_PARAMLIST st paramlist
      | Any_Context varlist _ => VAL_CONTEXT st varlist
      | Nulled => Fail Assertion_Failed
      end;
  Return (set_MISC_meta st s m, archetype_or_null m).

End Definitions.

(** A sample: the archetype of a context is the context, unbound; node 1
    is a paramlist, node 2 a varlist, node 3 a paramlist whose data is
    gone, and the other nodes are varlists. *)
Definition sample_CTX_ARCHETYPE (c : nat) : REBVAL := Any_Context c None.

Definition sample_store : Store :=
  fun a =>
    match a with
    | 1 => mkSer false true None
    | 3 => mkSer true true (Some 2)
    | _ => mkSer false false None
    end.

Section Facts.

Variable CTX_ARCHETYPE : nat -> REBVAL.

Lemma set_MISC_meta_same (st : Store) s m :
  meta (set_MISC_meta st s m s) = m
  /\ INACCESSIBLE (set_MISC_meta st s m s) = INACCESSIBLE (st s).
Proof. unfold set_MISC_meta. now rewrite Nat.eqb_refl. Qed.

Lemma set_MISC_meta_other (st : Store) s m a :
  a <> s -> set_MISC_meta st s m a = st a.
Proof.
  intros H. unfold set_MISC_meta.
  now destruct (Nat.eqb_spec a s) as [E|_]; [contradiction|].
Qed.

(** Where SET-META succeeds, the series of the value is accessible. *)
Lemma set_meta_writes (st st' : Store) value meta_arg r :
  set_meta CTX_ARCHETYPE st value meta_arg = Return (st', r) ->
  exists s m,
    node value = Some s /\ INACCESSIBLE (st s) = false
    /\ st' = set_MISC_meta st s m /\ r = archetype_or_null CTX_ARCHETYPE m
    /\ match meta_arg with
       | Nulled => m = None
       | Any_Context varlist binding => m = Some varlist /\ binding = None
       | Action _ => False
       end.
Proof.
  unfold set_meta, VAL_CONTEXT, VAL_ACT_PARAMLIST. intros H.
  destruct meta_arg as [|p|c [b|]]; cbn [mbind Result_bind] in H;
    try discriminate.
  - destruct value as [|p|c b]; cbn [mbind Result_bind] in H;
      try discriminate.
    + destruct (INACCESSIBLE (st p)) eqn:Ei; [discriminate|].
      destruct (IS_PARAMLIST (st p)); [|discriminate].
      injection H as <- <-. now exists p, None.
    + destruct (INACCESSIBLE (st c)) eqn:Ei; [discriminate|].
      injection H as <- <-. now exists c, None.
  - destruct (INACCESSIBLE (st c)); [discriminate|].
    cbn [mbind Result_bind] in H.
    destruct value as [|p|c' b]; cbn [mbind Result_bind] in H;
      try discriminate.
    + destruct (INACCESSIBLE (st p)) eqn:Ei; [discriminate|].
      destruct (IS_PARAMLIST (st p)); [|discriminate].
      injection H as <- <-. now exists p, (Some c).
    + destruct (INACCESSIBLE (st c')) eqn:Ei; [discriminate|].
      injection H as <- <-. now exists c', (Some c).
Qed.

(** X27. SET-META and then META-OF.  When SET-META succeeds, META-OF gives
    what SET-META returned (the archetype of the meta context, or null
    when the meta was null) for the value and for every other action or
    context cell on the same series, whatever its binding; the meta of a
    value on another series is what it was; and the meta that was stored
    is unbound. *)
Theorem set_meta_then_meta_of (st st' : Store) value meta_arg r :
  set_meta CTX_ARCHETYPE st value meta_arg = Return (st', r) ->
  (forall v, node v = node value -> meta_of CTX_ARCHETYPE st' v = Return r)
  /\ (forall v,
        node v <> node value ->
        meta_of CTX_ARCHETYPE st' v = meta_of CTX_ARCHETYPE st v)
  /\ match meta_arg with
     | Nulled => r = Nulled
     | Any_Context varlist binding =>
         r = CTX_ARCHETYPE varlist /\ binding = None
     | Action _ => False
     end.
Proof.
  intros H.
  destruct (set_meta_writes _ _ _ _ _ H) as (s & m & Hs & Hi & -> & -> & Hm).
  destruct (set_MISC_meta_same st s m) as [Em Ei].
  split; [|split].
  - intros v Hv. rewrite Hs in Hv. unfold meta_of, VAL_ACT_META, VAL_CONTEXT.
    destruct v as [|p|c b]; cbn [node] in Hv; [discriminate| |];
      injection Hv as ->.
    + cbn [mbind Result_bind]. now rewrite Em.
    + rewrite Ei, Hi. cbn [mbind Result_bind]. now rewrite Em.
  - intros v Hv. rewrite Hs in Hv. unfold meta_of, VAL_ACT_META, VAL_CONTEXT.
    destruct v as [|p|c b]; cbn [node] in Hv; [reflexivity| |];
      rewrite set_MISC_meta_other by congruence; [reflexivity|].
    destruct (INACCESSIBLE (st c)); [reflexivity|].
    cbn [mbind Result_bind].
    now rewrite set_MISC_meta_other by congruence.
  - destruct meta_arg as [|p|c b]; [now subst m|exact Hm|].
    destruct Hm as [-> ->]. now split.
Qed.

End Facts.

(** META-OF reads the meta of an action whose data is gone, which
    SET-META refuses to write. *)
Example meta_of_freed_action :
  meta_of sample_CTX_ARCHETYPE sample_store (Action 3)
  = Return (Any_Context 2 None)
  /\ set_meta sample_CTX_ARCHETYPE sample_store (Action 3) Nulled
     = Fail Error_Series_Data_Freed_Raw.
Proof. split; reflexivity. Qed.

Example set_meta_bound :
  set_meta sample_CTX_ARCHETYPE sample_store (Action 1)
    (Any_Context 2 (Some 5))
  = Fail Error_User.
Proof. reflexivity. Qed.

Lemma set_meta_then_meta_of_witness :
  meta_of sample_CTX_ARCHETYPE
    (set_MISC_meta sample_store 4 (Some 2)) (Any_Context 4 (Some 7))
  = Return (Any_Context 2 None).
Proof.
  destruct (set_meta_then_meta_of sample_CTX_ARCHETYPE sample_store
              (set_MISC_meta sample_store 4 (Some 2))
              (Any_Context 4 None) (Any_Context 2 None) (Any_Context 2 None)
              eq_refl) as (H & _ & _).
  apply H. reflexivity.
Defined.

End Meta.
